(** * mcp-qdrant-memory: knowledge graph over a vector index

    A shallow embedding of the server's core:
    - [src/persistence/qdrant.ts]  (class [QdrantPersistence]),
    - [src/index.ts]               (class [KnowledgeGraphManager] and the
                                    tool handlers of [MemoryServer]),
    - [src/validation.ts]          (request validation),
    - [src/streamingResponseBuilder.ts] (token budgeted graph views).

    The Qdrant service and the embedding provider are external: they are
    modelled as a small world (collections of points, a call counter) and a
    few oracles that decide what a call answers and whether it fails.
    JavaScript numbers that arrive from JSON (limits, scores) are rationals
    [Q]; point identifiers and counters are integers. *)

From Stdlib Require Import ZArith QArith Qminmax Qround String Ascii List Lia.
From stdpp Require Import base option list strings gmap pretty.

Set Warnings "-register-all,-clear-no-such-hyp".

Local Open Scope string_scope.
Local Open Scope Z_scope.

(* ===================================================================== *)
(** * JavaScript values and idioms *)
(* ===================================================================== *)

Module JS.

(** Truthiness of a string that may be [undefined]: the empty string is
    falsy. *)
Definition truthy (o : option string) : bool :=
  match o with
  | Some s => negb (bool_decide (s = ""))
  | None => false
  end.

(** [a || b] on strings that may be [undefined]. *)
Definition or (a b : option string) : option string :=
  if truthy a then a else b.

(** [a || d] where [d] is a string literal. *)
Definition or_default (a : option string) (d : string) : string :=
  match a with
  | Some s => if bool_decide (s = "") then d else s
  | None => d
  end.

(** [a || b] on arrays that may be [undefined]: every array is truthy. *)
Definition or_list {A} (a b : option (list A)) : option (list A) :=
  match a with Some _ => a | None => b end.

Definition or_nil {A} (a : option (list A)) : list A := default [] a.

(** [n || d] on numbers: [0] and [undefined] are falsy. *)
Definition or_num (n : option Q) (d : Q) : Q :=
  match n with
  | Some q => if Qeq_bool q 0 then d else q
  | None => d
  end.

(** [Number.MAX_SAFE_INTEGER] *)
Definition MAX_SAFE_INTEGER : Z := 2 ^ 53 - 1.

(** [arr.slice(0, n)]: the end index is truncated towards zero, a
    negative index counts from the end of the array. *)
Definition trunc (q : Q) : Z :=
  if Qle_bool 0 q then Qfloor q else Qceiling q.

Definition slice0 {A} (n : Q) (l : list A) : list A :=
  let k := trunc n in
  if 0 <=? k then take (Z.to_nat k) l
  else take (length l - Z.to_nat (- k)) l.

(** [arr.join(sep)] *)
Fixpoint join (sep : string) (l : list string) : string :=
  match l with
  | [] => ""
  | [x] => x
  | x :: rest => x +:+ sep +:+ join sep rest
  end.

(** [s.startsWith(p)] *)
Definition startsWith (p s : string) : bool := String.prefix p s.

(** [arr.includes(x)] on strings *)
Definition includes (x : string) (l : list string) : bool :=
  bool_decide (x ∈ l).

(** The values a tool argument can hold, as far as validation tells them
    apart with [typeof] and [Array.isArray]. *)
Inductive value :=
| Undefined
| Null
| Bool (b : bool)
| Num (q : Q)
| Str (s : string)
| Arr (l : list value)
| Obj (fields : list (string * value)).

Definition is_string (v : value) : bool :=
  match v with Str _ => true | _ => false end.

(** [o.k], [undefined] when [o] has no such property. *)
Fixpoint field_of (k : string) (fields : list (string * value)) : value :=
  match fields with
  | [] => Undefined
  | (k', v) :: rest => if bool_decide (k' = k) then v else field_of k rest
  end.

Definition prop (k : string) (v : value) : value :=
  match v with Obj fields => field_of k fields | _ => Undefined end.

Definition as_strings (l : list value) : list string :=
  omap (fun v => match v with Str s => Some s | _ => None end) l.


(** Truthiness of a value. *)
Definition truthy_value (v : value) : bool :=
  match v with
  | Undefined | Null => false
  | Bool b => b
  | Num q => negb (Qeq_bool q 0)
  | Str s => negb (bool_decide (s = ""))
  | Arr _ | Obj _ => true
  end.

(** [a || b] on values. *)
Definition or_value (a b : value) : value :=
  if truthy_value a then a else b.

End JS.

(* ===================================================================== *)
(** * Stable sorting by a rational score, descending

    [Array.prototype.sort] is stable; with the comparator
    [(a, b) => b.score - a.score] it orders by descending score and keeps
    the input order among equal scores. *)
(* ===================================================================== *)

Section SortDesc.
Context {A : Type} (key : A → Q).

(** [x] is put before the first element whose score is not above its own:
    an element of the same score that is already there comes after it. *)
Fixpoint insert_desc (x : A) (l : list A) : list A :=
  match l with
  | [] => [x]
  | y :: l' =>
      if Qlt_le_dec (key x) (key y) then y :: insert_desc x l'
      else x :: y :: l'
  end.

(** A right fold: each element is inserted in front of the sorted rest of
    the list, so that of two equal scores the earlier element of the input
    ends up first, as with the stable [sort] of JavaScript. *)
Fixpoint sort_desc (l : list A) : list A :=
  match l with
  | [] => []
  | x :: l' => insert_desc x (sort_desc l')
  end.

Inductive sorted_desc : list A → Prop :=
| sorted_desc_nil : sorted_desc []
| sorted_desc_cons x l :
    Forall (fun y => (key y <= key x)%Q) l → sorted_desc l →
    sorted_desc (x :: l).

End SortDesc.

(* ===================================================================== *)
(** * Data model *)
(* ===================================================================== *)

(** [Entity] and [Relation] of [types.ts], as [validation.ts] checks them. *)
Record Entity := {
  name : string;
  entityType : string;
  observations : list string;
}.

Record Relation := {
  from : string;
  to : string;
  relationType : string;
}.

Record KnowledgeGraph := {
  entities : list Entity;
  relations : list Relation;
}.

Definition emptyGraph : KnowledgeGraph := {| entities := []; relations := [] |}.

(** The [metadata] sub-object of the newer chunk layout. (Line numbers are
    carried along by the store and never read by the code below.) *)
Record Metadata := {
  md_entity_type : option string;
  md_observations : option (list string);
  md_file_path : option string;
  md_has_implementation : option bool;
}.

(** [semantic_metadata] recorded by the indexer. *)
Record SemanticMetadataRaw := {
  sm_calls : option (list string);
  sm_imports_used : option (list string);
}.

(** A chunk payload: the fields of [interface ChunkPayload] with their
    declared types, followed by the fields the code reads through
    [as any]. *)
Record Payload := {
  type : string;
  chunk_type : string;
  entity_name : string;
  entity_type : string;
  content : string;
  file_path : option string;
  relation_target : option string;
  relation_type : option string;
  created_at : option string;
  p_observations : option (list string);
  p_id : option string;
  p_name : option string;
  p_from : option string;
  p_to : option string;
  p_relationType : option string;
  p_metadata : option Metadata;
  p_semantic_metadata : option SemanticMetadataRaw;
  p_has_implementation : option bool;
}.

(** [{...payload, entity_name: n}] and [{...payload, has_implementation: b}] *)
Definition with_entity_name (n : string) (p : Payload) : Payload :=
  {| type := type p; chunk_type := chunk_type p; entity_name := n;
     entity_type := entity_type p; content := content p;
     file_path := file_path p; relation_target := relation_target p;
     relation_type := relation_type p; created_at := created_at p;
     p_observations := p_observations p; p_id := p_id p; p_name := p_name p;
     p_from := p_from p; p_to := p_to p; p_relationType := p_relationType p;
     p_metadata := p_metadata p; p_semantic_metadata := p_semantic_metadata p;
     p_has_implementation := p_has_implementation p |}.

Definition with_has_implementation (b : bool) (p : Payload) : Payload :=
  {| type := type p; chunk_type := chunk_type p; entity_name := entity_name p;
     entity_type := entity_type p; content := content p;
     file_path := file_path p; relation_target := relation_target p;
     relation_type := relation_type p; created_at := created_at p;
     p_observations := p_observations p; p_id := p_id p; p_name := p_name p;
     p_from := p_from p; p_to := p_to p; p_relationType := p_relationType p;
     p_metadata := p_metadata p; p_semantic_metadata := p_semantic_metadata p;
     p_has_implementation := Some b |}.

(** [payload.metadata?.entity_type || payload.entity_type] *)
Definition payloadEntityType (p : Payload) : string :=
  JS.or_default (p_metadata p ≫= md_entity_type) (entity_type p).

(** A stored point, and a point as [search] and [scroll] return it. *)
Record Point := {
  pt_id : Z;
  pt_vector : list Q;
  pt_payload : option Payload;
}.

Record ScoredPoint := {
  sp_id : Z;
  sp_score : Q;
  sp_payload : option Payload;
}.

Inductive PageOffset :=
| OffsetNumber (n : Z)
| OffsetString (s : string)
| OffsetNull
| OffsetUndefined
| OffsetOther.

Record ScrollResult := {
  sc_points : list Point;
  next_page_offset : PageOffset;
}.

(** Filters: [must] is a conjunction and [should] a disjunction of
    conditions; an absent clause is the empty list. *)
Inductive Condition :=
| MatchValue (key value : string)
| MatchAny (key : string) (any : list string)
| ShouldOf (conds : list Condition).

Record Filter := {
  must : list Condition;
  should : list Condition;
}.

Record SearchRequest := {
  s_vector : list Q;
  s_limit : Q;
  s_with_payload : bool;
  s_filter : option Filter;
}.

Record ScrollRequest := {
  r_limit : Q;
  r_offset : option (Z + string);
  r_filter : Filter;
}.

(** [SearchResult] of [types.ts]: what the search tools return. *)
Record SearchResult := {
  sr_type : string;
  score : Q;
  data : Payload;
}.

Inductive SearchMode := semantic | keyword | hybrid.

Inductive Scope := minimal | logical | dependencies.

Inductive GraphMode := smart | entities_mode | relationships | raw.

Record ScrollOptions := {
  mode : option GraphMode;
  entityTypes : option (list string);
  limit : option Q;
}.

(* ===================================================================== *)
(** * The external world and the effects of the code *)
(* ===================================================================== *)

(** A Qdrant collection: its vector configuration (old layout
    [vectors.size], new layout [vectors.dense.size]) and its points, keyed
    by point id. *)
Record Collection := {
  cfg_size : option Z;
  cfg_dense_size : option Z;
  c_points : gmap Z Point;
}.

(** The calls that leave the process. *)
Inductive Call :=
| GetCollections
| CreateCollection (collection : string) (size : Z)
| GetCollection (collection : string)
| Upsert (collection : string) (p : Point)
| Search (collection : string) (r : SearchRequest)
| Scroll (collection : string) (r : ScrollRequest)
| Embeddings (provider model text : string).

(** The state a request runs in: the Qdrant service, the number of calls
    made so far (the oracles below answer per call, so a failure can be
    transient), and the fields of the [QdrantPersistence] object. The
    keyword index is the list of documents it holds. *)
Record BM25Document := {
  doc_id : option string;
  doc_content : string;
  doc_entityType : string;
  doc_observations : list string;
  doc_file_path : option string;
  doc_has_implementation : bool;
  doc_chunk : Payload;
}.

Record State := {
  qdrant : gmap string Collection;
  n_calls : nat;
  initialized : bool;
  vectorSize : Z;
  bm25Service : list BM25Document;
}.

(** What a computation ends in. [OutOfFuel] is not a behaviour of the
    program: a loop of the model ran out of its fuel. *)
Inductive Outcome (A : Type) :=
| Ok (a : A)
| Throw (message : string)
| OutOfFuel.
Arguments Ok {A} a.
Arguments Throw {A} message.
Arguments OutOfFuel {A}.

Definition M (A : Type) : Type := State → Outcome A * State.

Definition ret {A} (a : A) : M A := fun st => (Ok a, st).

Definition throw {A} (message : string) : M A := fun st => (Throw message, st).

Definition out_of_fuel {A} : M A := fun st => (OutOfFuel, st).

Definition bind {A B} (m : M A) (k : A → M B) : M B :=
  fun st =>
    match m st with
    | (Ok a, st') => k a st'
    | (Throw e, st') => (Throw e, st')
    | (OutOfFuel, st') => (OutOfFuel, st')
    end.

Notation "x <- m ;; k" := (bind m (fun x => k))
  (at level 100, m at next level, right associativity).
Notation "m ;;; k" := (bind m (fun _ => k))
  (at level 100, right associativity).

(** [try { m } catch (error) { h error.message }] *)
Definition try_catch {A} (m : M A) (h : string → M A) : M A :=
  fun st =>
    match m st with
    | (Throw e, st') => h e st'
    | r => r
    end.

Definition get {A} (f : State → A) : M A := fun st => (Ok (f st), st).

Definition modify (f : State → State) : M unit := fun st => (Ok tt, f st).

Definition set_qdrant (q : gmap string Collection) (st : State) : State :=
  {| qdrant := q; n_calls := n_calls st; initialized := initialized st;
     vectorSize := vectorSize st; bm25Service := bm25Service st |}.

Definition set_calls (n : nat) (st : State) : State :=
  {| qdrant := qdrant st; n_calls := n; initialized := initialized st;
     vectorSize := vectorSize st; bm25Service := bm25Service st |}.

Definition set_initialized (b : bool) (st : State) : State :=
  {| qdrant := qdrant st; n_calls := n_calls st; initialized := b;
     vectorSize := vectorSize st; bm25Service := bm25Service st |}.

Definition set_vectorSize (n : Z) (st : State) : State :=
  {| qdrant := qdrant st; n_calls := n_calls st; initialized := initialized st;
     vectorSize := n; bm25Service := bm25Service st |}.

Definition set_bm25Service (d : list BM25Document) (st : State) : State :=
  {| qdrant := qdrant st; n_calls := n_calls st; initialized := initialized st;
     vectorSize := vectorSize st; bm25Service := d |}.

(* ===================================================================== *)
(** * [StreamingResponseBuilder] ([src/streamingResponseBuilder.ts]),
      the flat views *)
(* ===================================================================== *)

Record TokenBudget := {
  total : Z;
  used : Z;
  remaining : Z;
}.

Record ResponseMeta := {
  tokenCount : Z;
  tokenLimit : Z;
  truncated : bool;
  truncationReason : option string;
  sectionsIncluded : list string;
}.

Record StreamingGraphResponse := {
  response_content : KnowledgeGraph;
  meta : ResponseMeta;
}.

(** The [context] object of the builders, as far as the flat views read
    it. *)
Record BuildContext := {
  ctx_entities : list Entity;
  ctx_relations : list Relation;
  ctx_limit : Q;
  ctx_budget : TokenBudget;
}.

Section Streaming.

(** [tokenCounter.fitsInBudget] and
    [tokenCounter.estimateTokensWithFormatting] of [tokenCounter.ts], which
    is not among the sources. *)
Variable fitsInBudget : TokenBudget → KnowledgeGraph → bool.
Variable estimateTokensWithFormatting : KnowledgeGraph → Z.

(** [Math.floor(n * 0.8)] for a list length [n]: the double nearest to
    [0.8] exceeds it by less than [5e-17], so for every length below
    [2^52] the floor is that of the exact product, [4n/5]. *)
Definition floor80 (n : nat) : nat := (n * 4 / 5)%nat.

Definition isEmptyGraph (g : KnowledgeGraph) : bool :=
  match entities g, relations g with
  | [], [] => true
  | _, _ => false
  end.

(** The [while] of [fitContentToBudget]; [n] is the fuel. *)
Fixpoint fitLoop (n : nat) (budget : TokenBudget)
    (reducer : KnowledgeGraph → KnowledgeGraph) (current : KnowledgeGraph)
    (truncated : bool) : option (KnowledgeGraph * bool) :=
  match n with
  | O => None
  | S n' =>
      if isEmptyGraph current then Some (current, truncated)
      else if fitsInBudget budget current then Some (current, truncated)
      else
        let current' := reducer current in
        if isEmptyGraph current' then Some (current', true)
        else fitLoop n' budget reducer current' true
  end.

Definition fitContentToBudget (n : nat) (content : KnowledgeGraph)
    (budget : TokenBudget) (reducer : KnowledgeGraph → KnowledgeGraph)
  : option (KnowledgeGraph * bool) :=
  if fitsInBudget budget content then Some (content, false)
  else fitLoop n budget reducer content false.

Definition filterAndLimitEntities (entities : list Entity)
    (options : ScrollOptions) : list Entity :=
  let result :=
    match entityTypes options with
    | None | Some [] => entities
    | Some types => filter (fun e => JS.includes (entityType e) types) entities
    end in
  match limit options with
  | Some l => if Qeq_bool l 0 then result else JS.slice0 l result
  | None => result
  end.

Definition shrinkEntities (content : KnowledgeGraph) : KnowledgeGraph :=
  {| entities := take (floor80 (length (entities content))) (entities content);
     relations := relations content |}.

Definition shrinkRelations (content : KnowledgeGraph) : KnowledgeGraph :=
  {| entities := entities content;
     relations :=
       take (floor80 (length (relations content))) (relations content) |}.

Definition buildEntitiesStreamingResponse (n : nat) (context : BuildContext)
    (options : ScrollOptions) : option StreamingGraphResponse :=
  let filteredEntities := filterAndLimitEntities (ctx_entities context) options in
  result ← fitContentToBudget n
              {| entities := filteredEntities; relations := [] |}
              (ctx_budget context) shrinkEntities;
  Some {| response_content := result.1;
          meta := {| tokenCount := estimateTokensWithFormatting result.1;
                     tokenLimit := total (ctx_budget context);
                     truncated := result.2;
                     truncationReason :=
                       if result.2
                       then Some ("Reduced from "
                                  +:+ pretty (length filteredEntities)
                                  +:+ " to "
                                  +:+ pretty (length (entities result.1))
                                  +:+ " entities")
                       else None;
                     sectionsIncluded := ["entities"] |} |}.

Definition buildRelationshipsStreamingResponse (n : nat)
    (context : BuildContext) : option StreamingGraphResponse :=
  result ← fitContentToBudget n
              {| entities := []; relations := ctx_relations context |}
              (ctx_budget context) shrinkRelations;
  Some {| response_content := result.1;
          meta := {| tokenCount := estimateTokensWithFormatting result.1;
                     tokenLimit := total (ctx_budget context);
                     truncated := result.2;
                     truncationReason :=
                       if result.2
                       then Some ("Reduced from "
                                  +:+ pretty (length (ctx_relations context))
                                  +:+ " to "
                                  +:+ pretty (length (relations result.1))
                                  +:+ " relations")
                       else None;
                     sectionsIncluded := ["relations"] |} |}.

Definition buildRawStreamingResponse (context : BuildContext)
  : StreamingGraphResponse :=
  let rawResponse := {| entities := ctx_entities context;
                        relations := ctx_relations context |} in
  if fitsInBudget (ctx_budget context) rawResponse then
    {| response_content := rawResponse;
       meta := {| tokenCount := estimateTokensWithFormatting rawResponse;
                  tokenLimit := total (ctx_budget context);
                  truncated := false;
                  truncationReason := None;
                  sectionsIncluded := ["entities"; "relations"] |} |}
  else
    {| response_content := emptyGraph;
       meta := {| tokenCount := 0;
                  tokenLimit := total (ctx_budget context);
                  truncated := true;
                  truncationReason :=
                    Some "Raw response too large - use smart, entities, or relationships mode with limits";
                  sectionsIncluded := [] |} |}.

(** [buildStreamingResponse(entities, relations, options = {})]. The smart
    view is assembled section by section with further helpers of
    [tokenCounter.ts]; it is a parameter here. The builders of the flat
    views do not throw, so the [catch] of the source has nothing to
    catch. *)
Variable buildSmartStreamingResponse : BuildContext → StreamingGraphResponse.
Variable createBudget : Z → TokenBudget.
Variable DEFAULT_TOKEN_LIMIT : Z.

Definition buildStreamingResponse (n : nat) (entities : list Entity)
    (relations : list Relation) (options : ScrollOptions)
  : option StreamingGraphResponse :=
  let mode := default smart (mode options) in
  let limit := JS.or_num (limit options) 50 in
  let budget := createBudget DEFAULT_TOKEN_LIMIT in
  let context := {| ctx_entities := entities; ctx_relations := relations;
                    ctx_limit := limit; ctx_budget := budget |} in
  match mode with
  | smart => Some (buildSmartStreamingResponse context)
  | entities_mode => buildEntitiesStreamingResponse n context options
  | relationships => buildRelationshipsStreamingResponse n context
  | raw => Some (buildRawStreamingResponse context)
  end.

(** [result] is [content] shrunk by [reducer] until it fits the budget or is
    empty: it is reached after [k] steps, none of the graphs before it was
    empty or did fit, and it fits or is empty. *)
Definition shrunkToFit (budget : TokenBudget)
    (reducer : KnowledgeGraph → KnowledgeGraph)
    (content result : KnowledgeGraph) : Prop :=
  ∃ k,
    result = Nat.iter k reducer content
    ∧ (∀ j, (j < k)%nat →
         fitsInBudget budget (Nat.iter j reducer content) = false
         ∧ isEmptyGraph (Nat.iter j reducer content) = false)
    ∧ (fitsInBudget budget result = true ∨ isEmptyGraph result = true).

Definition graphSize (g : KnowledgeGraph) : nat :=
  (length (entities g) + length (relations g))%nat.

End Streaming.

(* ===================================================================== *)
(** * A small world to run the code in

    A store that evaluates filters exactly and pages its scrolls two points
    at a time, a digest, an embedding provider and a keyword score, all as
    simple as they can be. The properties below do not depend on them; they
    serve to run the code on concrete requests. *)
(* ===================================================================== *)

Module Scenario.

Definition COLLECTION_NAME : option string := Some "memory".

(** A stand-in for SHA-256: the length of the string and the sum of its
    character codes, in four bytes. *)
Definition byte_of (n : nat) : Byte.byte :=
  default Byte.x00 (Byte.of_N (N.of_nat (n mod 256))).

Definition code_sum (s : string) : nat :=
  foldr (fun c n => (nat_of_ascii c + n)%nat) 0%nat (list_ascii_of_string s).

Definition digest (s : string) : list Byte.byte :=
  [byte_of (String.length s); byte_of (code_sum s / 256);
   byte_of (code_sum s); byte_of (String.length s * 7)].

Definition no_fault (n : nat) (c : Call) : option string := None.

(** The store is down: every call to Qdrant fails. *)
Definition store_down (n : nat) (c : Call) : option string :=
  match c with
  | Embeddings _ _ _ => None
  | _ => Some "connect ECONNREFUSED"
  end.

Definition field (key : string) (p : Payload) : option string :=
  if bool_decide (key = "type") then Some (type p)
  else if bool_decide (key = "chunk_type") then Some (chunk_type p)
  else if bool_decide (key = "entity_name") then Some (entity_name p)
  else if bool_decide (key = "entity_type") then Some (entity_type p)
  else if bool_decide (key = "file_path") then file_path p
  else if bool_decide (key = "relation_target") then relation_target p
  else if bool_decide (key = "metadata.entity_type")
  then p_metadata p ≫= md_entity_type
  else None.

Fixpoint holds (p : Payload) (c : Condition) : bool :=
  match c with
  | MatchValue key value => bool_decide (field key p = Some value)
  | MatchAny key any =>
      match field key p with
      | Some v => JS.includes v any
      | None => false
      end
  | ShouldOf conds => existsb (holds p) conds
  end.

Definition matches (f : Filter) (point : Point) : bool :=
  match pt_payload point with
  | Some p =>
      forallb (holds p) (must f)
      && match should f with
         | [] => true
         | conds => existsb (holds p) conds
         end
  | None => false
  end.

Definition stored (c : Collection) : list Point :=
  map snd (map_to_list (c_points c)).

(** A search answers with the matching points, all at score 1/2, up to the
    limit. *)
Definition search_answer (c : Collection) (r : SearchRequest)
  : list ScoredPoint :=
  take (Z.to_nat (Qfloor (s_limit r)))
    (map (fun p => {| sp_id := pt_id p; sp_score := 0.5;
                      sp_payload := pt_payload p |})
       (filter (fun p => matches (default {| must := []; should := [] |}
                                    (s_filter r)) p = true)
          (stored c))).

(** A scroll answers with at most two matching points, and with the
    position of the next one as cursor while there is one. *)
Definition scroll_answer (c : Collection) (r : ScrollRequest) : ScrollResult :=
  let start :=
    match r_offset r with
    | Some (inl n) => Z.to_nat n
    | _ => 0%nat
    end in
  let rest :=
    drop start (filter (fun p => matches (r_filter r) p = true) (stored c)) in
  {| sc_points := take 2 rest;
     next_page_offset :=
       if (2 <? length rest)%nat then OffsetNumber (Z.of_nat (start + 2))
       else OffsetNull |}.

Definition embedding_answer (provider model text : string) : list Q :=
  [1%Q; 0%Q].

Definition clock (n : nat) : string := "2025-07-15T21:09:50.000Z".

Definition fuel : nat := 8.

(** A keyword score: 1 when the query occurs in the document, else 0. *)
Definition bm25_score (index : list BM25Document) (query : string)
    (d : BM25Document) : Q :=
  match String.index 0 query (doc_content d) with
  | Some _ => 1%Q
  | None => 0%Q
  end.

Definition chunk (kind n t text : string) (path : option string) : Payload :=
  {| type := "chunk"; chunk_type := kind; entity_name := n;
     entity_type := t; content := text; file_path := path;
     relation_target := None; relation_type := None; created_at := None;
     p_observations := None; p_id := None; p_name := None; p_from := None;
     p_to := None; p_relationType := None;
     p_metadata := Some {| md_entity_type := Some t; md_observations := None;
                           md_file_path := path;
                           md_has_implementation := None |};
     p_semantic_metadata := None; p_has_implementation := None |}.

Definition relationChunk (f t r : string) : Payload :=
  {| type := "chunk"; chunk_type := "relation"; entity_name := f;
     entity_type := "relation"; content := f +:+ " " +:+ r +:+ " " +:+ t;
     file_path := None; relation_target := Some t; relation_type := Some r;
     created_at := None; p_observations := None; p_id := None;
     p_name := None; p_from := None; p_to := None; p_relationType := None;
     p_metadata := None; p_semantic_metadata := None;
     p_has_implementation := None |}.

Definition point (id : Z) (p : Payload) : Point :=
  {| pt_id := id; pt_vector := [1%Q; 0%Q]; pt_payload := Some p |}.

Definition collectionOf (points : list Point) : Collection :=
  {| cfg_size := Some 2; cfg_dense_size := None;
     c_points := list_to_map (map (fun p => (pt_id p, p)) points) |}.

Definition stateOf (points : list Point) (index : list BM25Document) : State :=
  {| qdrant := {[ "memory" := collectionOf points ]};
     n_calls := 0;
     initialized := true;
     vectorSize := 2;
     bm25Service := index |}.

(** An empty collection. *)
Definition empty : State := stateOf [] [].

(** A small code base: [parse] calls [_scan] and [render] in [lib.py], with
    its entities and relations recorded. *)
Definition codebase : State :=
  stateOf
    [point 1 (chunk "metadata" "parse" "function" "parse the input" None);
     point 2 (chunk "metadata" "render" "function" "render the output" None);
     point 3 (chunk "metadata" "_scan" "function" "scan one token" None);
     point 4 (relationChunk "parse" "_scan" "calls");
     point 5 (relationChunk "parse" "render" "calls");
     point 6 (relationChunk "render" "parse" "imports");
     point 7 (chunk "implementation" "parse" "function"
                "def parse(s): return render(_scan(s))" (Some "lib.py"));
     point 8 (chunk "implementation" "_scan" "function"
                "def _scan(s): return s" (Some "lib.py"));
     point 9 (chunk "implementation" "render" "function"
                "def render(t): return t" (Some "lib.py"))]
    [].

(** A token counter for the graph views: one token per entity and per
    relation. *)
Definition estimateTokens (g : KnowledgeGraph) : Z :=
  Z.of_nat (length (entities g) + length (relations g)).

Definition fitsInBudget (budget : TokenBudget) (g : KnowledgeGraph) : bool :=
  estimateTokens g <=? remaining budget.

Definition budgetOf (n : Z) : TokenBudget :=
  {| total := n; used := 0; remaining := n |}.

(** A token counter that charges three tokens for the envelope of a graph,
    so that the empty graph has a size too. *)
Definition estimateTokensEnveloped (g : KnowledgeGraph) : Z :=
  3 + estimateTokens g.

Definition fitsInBudgetEnveloped (budget : TokenBudget) (g : KnowledgeGraph)
  : bool :=
  estimateTokensEnveloped g <=? remaining budget.

Definition entityNamed (n : string) : Entity :=
  {| name := n; entityType := "function"; observations := [] |}.


(** A server that has not connected yet, before a Qdrant without any
    collection. *)
Definition fresh : State :=
  {| qdrant := ∅; n_calls := 0; initialized := false; vectorSize := 1536;
     bm25Service := [] |}.


(** A count of the occurrences of each key, the keys in the order of their
    last occurrence. *)
Definition tally (keys : list string) : list (string * nat) :=
  map (fun k => (k, length (filter (k =.) keys))) (remove_dups keys).

End Scenario.

(** ** Requests and readings for the runs *)

Definition foo_does_X : Entity :=
  {| name := "foo"; entityType := "function"; observations := ["does X"] |}.

Definition foo_does_Y : Entity :=
  {| name := "foo"; entityType := "function"; observations := ["does Y"] |}.

Definition results_of {A} (x : Outcome (list A) * State) : list A :=
  match x.1 with Ok l => l | _ => [] end.

Definition names_of (l : list SearchResult) : list string :=
  map (fun r => entity_name (data r)) l.

Definition scores_of (l : list SearchResult) : list (string * Q) :=
  map (fun r => (entity_name (data r), Qred (score r))) l.

Definition three_entities : list Entity :=
  [Scenario.entityNamed "a"; Scenario.entityNamed "b"; Scenario.entityNamed "c"].

Definition view (m : GraphMode) : ScrollOptions :=
  {| mode := Some m; entityTypes := None; limit := None |}.

Definition graph_of (x : Outcome KnowledgeGraph * State) : KnowledgeGraph :=
  match x.1 with Ok g => g | _ => emptyGraph end.

Definition relationArg (f t r : string) : JS.value :=
  JS.Obj [("from", JS.Str f); ("to", JS.Str t); ("relationType", JS.Str r)].

Definition parse_uses_render : Relation :=
  {| from := "parse"; to := "render"; relationType := "uses" |}.

Definition parse_uses_ghost : Relation :=
  {| from := "parse"; to := "ghost"; relationType := "uses" |}.

Definition render_uses_parse : Relation :=
  {| from := "render"; to := "parse"; relationType := "uses" |}.

Definition scan_of (x : option (list ScrollResult * State))
  : list ScrollResult * State :=
  default ([], Scenario.empty) x.

Definition functions_view : ScrollOptions :=
  {| mode := Some entities_mode; entityTypes := Some ["function"; "metadata"];
     limit := None |}.

Definition entityArg (n t : string) (obs : list string) : JS.value :=
  JS.Obj [("name", JS.Str n); ("entityType", JS.Str t);
          ("observations", JS.Arr (map JS.Str obs))].

Definition foo_does_X_and_Y : Entity :=
  {| name := "foo"; entityType := "function";
     observations := ["does X"; "does Y"] |}.

(* ===================================================================== *)
(** * [QdrantPersistence] ([src/persistence/qdrant.ts]) *)
(* ===================================================================== *)

Section Program.

(** Configuration ([config.ts], [process.env]). *)
Variable COLLECTION_NAME : option string.
Variable EMBEDDING_PROVIDER : option string.
Variable EMBEDDING_MODEL : option string.
Variable VOYAGE_API_KEY : option string.

(** [crypto.createHash("sha256")]: the digest of a string, as bytes. *)
Variable sha256 : string → list Byte.byte.

(** The oracles of the external services: whether the [n]-th call fails
    (and with which message), what Qdrant answers to a search and to a
    scroll on a collection, what the embedding provider answers, and the
    time at the [n]-th call. *)
Variable fault : nat → Call → option string.
Variable search_answer : Collection → SearchRequest → list ScoredPoint.
Variable scroll_answer : Collection → ScrollRequest → ScrollResult.
Variable embedding_answer : string → string → string → list Q.
Variable clock : nat → string.

(** Fuel of the pagination loops. *)
Variable fuel : nat.

(** ** The client *)

Definition call {A} (c : Call) (answer : M A) : M A :=
  fun st =>
    let st' := set_calls (S (n_calls st)) st in
    match fault (n_calls st) c with
    | Some message => (Throw message, st')
    | None => answer st'
    end.

Definition on_collection {A} (collection : string) (k : Collection → M A)
  : M A :=
  fun st =>
    match qdrant st !! collection with
    | Some c => k c st
    | None =>
        (Throw ("Not found: Collection " +:+ collection +:+ " doesn't exist"),
         st)
    end.

Definition client_getCollections : M (gset string) :=
  call GetCollections (get (fun st => dom (qdrant st))).

Definition client_createCollection (collection : string) (size : Z) : M unit :=
  call (CreateCollection collection size)
    (fun st =>
       match qdrant st !! collection with
       | Some _ =>
           (Throw ("Collection " +:+ collection +:+ " already exists"), st)
       | None =>
           (Ok tt,
            set_qdrant
              (<[collection := {| cfg_size := Some size;
                                  cfg_dense_size := None;
                                  c_points := ∅ |}]> (qdrant st)) st)
       end).

Definition client_getCollection (collection : string) : M Collection :=
  call (GetCollection collection) (on_collection collection ret).

(** [upsert] writes the point under its id: a point with the same id is
    replaced. *)
Definition upsert_point (p : Point) (c : Collection) : Collection :=
  {| cfg_size := cfg_size c; cfg_dense_size := cfg_dense_size c;
     c_points := <[pt_id p := p]> (c_points c) |}.

Definition client_upsert (collection : string) (p : Point) : M unit :=
  call (Upsert collection p)
    (on_collection collection (fun c =>
       modify (fun st =>
         set_qdrant (<[collection := upsert_point p c]> (qdrant st)) st))).

Definition client_search (collection : string) (r : SearchRequest)
  : M (list ScoredPoint) :=
  call (Search collection r)
    (on_collection collection (fun c => ret (search_answer c r))).

Definition client_scroll (collection : string) (r : ScrollRequest)
  : M ScrollResult :=
  call (Scroll collection r)
    (on_collection collection (fun c => ret (scroll_answer c r))).

(** [if (!COLLECTION_NAME) throw ...] *)
Definition require_collection (where_ : string) : M string :=
  match COLLECTION_NAME with
  | Some c =>
      if bool_decide (c = "")
      then throw ("COLLECTION_NAME environment variable is required" +:+ where_)
      else ret c
  | None => throw ("COLLECTION_NAME environment variable is required" +:+ where_)
  end.

(** ** [connect]

    Three attempts; the delays between them are not modelled. *)
Fixpoint connect_attempts (retries : nat) : M unit :=
  match retries with
  | O => ret tt
  | S retries' =>
      try_catch
        (client_getCollections ;;; modify (set_initialized true))
        (fun message =>
           match retries' with
           | O => throw ("Failed to connect to Qdrant after multiple attempts: "
                         +:+ message)
           | S _ => connect_attempts retries'
           end)
  end.

Definition connect : M unit :=
  i <- get initialized ;;
  if i : bool then ret tt else connect_attempts 3.

(** ** [initialize] *)

Definition lower_ascii (c : ascii) : ascii :=
  let n := nat_of_ascii c in
  if (65 <=? n)%nat && (n <=? 90)%nat then ascii_of_nat (n + 32) else c.

Fixpoint toLowerCase (s : string) : string :=
  match s with
  | EmptyString => EmptyString
  | String c s' => String (lower_ascii c) (toLowerCase s')
  end.

Definition provider : option string := toLowerCase <$> EMBEDDING_PROVIDER.

Definition getDefaultVectorSize : Z :=
  if bool_decide (provider = Some "voyage") then 512 else 1536.

(** [updateEmbeddingModel] only records the size (and logs). *)
Definition updateEmbeddingModel (size : Z) : M unit :=
  modify (set_vectorSize size).

(** [vectorConfig?.size || vectorConfig?.dense?.size] *)
Definition currentVectorSize (c : Collection) : option Z :=
  match cfg_size c with
  | Some n => if n =? 0 then cfg_dense_size c else Some n
  | None => cfg_dense_size c
  end.

Definition initialize : M unit :=
  connect ;;;
  c <- require_collection "" ;;
  try_catch
    (collections <- client_getCollections ;;
     if bool_decide (c ∈ collections) then
       info <- client_getCollection c ;;
       match currentVectorSize info with
       | Some n => if n =? 0 then ret tt else updateEmbeddingModel n
       | None => ret tt
       end
     else
       client_createCollection c getDefaultVectorSize ;;;
       modify (set_vectorSize getDefaultVectorSize))
    (fun message =>
       throw ("Failed to initialize Qdrant collection. Please check server logs for details: "
              +:+ message)).

(** ** Embeddings *)

Definition generateOpenAIEmbedding (text : string) : M (list Q) :=
  let model := JS.or_default EMBEDDING_MODEL "text-embedding-3-small" in
  try_catch
    (call (Embeddings "openai" model text)
       (ret (embedding_answer "openai" model text)))
    (fun message =>
       throw ("Failed to generate embeddings with OpenAI: " +:+ message)).

Definition generateVoyageEmbedding (text : string) : M (list Q) :=
  try_catch
    (if JS.truthy VOYAGE_API_KEY then
       let model := JS.or_default EMBEDDING_MODEL "voyage-3-lite" in
       call (Embeddings "voyage" model text)
         (ret (embedding_answer "voyage" model text))
     else
       throw "VOYAGE_API_KEY environment variable is required for Voyage embeddings")
    (fun message =>
       throw ("Failed to generate embeddings with Voyage: " +:+ message)).

Definition generateEmbedding (text : string) : M (list Q) :=
  if bool_decide (provider = Some "voyage")
  then generateVoyageEmbedding text
  else generateOpenAIEmbedding text.

(** ** [hashString]: the first four bytes of the digest, big endian. *)

Definition readUInt32BE (buffer : list Byte.byte) : M Z :=
  match buffer with
  | b0 :: b1 :: b2 :: b3 :: _ =>
      ret (Z.lor (Z.shiftl (Z.of_N (Byte.to_N b0)) 24)
          (Z.lor (Z.shiftl (Z.of_N (Byte.to_N b1)) 16)
          (Z.lor (Z.shiftl (Z.of_N (Byte.to_N b2)) 8)
                 (Z.of_N (Byte.to_N b3)))))
  | _ => throw "RangeError [ERR_OUT_OF_RANGE]"
  end.

Definition hashString (str : string) : M Z := readUInt32BE (sha256 str).

(** ** [persistEntity] and [persistRelation] *)

Definition entityIdStr (entityName : string) : string :=
  "manual::" +:+ entityName +:+ "::metadata".

Definition entityPayload (entity : Entity) (now : string) : Payload :=
  {| type := "chunk";
     chunk_type := "metadata";
     entity_name := name entity;
     entity_type := entityType entity;
     content := JS.join ". " (observations entity);
     file_path := None;
     relation_target := None;
     relation_type := None;
     created_at := Some now;
     p_observations := Some (observations entity);
     p_id := None; p_name := None; p_from := None; p_to := None; p_relationType := None;
     p_metadata := None; p_semantic_metadata := None;
     p_has_implementation := None |}.

Definition persistEntity (entity : Entity) : M unit :=
  connect ;;;
  c <- require_collection "" ;;
  let text := name entity +:+ " (" +:+ entityType entity +:+ "): "
              +:+ JS.join ". " (observations entity) in
  vector <- generateEmbedding text ;;
  id <- hashString (entityIdStr (name entity)) ;;
  now <- get (fun st => clock (n_calls st)) ;;
  client_upsert c {| pt_id := id; pt_vector := vector;
                     pt_payload := Some (entityPayload entity now) |}.

Definition relationId (relation : Relation) : string :=
  from relation +:+ "-" +:+ relationType relation +:+ "-" +:+ to relation.

Definition relationIdStr (relation : Relation) : string :=
  "relation::" +:+ relationId relation +:+ "::relation".

Definition relationPayload (relation : Relation) (now : string) : Payload :=
  {| type := "chunk";
     chunk_type := "relation";
     entity_name := relationId relation;
     entity_type := "relation";
     content := from relation +:+ " " +:+ relationType relation +:+ " "
                +:+ to relation;
     file_path := None;
     relation_target := None;
     relation_type := Some (relationType relation);
     created_at := Some now;
     p_observations := None;
     p_id := None; p_name := None;
     p_from := Some (from relation);
     p_to := Some (to relation);
     p_relationType := None;
     p_metadata := None; p_semantic_metadata := None;
     p_has_implementation := None |}.

Definition persistRelation (relation : Relation) : M unit :=
  connect ;;;
  c <- require_collection "" ;;
  let text := from relation +:+ " " +:+ relationType relation +:+ " "
              +:+ to relation in
  vector <- generateEmbedding text ;;
  id <- hashString (relationIdStr relation) ;;
  now <- get (fun st => clock (n_calls st)) ;;
  client_upsert c {| pt_id := id; pt_vector := vector;
                     pt_payload := Some (relationPayload relation now) |}.


(** ** Search *)

Definition knownChunkTypes : list string := ["metadata"; "implementation"].

Definition buildEntityTypeFilter (entityTypes : option (list string))
  : option Filter :=
  match entityTypes with
  | None | Some [] => None
  | Some types =>
      let chunkTypes := filter (fun t => JS.includes t knownChunkTypes) types in
      let actualEntityTypes :=
        filter (fun t => negb (JS.includes t knownChunkTypes)) types in
      let filterConditions :=
        ((match actualEntityTypes with
          | [] => []
          | _ => [ShouldOf [MatchAny "entity_type" actualEntityTypes;
                            MatchAny "metadata.entity_type" actualEntityTypes]]
          end) ++
         (match chunkTypes with
          | [] => []
          | _ => [MatchAny "chunk_type" chunkTypes]
          end))%list in
      match filterConditions with
      | [] => None
      | [_] => Some {| must := filterConditions; should := [] |}
      | _ => Some {| must := []; should := filterConditions |}
      end
  end.

(** [entityBoosts[entityType] || 1.0] *)
Definition entityBoost (entityType : string) : Q :=
  if JS.includes entityType ["function"; "class"; "method"] then 1.3
  else if JS.includes entityType ["interface"; "type"] then 1.15
  else if JS.includes entityType ["const"; "variable"] then 1.1
  else if JS.includes entityType ["import"] then 1.05
  else 1.0.

Definition boostedScore (score : Q) (payload : Payload) : Q :=
  if bool_decide (chunk_type payload = "metadata") then (score * 1.4)%Q
  else if bool_decide (chunk_type payload = "implementation")
  then (score * 1.2)%Q
  else
    let entityType := payloadEntityType payload in
    if bool_decide (entityType = "") then score
    else (score * entityBoost entityType)%Q.

Definition processSearchResult (result : ScoredPoint) : option SearchResult :=
  match sp_payload result with
  | None => None
  | Some payload =>
      if bool_decide (chunk_type payload = "") then None
      else
        let entityName :=
          JS.or_default (JS.or (Some (entity_name payload)) (p_name payload))
            "unknown" in
        Some {| sr_type := "chunk";
                score := boostedScore (sp_score result) payload;
                data := with_entity_name entityName payload |}
  end.

Definition processSearchResults (results : list ScoredPoint)
  : list SearchResult :=
  sort_desc score (omap processSearchResult results).

(** [COLLECTION_NAME!]: the assertion is erased at run time. *)
Definition COLLECTION_NAME_asserted : string := default "" COLLECTION_NAME.

Definition performSemanticSearch (query : string)
    (entityTypes : option (list string)) (limit : Q)
  : M (list SearchResult) :=
  queryVector <- generateEmbedding query ;;
  let filter := buildEntityTypeFilter entityTypes in
  results <- client_search COLLECTION_NAME_asserted
               {| s_vector := queryVector; s_limit := limit;
                                s_with_payload := true; s_filter := filter |} ;;
  ret (processSearchResults results).

(** ** The keyword index *)

(** The scoring formula of the keyword index ([bm25/bm25Service.ts] is not
    among the sources): the score of a document for a query, within the
    indexed corpus. *)
Variable bm25_score : list BM25Document → string → BM25Document → Q.

Record BM25Result := {
  bm_document : BM25Document;
  bm_score : Q;
}.

(** Modelled from the spec: [BM25Service] of [bm25/bm25Service.ts], which is
    not among the sources. The index holds the documents given to it;
    [clearDocuments] empties it, [updateDocuments] indexes a corpus, and
    [search] ranks the indexed documents that pass the type filter and match
    the query (positive score), best first, up to [limit]. *)
Definition bm25_clearDocuments : M unit := modify (set_bm25Service []).

Definition bm25_updateDocuments (documents : list BM25Document) : M unit :=
  modify (set_bm25Service documents).

Definition bm25_passes (entityTypes : option (list string))
    (d : BM25Document) : bool :=
  match entityTypes with
  | None | Some [] => true
  | Some types => JS.includes (doc_entityType d) types
  end.

Definition bm25_search (index : list BM25Document) (query : string)
    (limit : Q) (entityTypes : option (list string)) : list BM25Result :=
  let scored :=
    map (fun d => {| bm_document := d; bm_score := bm25_score index query d |})
      (filter (fun d => bm25_passes entityTypes d = true) index) in
  JS.slice0 limit
    (sort_desc bm_score
       (filter (fun r => negb (Qle_bool (bm_score r) 0)) scored)).

(** Modelled from the spec: [BM25Service.convertToSearchResult]. The result
    carries the chunk the document was built from, under the document's
    score. *)
Definition convertToSearchResult (result : BM25Result) (collection : string)
  : SearchResult :=
  {| sr_type := "chunk";
     score := bm_score result;
     data := doc_chunk (bm_document result) |}.

(** The page loop shared by the full scans: [offset] is kept only when it
    is a string or a number. *)
Definition usable_offset (o : PageOffset) : option (Z + string) :=
  match o with
  | OffsetNumber n => Some (inl n)
  | OffsetString s => Some (inr s)
  | _ => None
  end.

Definition metadataFilter : Filter :=
  {| must := [MatchValue "type" "chunk"; MatchValue "chunk_type" "metadata"];
     should := [] |}.

Fixpoint scrollMetadataChunks (n : nat) (c : string)
    (offset : option (Z + string)) (metadataChunks : list Payload)
  : M (list Payload) :=
  match n with
  | O => out_of_fuel
  | S n' =>
      scrollResult <- client_scroll c {| r_limit := 100; r_offset := offset;
                                         r_filter := metadataFilter |} ;;
      let metadataChunks' :=
        (metadataChunks ++ omap pt_payload (sc_points scrollResult))%list in
      match usable_offset (next_page_offset scrollResult) with
      | Some offset' => scrollMetadataChunks n' c (Some offset') metadataChunks'
      | None => ret metadataChunks'
      end
  end.

(** The document of a metadata chunk. The chunk's own fields are spread
    last, so they win over the computed ones of the same name ([id],
    [content], [observations], [file_path], [has_implementation]). *)
Definition bm25Document (chunk : Payload) : BM25Document :=
  {| doc_id :=
       match p_id chunk with
       | Some id => Some id
       | None => JS.or (Some (entity_name chunk)) (p_id chunk)
       end;
     doc_content := content chunk;
     doc_entityType :=
       JS.or_default (JS.or (p_metadata chunk ≫= md_entity_type)
                        (Some (entity_type chunk))) "unknown";
     doc_observations :=
       JS.or_nil (JS.or_list (p_observations chunk)
                    (p_metadata chunk ≫= md_observations));
     doc_file_path :=
       match file_path chunk with
       | Some f => Some f
       | None => p_metadata chunk ≫= md_file_path
       end;
     doc_has_implementation :=
       match p_has_implementation chunk with
       | Some b => b
       | None => default false (p_metadata chunk ≫= md_has_implementation)
       end;
     doc_chunk := chunk |}.

Definition initializeBM25Index : M unit :=
  bm25_clearDocuments ;;;
  try_catch
    (connect ;;;
     c <- require_collection "" ;;
     metadataChunks <- scrollMetadataChunks fuel c None [] ;;
     bm25_updateDocuments (map bm25Document metadataChunks))
    (fun _ => ret tt).

Definition performKeywordSearch (query : string)
    (entityTypes : option (list string)) (limit : Q)
  : M (list SearchResult) :=
  connect ;;;
  require_collection "" ;;;
  initializeBM25Index ;;;
  index <- get bm25Service ;;
  let bm25Results := bm25_search index query limit entityTypes in
  ret (map (fun result =>
              convertToSearchResult result COLLECTION_NAME_asserted)
         bm25Results).

(** ** Hybrid search *)

(** First occurrences, in order: the keys of a JavaScript [Map] or [Set]
    filled from a list. *)
Fixpoint first_seen {K} `{EqDecision K} (seen l : list K) : list K :=
  match l with
  | [] => []
  | x :: l' =>
      if bool_decide (x ∈ seen) then first_seen seen l'
      else x :: first_seen (x :: seen) l'
  end.

(** The 1-based position of [doc] in a ranked list. *)
Fixpoint rank_from {K} `{EqDecision K} (i : nat) (doc : K) (l : list K)
  : option nat :=
  match l with
  | [] => None
  | x :: l' => if bool_decide (x = doc) then Some i else rank_from (S i) doc l'
  end.

Definition rank {K} `{EqDecision K} (doc : K) (l : list K) : option nat :=
  rank_from 1 doc l.

Definition rrf_term (weight K : Q) (r : option nat) : Q :=
  match r with
  | Some i => (weight / (K + inject_Z (Z.of_nat i)))%Q
  | None => 0%Q
  end.

(** The document a result stands for: the entity name of a semantic
    result, the document id of a keyword result. *)
Definition semanticDoc (r : SearchResult) : option string :=
  Some (entity_name (data r)).

Definition keywordDoc (r : BM25Result) : option string :=
  doc_id (bm_document r).

Definition fused_score (semanticDocs keywordDocs : list (option string))
    (semanticWeight keywordWeight K : Q) (doc : option string) : Q :=
  (rrf_term semanticWeight K (rank doc semanticDocs)
   + rrf_term keywordWeight K (rank doc keywordDocs))%Q.

(** Modelled from the spec: [HybridSearchFusion.fuseResults] of
    [bm25/bm25Service.ts], which is not among the sources. Reciprocal Rank
    Fusion: every document of either list gets the sum of
    [weight / (K + rank)] over the lists that contain it; the documents are
    taken in the order they are first met (semantic list first) and sorted
    by descending fused score, equal scores keeping that order. A fused
    result carries the chunk of its semantic result when there is one, else
    that of its keyword result. *)
Definition fusedData (semanticResults : list SearchResult)
    (keywordResults : list BM25Result) (doc : option string)
  : option Payload :=
  match List.find (fun r => bool_decide (semanticDoc r = doc)) semanticResults with
  | Some r => Some (data r)
  | None =>
      match List.find (fun r => bool_decide (keywordDoc r = doc)) keywordResults with
      | Some r => Some (doc_chunk (bm_document r))
      | None => None
      end
  end.

Definition fuseResults (semanticResults : list SearchResult)
    (keywordResults : list BM25Result) (collection : string)
    (semanticWeight keywordWeight K : Q) : list SearchResult :=
  let semanticDocs := map semanticDoc semanticResults in
  let keywordDocs := map keywordDoc keywordResults in
  let docs := first_seen [] (semanticDocs ++ keywordDocs)%list in
  sort_desc score
    (omap (fun doc =>
             payload ← fusedData semanticResults keywordResults doc;
             Some {| sr_type := "chunk";
                     score := fused_score semanticDocs keywordDocs
                                semanticWeight keywordWeight K doc;
                     data := payload |})
       docs).

(** [Promise.all] of the semantic search and of a search of the keyword
    index as it stands: the index is read, not rebuilt. *)
Definition performHybridSearch (query : string)
    (entityTypes : option (list string)) (limit : Q)
  : M (list SearchResult) :=
  semanticResults <- performSemanticSearch query entityTypes limit ;;
  index <- get bm25Service ;;
  let keywordResults := bm25_search index query limit entityTypes in
  let hybridResults :=
    fuseResults semanticResults keywordResults COLLECTION_NAME_asserted
      0.7 0.3 60 in
  ret (JS.slice0 limit hybridResults).

(** [searchSimilar(query, entityTypes, limit = 20, searchMode = 'semantic')] *)
Definition searchSimilar (query : string) (entityTypes : option (list string))
    (limit : option Q) (searchMode : option SearchMode)
  : M (list SearchResult) :=
  let limit := default 20%Q limit in
  let searchMode := default semantic searchMode in
  connect ;;;
  require_collection "" ;;;
  try_catch
    (match searchMode with
     | semantic => performSemanticSearch query entityTypes limit
     | keyword => performKeywordSearch query entityTypes limit
     | hybrid => performHybridSearch query entityTypes limit
     end)
    (fun _ => ret []).

(** ** Implementation chunks and scope expansion *)

Definition zeroVector : M (list Q) :=
  get (fun st => replicate (Z.to_nat (vectorSize st)) 0%Q).

Definition implementationResult (result : ScoredPoint) : option SearchResult :=
  payload ← sp_payload result;
  Some {| sr_type := "chunk"; score := sp_score result;
          data := with_has_implementation false payload |}.

Definition getEntityImplementation (entityName : string)
  : M (list SearchResult) :=
  try_catch
    (vector <- zeroVector ;;
     results <- client_search COLLECTION_NAME_asserted
                  {| s_vector := vector; s_limit := 50; s_with_payload := true;
                     s_filter := Some
                       {| must := [MatchValue "entity_name" entityName;
                                   MatchValue "chunk_type" "implementation"];
                          should := [] |} |} ;;
     ret (omap (fun result =>
                  r ← implementationResult result;
                  if bool_decide (chunk_type (data r) = "implementation")
                  then Some r else None)
            results))
    (fun _ => ret []).

(** [SemanticMetadata], the three fields the expansion reads. *)
Record SemanticMetadata := {
  calls : list string;
  imports_used : list string;
  sm_file_path : option string;
}.

(** [\w] and [\s] on the characters of a byte string. *)
Definition is_word (c : ascii) : bool :=
  let n := nat_of_ascii c in
  ((48 <=? n) && (n <=? 57) || (65 <=? n) && (n <=? 90)
   || (97 <=? n) && (n <=? 122) || (n =? 95))%nat.

Definition is_space (c : ascii) : bool :=
  let n := nat_of_ascii c in
  ((9 <=? n) && (n <=? 13) || (n =? 32))%nat.

(** The matches of [/(\w+)\s*\(/g], each with its [\s*\(] tail removed.
    A match cannot start inside a word that was given up, so one pass
    suffices: [word] is the word read so far, [spaced] tells that white
    space followed it. *)
Fixpoint scanCalls (word : list ascii) (spaced : bool) (s : list ascii)
  : list string :=
  match s with
  | [] => []
  | c :: s' =>
      if is_word c then
        scanCalls (if spaced then [c] else (word ++ [c])%list) false s'
      else if is_space c then
        scanCalls word (match word with [] => false | _ => true end) s'
      else if bool_decide (c = "("%char) then
        match word with
        | [] => scanCalls [] false s'
        | _ => string_of_list_ascii word :: scanCalls [] false s'
        end
      else scanCalls [] false s'
  end.

Definition extractCalls (content : string) : list string :=
  take 10
    (filter (fun call => (1 <? String.length call)%nat)
       (scanCalls [] false (list_ascii_of_string content))).

Fixpoint span_of (p : ascii → bool) (s : list ascii) : list ascii :=
  match s with
  | c :: s' => if p c then c :: span_of p s' else []
  | [] => []
  end.

Definition strip_prefix (p : string) (s : list ascii) : option (list ascii) :=
  let p' := list_ascii_of_string p in
  if bool_decide (take (length p') s = p') then Some (drop (length p') s)
  else None.

(** A match of [/(?:import|from)\s+(\w+)/] at the head of [s]: the word
    and the length of the match. *)
Definition matchImport (s : list ascii) : option (string * nat) :=
  let after kw :=
    rest ← strip_prefix kw s;
    let spaces := span_of is_space rest in
    let word := span_of is_word (drop (length spaces) rest) in
    match spaces, word with
    | _ :: _, _ :: _ =>
        Some (string_of_list_ascii word,
              (String.length kw + length spaces + length word)%nat)
    | _, _ => None
    end in
  match after "import" with
  | Some m => Some m
  | None => after "from"
  end.

Fixpoint scanImports (skip : nat) (s : list ascii) : list string :=
  match s with
  | [] => []
  | _ :: s' =>
      match skip with
      | S skip' => scanImports skip' s'
      | O =>
          match matchImport s with
          | Some (word, len) => word :: scanImports (len - 1) s'
          | None => scanImports 0 s'
          end
      end
  end.

Definition extractImports (content : string) : list string :=
  take 10 (scanImports 0 (list_ascii_of_string content)).

Definition extractSemanticMetadata (baseResults : list SearchResult)
  : SemanticMetadata :=
  match baseResults with
  | [] => {| calls := []; imports_used := []; sm_file_path := None |}
  | firstResult :: _ =>
      let filePath := p_metadata (data firstResult) ≫= md_file_path in
      match p_semantic_metadata (data firstResult) with
      | Some structuredMetadata =>
          {| calls := JS.or_nil (sm_calls structuredMetadata);
             imports_used := JS.or_nil (sm_imports_used structuredMetadata);
             sm_file_path := filePath |}
      | None =>
          let content := content (data firstResult) in
          {| calls := extractCalls content;
             imports_used := extractImports content;
             sm_file_path := filePath |}
      end
  end.

(** [result.data.entity_name || 'unknown'] *)
Definition resultKey (result : SearchResult) : string :=
  JS.or_default (Some (entity_name (data result))) "unknown".

Definition mergeStep (entityMap : gmap string SearchResult)
    (result : SearchResult) : gmap string SearchResult :=
  match entityMap !! resultKey result with
  | Some existing =>
      if Qlt_le_dec (score existing) (score result)
      then <[resultKey result := result]> entityMap
      else entityMap
  | None => <[resultKey result := result]> entityMap
  end.

Definition mergeAndDeduplicate (results : list SearchResult)
  : list SearchResult :=
  let entityMap := fold_left mergeStep results ∅ in
  omap (fun key => entityMap !! key) (first_seen [] (map resultKey results)).

Definition expansionResult (result : ScoredPoint) : option SearchResult :=
  implementationResult result.

Definition expandLogicalScope (baseResults : list SearchResult)
    (metadata : SemanticMetadata) (limit : option Q)
  : M (list SearchResult) :=
  if negb (JS.truthy (sm_file_path metadata)) then ret baseResults
  else
    try_catch
      (let searchCriteria :=
         match calls metadata with
         | [] => []
         | _ => [MatchAny "entity_name" (calls metadata)]
         end in
       vector <- zeroVector ;;
       helperResults <-
         client_search COLLECTION_NAME_asserted
           {| s_vector := vector; s_limit := JS.or_num limit 12;
              s_with_payload := true;
              s_filter := Some
                {| must := [MatchValue "file_path"
                              (default "" (sm_file_path metadata));
                            MatchValue "chunk_type" "implementation"];
                   should := searchCriteria |} |} ;;
       let additionalResults :=
         omap (fun result =>
                 payload ← sp_payload result;
                 let entityName := entity_name payload in
                 let isCalled := JS.includes entityName (calls metadata) in
                 let isPrivateHelper := JS.startsWith "_" entityName in
                 if isCalled || isPrivateHelper
                 then expansionResult result else None)
           helperResults in
       ret (mergeAndDeduplicate (baseResults ++ additionalResults)%list))
      (fun _ => ret baseResults).

Definition expandDependencyScope (baseResults : list SearchResult)
    (metadata : SemanticMetadata) (limit : option Q)
  : M (list SearchResult) :=
  let imports := imports_used metadata in
  let calls := calls metadata in
  match imports, calls with
  | [], [] => ret baseResults
  | _, _ =>
      try_catch
        (vector <- zeroVector ;;
         dependencyResults <-
           client_search COLLECTION_NAME_asserted
             {| s_vector := vector; s_limit := JS.or_num limit 40;
                s_with_payload := true;
                s_filter := Some
                  {| must := [MatchValue "chunk_type" "implementation"];
                     should := [MatchAny "entity_name" imports;
                                MatchAny "entity_name" calls] |} |} ;;
         let additionalResults := omap expansionResult dependencyResults in
         ret (mergeAndDeduplicate (baseResults ++ additionalResults)%list))
        (fun _ => ret baseResults)
  end.

(** [getImplementationChunks(entityName, scope = 'minimal', limit?)] *)
Definition getImplementationChunks (entityName : string)
    (scope : option Scope) (limit : option Q) : M (list SearchResult) :=
  let scope := default minimal scope in
  connect ;;;
  require_collection "" ;;;
  baseResults <- getEntityImplementation entityName ;;
  match scope with
  | minimal => ret baseResults
  | logical =>
      expandLogicalScope baseResults (extractSemanticMetadata baseResults) limit
  | dependencies =>
      expandDependencyScope baseResults (extractSemanticMetadata baseResults)
        limit
  end.

(** ** Full scans *)

Definition isMetadataChunk (payload : Payload) : bool :=
  bool_decide (type payload = "chunk")
  && bool_decide (chunk_type payload = "metadata").

(** [payload.observations || payload.metadata?.observations || []] *)
Definition payloadObservations (payload : Payload) : list string :=
  JS.or_nil (JS.or_list (p_observations payload)
               (p_metadata payload ≫= md_observations)).

Definition fetchEntitiesByNames (names : list string) (limit : option Q)
  : M (list Entity) :=
  let tokenAwareLimit :=
    JS.or_num limit (inject_Z (Z.min (Z.of_nat (length names)) 400)) in
  vector <- zeroVector ;;
  results <- client_search COLLECTION_NAME_asserted
               {| s_vector := vector; s_limit := tokenAwareLimit;
                  s_with_payload := true;
                  s_filter := Some
                    {| must := [MatchValue "chunk_type" "metadata"];
                       should := map (MatchValue "entity_name") names |} |} ;;
  ret (omap (fun result =>
               payload ← sp_payload result;
               if isMetadataChunk payload
               then Some {| name := entity_name payload;
                            entityType := payloadEntityType payload;
                            observations := payloadObservations payload |}
               else None)
         results).

(** [entityTypes.filter(type => !knownChunkTypes.includes(type))] *)
Definition actualEntityTypes (entityTypes : option (list string))
  : list string :=
  filter (fun t => negb (JS.includes t knownChunkTypes)) (JS.or_nil entityTypes).

Definition filterRelationsByEntityTypes (relations : list Relation)
    (allEntities : list Entity) (entityTypes : option (list string))
  : list Relation :=
  match actualEntityTypes entityTypes with
  | [] => relations
  | actual =>
      let entityTypeMap : gmap string string :=
        fold_left (fun m entity => <[name entity := entityType entity]> m)
          allEntities ∅ in
      let typeIncluded (n : string) :=
        match entityTypeMap !! n with
        | Some t => JS.includes t actual
        | None => false
        end in
      filter (fun relation =>
                typeIncluded (from relation) || typeIncluded (to relation))
        relations
  end.

Definition filterRelationsForEntities (relations : list Relation)
    (entities : list Entity) : list Relation :=
  let entityNames := map name entities in
  filter (fun relation =>
            JS.includes (from relation) entityNames
            || JS.includes (to relation) entityNames)
    relations.

(** The accumulators of [_getRawData]. *)
Record RawData := {
  raw_entities : list Entity;
  raw_relations : list Relation;
  raw_allEntities : list Entity;
  entityCount : Z;
}.

Definition rawMetadataChunk (maxEntities : Q)
    (entityTypes : option (list string)) (payload : Payload) (acc : RawData)
  : RawData :=
  if Qlt_le_dec (inject_Z (entityCount acc)) maxEntities then
    let passesFilter :=
      match actualEntityTypes entityTypes with
      | [] => true
      | actual => JS.includes (payloadEntityType payload) actual
      end in
    let entityName :=
      JS.or_default (JS.or (Some (entity_name payload)) (p_name payload))
        "unknown" in
    let entity := {| name := entityName;
                     entityType := payloadEntityType payload;
                     observations := payloadObservations payload |} in
    {| raw_entities :=
         if passesFilter then (raw_entities acc ++ [entity])%list
         else raw_entities acc;
       raw_relations := raw_relations acc;
       raw_allEntities := (raw_allEntities acc ++ [entity])%list;
       entityCount :=
         if passesFilter then entityCount acc + 1 else entityCount acc |}
  else acc.

Definition rawRelationChunk (payload : Payload) (acc : RawData) : RawData :=
  let from := JS.or (Some (entity_name payload)) (p_from payload) in
  let to := JS.or (relation_target payload) (p_to payload) in
  let relationType := JS.or (relation_type payload) (p_relationType payload) in
  if JS.truthy from && JS.truthy to && JS.truthy relationType then
    {| raw_entities := raw_entities acc;
       raw_relations :=
         (raw_relations acc ++
          [{| from := default "" from; to := default "" to;
              relationType := default "" relationType |}])%list;
       raw_allEntities := raw_allEntities acc;
       entityCount := entityCount acc |}
  else acc.

Definition rawPoint (maxEntities : Q) (entityTypes : option (list string))
    (acc : RawData) (point : Point) : RawData :=
  match pt_payload point with
  | None => acc
  | Some payload =>
      if bool_decide (type payload = "chunk") then
        if bool_decide (chunk_type payload = "metadata")
        then rawMetadataChunk maxEntities entityTypes payload acc
        else if bool_decide (chunk_type payload = "relation")
        then rawRelationChunk payload acc
        else acc
      else acc
  end.

Definition rawFilter : Filter :=
  {| must := [MatchValue "type" "chunk"]; should := [] |}.

(** The [do ... while] of [_getRawData]. [offset] is a string, a number or
    [undefined], never [null], so the [break] guarded by [offset === null]
    is never taken: the loop ends when the store gives no usable
    [next_page_offset]. *)
Fixpoint rawDataLoop (n : nat) (maxEntities : Q)
    (entityTypes : option (list string)) (offset : option (Z + string))
    (acc : RawData) : M RawData :=
  match n with
  | O => out_of_fuel
  | S n' =>
      scrollResult <- client_scroll COLLECTION_NAME_asserted
                        {| r_limit := 100; r_offset := offset;
                           r_filter := rawFilter |} ;;
      let acc' :=
        fold_left (rawPoint maxEntities entityTypes) (sc_points scrollResult)
          acc in
      match usable_offset (next_page_offset scrollResult) with
      | Some offset' => rawDataLoop n' maxEntities entityTypes (Some offset') acc'
      | None => ret acc'
      end
  end.

Definition emptyRawData : RawData :=
  {| raw_entities := []; raw_relations := []; raw_allEntities := [];
     entityCount := 0 |}.

Definition _getRawData (limit : option Q) (entityTypes : option (list string))
  : M KnowledgeGraph :=
  let maxEntities := JS.or_num limit (inject_Z JS.MAX_SAFE_INTEGER) in
  acc <- rawDataLoop fuel maxEntities entityTypes None emptyRawData ;;
  let filteredRelations :=
    filterRelationsByEntityTypes (raw_relations acc) (raw_allEntities acc)
      entityTypes in
  ret {| entities := raw_entities acc; relations := filteredRelations |}.

(** [scrollAll(options?)] *)
Definition scrollAll (options : option ScrollOptions) : M KnowledgeGraph :=
  initialize ;;;
  require_collection "" ;;;
  let mode := default smart (options ≫= mode) in
  let entityTypeFilter := options ≫= entityTypes in
  let limitPerType := JS.or_num (options ≫= limit) 10000 in
  rawData <- _getRawData (Some limitPerType) entityTypeFilter ;;
  let filteredEntities := entities rawData in
  let filteredRelations :=
    match entityTypeFilter with
    | None | Some [] => relations rawData
    | Some _ => filterRelationsForEntities (relations rawData) filteredEntities
    end in
  match mode with
  | relationships =>
      let relationEntityNames :=
        first_seen []
          (flat_map (fun rel => [from rel; to rel]) filteredRelations) in
      matchedEntities <-
        fetchEntitiesByNames relationEntityNames (Some limitPerType) ;;
      let matchedEntityNames := map name matchedEntities in
      let matchedRelations :=
        filter (fun rel =>
                  JS.includes (from rel) matchedEntityNames
                  && JS.includes (to rel) matchedEntityNames)
          filteredRelations in
      ret {| entities := matchedEntities; relations := matchedRelations |}
  | _ =>
      ret {| entities := filteredEntities; relations := filteredRelations |}
  end.

(* ===================================================================== *)
(** * [KnowledgeGraphManager] and the tool handlers ([src/index.ts]) *)
(* ===================================================================== *)

Definition addEntities (entities : list Entity) : M unit :=
  fold_right (fun entity rest => persistEntity entity ;;; rest) (ret tt)
    entities.

Definition getGraph (options : option ScrollOptions) : M KnowledgeGraph :=
  try_catch (scrollAll options) (fun _ => ret emptyGraph).

Definition getRawGraph (limit : option Q) (entityTypes : option (list string))
  : M KnowledgeGraph :=
  try_catch
    (scrollAll (Some {| mode := Some raw; entityTypes := entityTypes;
                        limit := limit |}))
    (fun _ => ret emptyGraph).

Definition entityExists (currentGraph : KnowledgeGraph) (n : string) : bool :=
  existsb (fun e => bool_decide (name e = n)) (entities currentGraph).

Fixpoint addRelationsLoop (currentGraph : KnowledgeGraph)
    (relations : list Relation) : M unit :=
  match relations with
  | [] => ret tt
  | relation :: rest =>
      if negb (entityExists currentGraph (from relation))
      then throw ("Entity not found: " +:+ from relation)
      else if negb (entityExists currentGraph (to relation))
      then throw ("Entity not found: " +:+ to relation)
      else persistRelation relation ;;; addRelationsLoop currentGraph rest
  end.

Definition addRelations (relations : list Relation) : M unit :=
  currentGraph <- getRawGraph (Some (inject_Z JS.MAX_SAFE_INTEGER)) None ;;
  addRelationsLoop currentGraph relations.

(** [searchSimilar(query, entityTypes, limit = 50)] of the manager: the
    search mode is not a parameter and none is passed on. *)
Definition validLimit (limit : option Q) : Q :=
  Qmax 1 (Qmin (default 50%Q limit) 100).

Definition manager_searchSimilar (query : string)
    (entityTypes : option (list string)) (limit : option Q)
  : M (list SearchResult) :=
  searchSimilar query entityTypes (Some (validLimit limit)) None.

Definition getImplementation (entityName : string) (scope : option Scope)
  : M (list SearchResult) :=
  getImplementationChunks entityName scope None.

(** ** Request validation ([src/validation.ts]) *)

Record SearchSimilarRequest := {
  query : string;
  q_limit : option Q;
  q_entityTypes : option (list string);
  searchMode : option SearchMode;
}.

Definition lift {A} (o : Outcome A) : M A := fun st => (o, st).

Definition parseSearchMode (s : string) : option SearchMode :=
  if bool_decide (s = "semantic") then Some semantic
  else if bool_decide (s = "keyword") then Some keyword
  else if bool_decide (s = "hybrid") then Some hybrid
  else None.

(** The arguments of a tool call are an object: a finite map from property
    names to values. *)
Definition validateSearchSimilarRequest (args : gmap string JS.value)
  : Outcome SearchSimilarRequest :=
  let arg k := default JS.Undefined (args !! k) in
  match arg "query" with
  | JS.Str query =>
      let limit :=
        match arg "limit" with
        | JS.Undefined => Ok None
        | JS.Num l => if Qle_bool l 0 then Throw "Invalid limit value"
                      else Ok (Some l)
        | _ => Throw "Invalid limit value"
        end in
      let entityTypes :=
        match arg "entityTypes" with
        | JS.Undefined => Ok None
        | JS.Arr l => if forallb JS.is_string l then Ok (Some (JS.as_strings l))
                      else Throw "entityTypes must be array of strings"
        | _ => Throw "entityTypes must be array of strings"
        end in
      let searchMode :=
        match arg "searchMode" with
        | JS.Undefined => Ok None
        | JS.Str s =>
            match parseSearchMode s with
            | Some m => Ok (Some m)
            | None => Throw "searchMode must be one of: semantic, keyword, hybrid"
            end
        | _ => Throw "searchMode must be one of: semantic, keyword, hybrid"
        end in
      match limit, entityTypes, searchMode with
      | Ok limit, Ok entityTypes, Ok searchMode =>
          Ok {| query := query; q_limit := limit;
                q_entityTypes := entityTypes; searchMode := searchMode |}
      | Ok _, Ok _, other => Throw (match other with Throw e => e | _ => "" end)
      | Ok _, other, _ => Throw (match other with Throw e => e | _ => "" end)
      | other, _, _ => Throw (match other with Throw e => e | _ => "" end)
      end
  | _ => Throw "Missing or invalid query string"
  end.

Definition isRelation (v : JS.value) : option Relation :=
  match JS.prop "from" v, JS.prop "to" v, JS.prop "relationType" v with
  | JS.Str f, JS.Str t, JS.Str r =>
      Some {| from := f; to := t; relationType := r |}
  | _, _, _ => None
  end.

Definition validateCreateRelationsRequest (args : gmap string JS.value)
  : Outcome (list Relation) :=
  match default JS.Undefined (args !! "relations") with
  | JS.Arr l =>
      match mapM isRelation l with
      | Some relations => Ok relations
      | None => Throw "Invalid relations array"
      end
  | _ => Throw "Invalid relations array"
  end.

(** ** The tool handlers

    A handler answers with the JSON text of its result; the model keeps the
    result. Every error is rethrown as an [McpError] that carries the
    message. *)
Definition handle_search_similar (args : gmap string JS.value)
  : M (list SearchResult) :=
  try_catch
    (args <- lift (validateSearchSimilarRequest args) ;;
     manager_searchSimilar (query args) (q_entityTypes args) (q_limit args))
    throw.

Definition handle_create_relations (args : gmap string JS.value) : M unit :=
  try_catch
    (relations <- lift (validateCreateRelationsRequest args) ;;
     addRelations relations)
    throw.


(** ** More of the request validation ([src/validation.ts]) *)

(** [typeof value === 'object' && value !== null]: arrays are objects. *)
Definition isRecord (value : JS.value) : bool :=
  match value with
  | JS.Arr _ | JS.Obj _ => true
  | _ => false
  end.

Definition isStringArray (value : JS.value) : bool :=
  match value with
  | JS.Arr l => forallb JS.is_string l
  | _ => false
  end.

Definition isEntity (value : JS.value) : bool :=
  if isRecord value then
    let entityType :=
      JS.or_value (JS.prop "entityType" value) (JS.prop "entity_type" value) in
    let nameOk := JS.is_string (JS.prop "name" value) in
    let typeOk := JS.is_string entityType in
    let obsOk := isStringArray (JS.prop "observations" value) in
    nameOk && typeOk && obsOk
  else false.

(** The [for] loop of [validateCreateEntitiesRequest]: the index of the
    first element that is not an entity. *)
Fixpoint firstInvalidEntity (i : nat) (entities : list JS.value) : option nat :=
  match entities with
  | [] => None
  | entity :: rest =>
      if isEntity entity then firstInvalidEntity (S i) rest else Some i
  end.

(** The request is returned as it came: the entities stay values. *)
Definition validateCreateEntitiesRequest (args : gmap string JS.value)
  : Outcome (list JS.value) :=
  match default JS.Undefined (args !! "entities") with
  | JS.Arr entities =>
      match firstInvalidEntity 0 entities with
      | Some i => Throw ("Invalid entity at index " +:+ pretty i)
      | None => Ok entities
      end
  | _ => Throw "Invalid entities array"
  end.

(** An element of [observations] (with [key] = ["contents"]) or of
    [deletions] (with [key] = ["observations"]). *)
Definition observationItem (key : string) (item : JS.value)
  : option (string * list string) :=
  if isRecord item then
    match JS.prop "entityName" item with
    | JS.Str entityName =>
        if isStringArray (JS.prop key item) then
          match JS.prop key item with
          | JS.Arr l => Some (entityName, JS.as_strings l)
          | _ => None
          end
        else None
    | _ => None
    end
  else None.

Definition validateAddObservationsRequest (args : gmap string JS.value)
  : Outcome (list (string * list string)) :=
  match default JS.Undefined (args !! "observations") with
  | JS.Arr l =>
      match mapM (observationItem "contents") l with
      | Some observations => Ok observations
      | None => Throw "Invalid observation format"
      end
  | _ => Throw "Invalid observations array"
  end.

Definition validateDeleteEntitiesRequest (args : gmap string JS.value)
  : Outcome (list string) :=
  match default JS.Undefined (args !! "entityNames") with
  | JS.Arr l =>
      if forallb JS.is_string l then Ok (JS.as_strings l)
      else Throw "Invalid entityNames array"
  | _ => Throw "Invalid entityNames array"
  end.

Definition validateDeleteObservationsRequest (args : gmap string JS.value)
  : Outcome (list (string * list string)) :=
  match default JS.Undefined (args !! "deletions") with
  | JS.Arr l =>
      match mapM (observationItem "observations") l with
      | Some deletions => Ok deletions
      | None => Throw "Invalid deletion format"
      end
  | _ => Throw "Invalid deletions array"
  end.

Definition validateDeleteRelationsRequest (args : gmap string JS.value)
  : Outcome (list Relation) :=
  match default JS.Undefined (args !! "relations") with
  | JS.Arr l =>
      match mapM isRelation l with
      | Some relations => Ok relations
      | None => Throw "Invalid relations array"
      end
  | _ => Throw "Invalid relations array"
  end.

Record GetImplementationRequest := {
  gi_entityName : string;
  gi_scope : Scope;
}.

Definition parseScope (s : string) : option Scope :=
  if bool_decide (s = "minimal") then Some minimal
  else if bool_decide (s = "logical") then Some logical
  else if bool_decide (s = "dependencies") then Some dependencies
  else None.

Definition validateGetImplementationRequest (args : gmap string JS.value)
  : Outcome GetImplementationRequest :=
  let arg k := default JS.Undefined (args !! k) in
  let finalEntityName := JS.or_value (arg "entityName") (arg "entity_name") in
  match finalEntityName with
  | JS.Str entityName =>
      let finalScope := JS.or_value (arg "scope") (JS.Str "minimal") in
      match finalScope with
      | JS.Str s =>
          match parseScope s with
          | Some scope =>
              Ok {| gi_entityName := entityName; gi_scope := scope |}
          | None =>
              Throw "Invalid scope. Must be: minimal, logical, or dependencies"
          end
      | _ => Throw "Invalid scope. Must be: minimal, logical, or dependencies"
      end
  | _ => Throw "Missing or invalid entityName string"
  end.

(** ** Deleting ([src/persistence/qdrant.ts], [src/index.ts]) *)

(** What a [delete] names: point ids, or a filter. *)
Inductive Selector :=
| ByPoints (ids : list Z)
| ByFilter (f : Filter).

(** The oracles of a [delete]: whether the [n]-th call, a [delete], fails,
    and which points the store holds to pass a filter. *)
Variable delete_fault : nat → string → Selector → option string.
Variable filter_matches : Filter → Point → bool.

Definition delete_points (s : Selector) (c : Collection) : Collection :=
  {| cfg_size := cfg_size c; cfg_dense_size := cfg_dense_size c;
     c_points :=
       match s with
       | ByPoints ids => foldr delete (c_points c) ids
       | ByFilter f =>
           filter (fun kp => filter_matches f kp.2 = false) (c_points c)
       end |}.

(** [delete] removes the points named; an id that is not stored is no
    error. *)
Definition client_delete (collection : string) (s : Selector) : M unit :=
  fun st =>
    let st' := set_calls (S (n_calls st)) st in
    match delete_fault (n_calls st) collection s with
    | Some message => (Throw message, st')
    | None =>
        on_collection collection (fun c =>
          modify (fun st =>
            set_qdrant (<[collection := delete_points s c]> (qdrant st)) st))
          st'
    end.

Definition deleteEntity (entityName : string) : M unit :=
  connect ;;;
  c <- require_collection "" ;;
  client_delete c
    (ByFilter {| must := [MatchValue "entity_name" entityName];
                 should := [] |}).

Definition deleteRelation (relation : Relation) : M unit :=
  connect ;;;
  c <- require_collection "" ;;
  id <- hashString (relationIdStr relation) ;;
  client_delete c (ByPoints [id]).

Definition deleteRelations (relations : list Relation) : M unit :=
  fold_right (fun relation rest => deleteRelation relation ;;; rest) (ret tt)
    relations.

Definition touches (n : string) (r : Relation) : bool :=
  bool_decide (from r = n) || bool_decide (to r = n).

Definition deleteEntities (entityNames : list string) : M unit :=
  currentGraph <- getRawGraph (Some (inject_Z JS.MAX_SAFE_INTEGER)) None ;;
  fold_right
    (fun n rest =>
       deleteEntity n ;;;
       deleteRelations (filter (fun r => touches n r = true)
                          (relations currentGraph)) ;;;
       rest)
    (ret tt) entityNames.

(** ** Observations ([src/index.ts]) *)

Definition findEntity (currentGraph : KnowledgeGraph) (entityName : string)
  : option Entity :=
  List.find (fun e => bool_decide (name e = entityName)) (entities currentGraph).

Definition addObservations (entityName : string) (contents : list string)
  : M unit :=
  currentGraph <- getRawGraph (Some (inject_Z JS.MAX_SAFE_INTEGER)) None ;;
  match findEntity currentGraph entityName with
  | None => throw ("Entity not found: " +:+ entityName)
  | Some entity =>
      persistEntity {| name := name entity;
                       entityType := entityType entity;
                       observations := (observations entity ++ contents)%list |}
  end.

Definition deleteObservations (entityName : string) (removed : list string)
  : M unit :=
  currentGraph <- getRawGraph (Some (inject_Z JS.MAX_SAFE_INTEGER)) None ;;
  match findEntity currentGraph entityName with
  | None => throw ("Entity not found: " +:+ entityName)
  | Some entity =>
      persistEntity
        {| name := name entity;
           entityType := entityType entity;
           observations :=
             filter (fun o => JS.includes o removed = false)
               (observations entity) |}
  end.

(** ** More tool handlers ([src/index.ts]) *)

Definition handle_add_observations (args : gmap string JS.value) : M unit :=
  try_catch
    (observations <- lift (validateAddObservationsRequest args) ;;
     fold_right (fun obs rest => addObservations obs.1 obs.2 ;;; rest) (ret tt)
       observations)
    throw.

Definition handle_delete_entities (args : gmap string JS.value) : M unit :=
  try_catch
    (entityNames <- lift (validateDeleteEntitiesRequest args) ;;
     deleteEntities entityNames)
    throw.

Definition handle_delete_observations (args : gmap string JS.value) : M unit :=
  try_catch
    (deletions <- lift (validateDeleteObservationsRequest args) ;;
     fold_right (fun del rest => deleteObservations del.1 del.2 ;;; rest)
       (ret tt) deletions)
    throw.

Definition handle_delete_relations (args : gmap string JS.value) : M unit :=
  try_catch
    (relations <- lift (validateDeleteRelationsRequest args) ;;
     deleteRelations relations)
    throw.

Definition handle_get_implementation (args : gmap string JS.value)
  : M (list SearchResult) :=
  try_catch
    (args <- lift (validateGetImplementationRequest args) ;;
     getImplementation (gi_entityName args) (Some (gi_scope args)))
    throw.

(** ** The graph around one entity ([src/persistence/qdrant.ts]) *)

Definition isRelationChunk (payload : Payload) : bool :=
  bool_decide (type payload = "chunk")
  && bool_decide (chunk_type payload = "relation")
  && bool_decide (is_Some (relation_target payload))
  && bool_decide (is_Some (relation_type payload)).

Definition relationsOfFilter (entityName : string) : Filter :=
  {| must := [MatchValue "type" "chunk";
              MatchValue "chunk_type" "relation";
              ShouldOf [MatchValue "entity_name" entityName;
                        MatchValue "relation_target" entityName]];
     should := [] |}.

(** The relation [scrollRelationsForEntity] makes of a point. *)
Definition relationOfChunk (point : Point) : option Relation :=
  payload ← pt_payload point;
  if isRelationChunk payload
  then Some {| from := entity_name payload;
               to := default "" (relation_target payload);
               relationType := default "" (relation_type payload) |}
  else None.

Fixpoint scrollRelationsLoop (n : nat) (entityName : string)
    (offset : option (Z + string)) (relations : list Relation)
  : M (list Relation) :=
  match n with
  | O => out_of_fuel
  | S n' =>
      scrollResult <- client_scroll COLLECTION_NAME_asserted
                        {| r_limit := 100; r_offset := offset;
                           r_filter := relationsOfFilter entityName |} ;;
      let relations' :=
        (relations ++ omap relationOfChunk (sc_points scrollResult))%list in
      match usable_offset (next_page_offset scrollResult) with
      | Some offset' =>
          scrollRelationsLoop n' entityName (Some offset') relations'
      | None => ret relations'
      end
  end.

Definition scrollRelationsForEntity (entityName : string) : M (list Relation) :=
  scrollRelationsLoop fuel entityName None [].

(** An object that counts the occurrences of its keys, filled with
    [acc[k] = (acc[k] || 0) + 1]: what it holds for a key and the order of
    its keys follow the rules of JavaScript objects (inherited properties,
    integer keys first). It is not modelled: the properties below hold
    whatever it is. *)
Variable Tally : Type.
Variable tally : list string → Tally.

Record TargetEntity := {
  target_name : string;
  target_type : string;
  target_file : string;
}.

Record SmartEntityGraph := {
  summary_target : TargetEntity;
  total_connections : nat;
  incoming : nat;
  outgoing : nat;
  entity_types : Tally;
  key_relationships_outgoing : Tally;
  key_relationships_incoming : Tally;
  smart_entities : list Entity;
  smart_relations : list Relation;
}.

(** What [getEntitySpecificGraph] returns: the summary in mode [smart], a
    plain graph in the other modes. *)
Inductive EntityGraph :=
| SmartView (s : SmartEntityGraph)
| FlatView (g : KnowledgeGraph).

(** [formatSmartEntityGraph]; reading the payload of a point that has none
    is a [TypeError]. *)
Definition formatSmartEntityGraph (targetResult : ScoredPoint)
    (relatedEntities : list Entity) (relationships : list Relation)
  : M SmartEntityGraph :=
  match sp_payload targetResult with
  | None => throw "TypeError: Cannot read properties of undefined"
  | Some payload =>
      let targetEntity :=
        {| target_name := entity_name payload;
           target_type := payloadEntityType payload;
           target_file :=
             JS.or_default (p_metadata payload ≫= md_file_path) "unknown" |} in
      let incoming :=
        filter (fun r => to r = target_name targetEntity) relationships in
      let outgoing :=
        filter (fun r => from r = target_name targetEntity) relationships in
      ret {| summary_target := targetEntity;
             total_connections := length relationships;
             incoming := length incoming;
             outgoing := length outgoing;
             entity_types := tally (map entityType relatedEntities);
             key_relationships_outgoing :=
               tally (map relationType
                        (filter (fun r => from r = target_name targetEntity)
                           relationships));
             key_relationships_incoming :=
               tally (map relationType
                        (filter (fun r => to r = target_name targetEntity)
                           relationships));
             smart_entities := take 10 relatedEntities;
             smart_relations := take 50 relationships |}
  end.

Definition targetRequest (entityName : string) (vector : list Q)
  : SearchRequest :=
  {| s_vector := vector; s_limit := 1; s_with_payload := true;
     s_filter := Some
       {| must := [MatchValue "entity_name" entityName;
                   MatchValue "chunk_type" "metadata"];
          should := [] |} |}.

(** [getEntitySpecificGraph(entityName, mode = 'smart', limit?)] *)
Definition getEntitySpecificGraph (entityName : string)
    (mode : option GraphMode) (limit : option Q) : M EntityGraph :=
  let mode := default smart mode in
  connect ;;;
  c <- require_collection "" ;;
  vector <- zeroVector ;;
  targetEntityResults <- client_search c (targetRequest entityName vector) ;;
  match targetEntityResults with
  | [] => throw ("Entity '" +:+ entityName +:+ "' not found")
  | target :: _ =>
      relatedRelations <- scrollRelationsForEntity entityName ;;
      let relatedEntityNames :=
        first_seen []
          (entityName
           :: flat_map (fun rel => [from rel; to rel]) relatedRelations) in
      entities <- fetchEntitiesByNames relatedEntityNames limit ;;
      match mode with
      | smart =>
          s <- formatSmartEntityGraph target entities relatedRelations ;;
          ret (SmartView s)
      | _ =>
          ret (FlatView {| entities := entities;
                           relations := relatedRelations |})
      end
  end.

Definition manager_getEntitySpecificGraph (entityName : string)
    (mode : option GraphMode) (limit : option Q) : M EntityGraph :=
  getEntitySpecificGraph entityName mode limit.

(** ** [getMetadataChunks] ([src/persistence/qdrant.ts]) *)

(** A scroll that is handed the cursor of the page before as it came,
    whatever its type. *)
Record CursorScrollRequest := {
  cs_limit : Q;
  cs_offset : PageOffset;
  cs_filter : Filter;
}.

(** The oracles of such a scroll: whether the [n]-th call, such a scroll,
    fails, and what Qdrant answers to it. *)
Variable cursor_scroll_fault : nat → string → CursorScrollRequest → option string.
Variable cursor_scroll_answer : Collection → CursorScrollRequest → ScrollResult.

Definition client_scroll_cursor (collection : string) (r : CursorScrollRequest)
  : M ScrollResult :=
  fun st =>
    let st' := set_calls (S (n_calls st)) st in
    match cursor_scroll_fault (n_calls st) collection r with
    | Some message => (Throw message, st')
    | None =>
        on_collection collection (fun c => ret (cursor_scroll_answer c r)) st'
    end.

(** [if (point.payload && collected < limit) { chunks.push(point.payload);
    collected++; }] *)
Definition collectChunk (limit : Q) (acc : list Payload * Z) (point : Point)
  : list Payload * Z :=
  match pt_payload point with
  | Some payload =>
      if Qlt_le_dec (inject_Z acc.2) limit
      then ((acc.1 ++ [payload])%list, acc.2 + 1)
      else acc
  | None => acc
  end.

(** The cursor is kept unless it is [null] or [undefined]. *)
Definition keptOffset (o : PageOffset) : PageOffset :=
  match o with
  | OffsetNull | OffsetUndefined => OffsetUndefined
  | _ => o
  end.

Definition isDefined (o : PageOffset) : bool :=
  match o with
  | OffsetNull | OffsetUndefined => false
  | _ => true
  end.

Definition metadataOnlyFilter : Filter :=
  {| must := [MatchValue "chunk_type" "metadata"]; should := [] |}.

Fixpoint metadataChunksLoop (n : nat) (c : string) (limit : Q)
    (offset : PageOffset) (chunks : list Payload) (collected : Z)
    (batchCount : nat) : M (list Payload) :=
  match n with
  | O => out_of_fuel
  | S n' =>
      let batchCount := S batchCount in
      scrollResult <- client_scroll_cursor c
                        {| cs_limit := Qmin 100 (limit - inject_Z collected);
                           cs_offset := offset;
                           cs_filter := metadataOnlyFilter |} ;;
      let collectedChunks :=
        foldl (collectChunk limit) (chunks, collected)
          (sc_points scrollResult) in
      let offset := keptOffset (next_page_offset scrollResult) in
      if (50 <? batchCount)%nat then ret collectedChunks.1
      else if isDefined offset
              && (if Qlt_le_dec (inject_Z collectedChunks.2) limit
                  then true else false)
      then metadataChunksLoop n' c limit offset collectedChunks.1
             collectedChunks.2 batchCount
      else ret collectedChunks.1
  end.

(** [getMetadataChunks(limit = 10000)] *)
Definition getMetadataChunks (limit : option Q) : M (list Payload) :=
  let limit := default 10000%Q limit in
  initialize ;;;
  c <- require_collection "" ;;
  metadataChunksLoop fuel c limit OffsetUndefined [] 0 0.

(* ===================================================================== *)
(** * Notions the properties are stated with *)
(* ===================================================================== *)

(** The Qdrant collections are only touched by the calls that write. *)
Definition same_store (st st' : State) : Prop := qdrant st' = qdrant st.

(** What a successful point write leaves: the collection existed, and the
    point is now stored under the id hashed from [idStr]. *)
Definition wrote (idStr : string) (payloadOf : string → Payload)
    (st st' : State) : Prop :=
  ∃ c col id vector now,
    COLLECTION_NAME = Some c
    ∧ (∀ st0, hashString idStr st0 = (Ok id, st0))
    ∧ qdrant st !! c = Some col
    ∧ qdrant st' !! c
      = Some (upsert_point {| pt_id := id; pt_vector := vector;
                              pt_payload := Some (payloadOf now) |} col).

(** The stored chunks of kind [kind] that carry the entity name [n]. *)
Definition isChunkOf (kind n : string) (p : Point) : bool :=
  match pt_payload p with
  | Some payload =>
      bool_decide (chunk_type payload = kind)
      && bool_decide (entity_name payload = n)
  | None => false
  end.

Definition chunksOf (kind n : string) (col : Collection) : gmap Z Point :=
  filter (fun kp => isChunkOf kind n kp.2 = true) (c_points col).

(** The relations of a list persisted one after the other, each with
    success. *)
Inductive persisted : list Relation → State → State → Prop :=
| persisted_nil st : persisted [] st st
| persisted_cons r rs st st' st'' :
    persistRelation r st = (Ok tt, st') →
    persisted rs st' st'' →
    persisted (r :: rs) st st''.

Definition endpointsExist (g : KnowledgeGraph) (r : Relation) : Prop :=
  entityExists g (from r) = true ∧ entityExists g (to r) = true.

(** A chunk is stored under the id of relation [r]. *)
Definition relationStored (r : Relation) (st : State) : Prop :=
  ∃ c col id p,
    COLLECTION_NAME = Some c
    ∧ qdrant st !! c = Some col
    ∧ (∀ st0, hashString (relationIdStr r) st0 = (Ok id, st0))
    ∧ c_points col !! id = Some p.

Definition rawRequest (offset : option (Z + string)) : ScrollRequest :=
  {| r_limit := 100; r_offset := offset; r_filter := rawFilter |}.

(** The pages the store hands out from [offset] on, each asked for with the
    cursor of the one before, up to the page that carries no usable
    cursor. *)
Inductive pages : option (Z + string) → State → list ScrollResult → State → Prop :=
| pages_last offset st page st' :
    client_scroll COLLECTION_NAME_asserted (rawRequest offset) st = (Ok page, st') →
    usable_offset (next_page_offset page) = None →
    pages offset st [page] st'
| pages_next offset st page st' offset' rest st'' :
    client_scroll COLLECTION_NAME_asserted (rawRequest offset) st = (Ok page, st') →
    usable_offset (next_page_offset page) = Some offset' →
    pages (Some offset') st' rest st'' →
    pages offset st (page :: rest) st''.

(** The pages of a scan, computed: [scanned n offset st] follows the
    cursors for at most [n] further pages. *)
Fixpoint scanned (n : nat) (offset : option (Z + string)) (st : State)
  : option (list ScrollResult * State) :=
  match client_scroll COLLECTION_NAME_asserted (rawRequest offset) st with
  | (Ok page, st') =>
      match usable_offset (next_page_offset page) with
      | None => Some ([page], st')
      | Some offset' =>
          match n with
          | O => None
          | S n' =>
              match scanned n' (Some offset') st' with
              | Some (rest, st'') => Some (page :: rest, st'')
              | None => None
              end
          end
      end
  | _ => None
  end.

(** The relation a point stands for, when it is a relation chunk with its
    three fields. *)
Definition relationOfPoint (point : Point) : option Relation :=
  payload ← pt_payload point;
  if bool_decide (type payload = "chunk")
     && bool_decide (chunk_type payload = "relation")
  then
    f ← JS.or (Some (entity_name payload)) (p_from payload);
    t ← JS.or (relation_target payload) (p_to payload);
    r ← JS.or (relation_type payload) (p_relationType payload);
    if bool_decide (f = "") || bool_decide (t = "") || bool_decide (r = "")
    then None
    else Some {| from := f; to := t; relationType := r |}
  else None.

Definition relationChunks (points : list Point) : list Relation :=
  omap relationOfPoint points.

Definition pointsOf (ps : list ScrollResult) : list Point :=
  concat (map sc_points ps).

(** The entities a scan of [points] tracks for the relation filter: those of
    the metadata chunks met while the cap is not reached. *)
Definition trackedEntities (n : Z) (types : option (list string))
    (points : list Point) : list Entity :=
  raw_allEntities (fold_left (rawPoint (inject_Z n) types) points emptyRawData).

(** The cap: the entities kept are counted, and never exceed [n]. *)
Definition capped (n : Z) (acc : RawData) : Prop :=
  entityCount acc = Z.of_nat (length (raw_entities acc)) ∧ entityCount acc <= n.

(** The entity names of a result list, each read as the code reads it
    ([entity_name || 'unknown']). *)
Definition entityNames (results : list SearchResult) : gset string :=
  list_to_set (map resultKey results).

Definition store_call (c : Call) : bool :=
  match c with Embeddings _ _ _ => false | _ => true end.

(** Every call to the store fails from the [n0]-th call on. *)
Definition store_down (n0 : nat) : Prop :=
  ∀ n c, (n0 ≤ n)%nat → store_call c = true → is_Some (fault n c).

(** A chunk that carries only an entity name, for the examples. *)
Definition namedChunk (kind n : string) : Payload :=
  {| type := "chunk"; chunk_type := kind; entity_name := n;
     entity_type := "function"; content := n; file_path := None;
     relation_target := None; relation_type := None; created_at := None;
     p_observations := None; p_id := None; p_name := None; p_from := None;
     p_to := None; p_relationType := None; p_metadata := None;
     p_semantic_metadata := None; p_has_implementation := None |}.

Definition semanticHit (n : string) (s : Q) : SearchResult :=
  {| sr_type := "chunk"; score := s; data := namedChunk "metadata" n |}.

Definition keywordHit (n : string) (s : Q) : BM25Result :=
  {| bm_document := bm25Document (namedChunk "metadata" n); bm_score := s |}.

(** A computation keeps the relation [R] between the state it starts in and
    the state it ends in, whatever its outcome. *)
Definition preserves {A} (R : State → State → Prop) (m : M A) : Prop :=
  ∀ st r st', m st = (r, st') → R st st'.

(** A collection as [createCollection] makes it. *)
Definition emptyCollection (size : Z) : Collection :=
  {| cfg_size := Some size; cfg_dense_size := None; c_points := ∅ |}.

(** The store is as it was, or the configured collection, missing before, is
    now there and empty. *)
Definition created_at_most (st st' : State) : Prop :=
  qdrant st' = qdrant st
  ∨ ∃ c, COLLECTION_NAME = Some c
         ∧ qdrant st !! c = None
         ∧ qdrant st'
           = <[c := emptyCollection getDefaultVectorSize]> (qdrant st).

(** The value of a byte. *)
Definition byte_value (b : Byte.byte) : Z := Z.of_N (Byte.to_N b).

(** The entity the scan makes of a chunk written for [e]: an empty name is
    read as ['unknown']. *)
Definition readBack (e : Entity) : Entity :=
  {| name := if bool_decide (name e = "") then "unknown" else name e;
     entityType := entityType e;
     observations := observations e |}.

(** A point is stored under the id hashed from [idStr] in the configured
    collection. *)
Definition storedUnder (idStr : string) (p : Point) (st : State) : Prop :=
  ∃ c col id,
    COLLECTION_NAME = Some c
    ∧ qdrant st !! c = Some col
    ∧ (∀ st0, hashString idStr st0 = (Ok id, st0))
    ∧ c_points col !! id = Some p.

(** A string of word characters ([\w]). *)
Definition isWord (s : string) : Prop :=
  Forall (fun c => is_word c = true) (list_ascii_of_string s).

(** One of the names of [entities]. *)
Definition namedIn (entities : list Entity) (n : string) : Prop :=
  n ∈ map name entities.

(** No collection and no point id is lost between [st] and [st']. *)
Definition points_kept (st st' : State) : Prop :=
  ∀ c col, qdrant st !! c = Some col →
    ∃ col', qdrant st' !! c = Some col'
            ∧ dom (c_points col) ⊆ dom (c_points col').

(** The chunk types among the requested types, as [buildEntityTypeFilter]
    separates them. *)
Definition requestedChunkTypes (types : list string) : list string :=
  filter (fun t => JS.includes t knownChunkTypes) types.

(** The payload carries one of the entity types [types], at the top level or
    in its [metadata]. *)
Definition hasEntityType (types : list string) (payload : Payload) : Prop :=
  entity_type payload ∈ types
  ∨ ∃ t, p_metadata payload ≫= md_entity_type = Some t ∧ t ∈ types.

(** [id] is the point id of the key string [idStr]. *)
Definition idOf (idStr : string) (id : Z) : Prop :=
  ∀ st0, hashString idStr st0 = (Ok id, st0).

(** Between [st] and [st'] no collection was added or lost and no point was
    added or changed; only points with an id in [ids] were removed. *)
Definition only_removed (ids : Z → Prop) (st st' : State) : Prop :=
  ∀ c,
    match qdrant st !! c, qdrant st' !! c with
    | Some col, Some col' =>
        (∀ id, ¬ ids id → c_points col' !! id = c_points col !! id)
        ∧ (∀ id p, c_points col' !! id = Some p → c_points col !! id = Some p)
    | None, None => True
    | _, _ => False
    end.

(** The ids of a list of relations. *)
Definition relationIds (relations : list Relation) (id : Z) : Prop :=
  ∃ rel, rel ∈ relations ∧ idOf (relationIdStr rel) id.

(** The computation ends, no loop of the model out of fuel, and it has made
    at most [k] calls. *)
Definition within {A} (k : nat) (m : M A) : Prop :=
  ∀ st r st', m st = (r, st') →
    r ≠ OutOfFuel
    ∧ (n_calls st ≤ n_calls st' ∧ n_calls st' ≤ n_calls st + k)%nat.

(** The store answers a scroll with at most as many points as asked for. *)
Definition honours_limit : Prop :=
  ∀ col r,
    (inject_Z (Z.of_nat (length (sc_points (cursor_scroll_answer col r))))
     <= Qmax 0 (cs_limit r))%Q.

(* ===================================================================== *)
(** * Properties *)
(* ===================================================================== *)

(** A proof depends on the configuration and on the oracles its statement
    mentions, and on no other. [bare] clears what the goal does not mention
    before a solver is run. *)
Set Default Proof Using "Type".

Ltac bare := repeat match goal with H : _ |- _ => clear H end.

(** ** Sorting *)

Section SortDescFacts.
Context {A : Type} (key : A → Q).

Lemma insert_desc_perm x l : insert_desc key x l ≡ₚ x :: l.
Proof.
  induction l as [|y l IH]; simpl; [done|].
  destruct (Qlt_le_dec _ _); [|done].
  rewrite IH. apply Permutation_swap.
Qed.

Lemma sort_desc_perm l : sort_desc key l ≡ₚ l.
Proof.
  induction l as [|x l IH]; simpl; [done|].
  by rewrite insert_desc_perm, IH.
Qed.

Lemma insert_desc_sorted x l :
  sorted_desc key l → sorted_desc key (insert_desc key x l).
Proof.
  induction 1 as [|y l Hall Hs IH]; simpl.
  - constructor; [constructor | constructor].
  - destruct (Qlt_le_dec (key x) (key y)) as [Hlt|Hle].
    + constructor; [|exact IH].
      rewrite insert_desc_perm. constructor; [by apply Qlt_le_weak|done].
    + constructor; [|by constructor].
      constructor; [exact Hle|].
      eapply Forall_impl; [exact Hall|].
      intros z Hz. simpl in Hz. by eapply Qle_trans.
Qed.

Lemma sort_desc_sorted l : sorted_desc key (sort_desc key l).
Proof.
  induction l; simpl; [constructor | by apply insert_desc_sorted].
Qed.

Lemma sorted_desc_take n l : sorted_desc key l → sorted_desc key (take n l).
Proof.
  intros Hs. revert n. induction Hs as [|x l Hall Hs IH]; intros [|n]; simpl;
    try constructor; [|by apply IH].
  eapply Forall_forall. intros y Hy.
  eapply (proj1 (Forall_forall _ _) Hall).
  eapply subseteq_take, Hy.
Qed.

Lemma sort_desc_elem x l : x ∈ sort_desc key l ↔ x ∈ l.
Proof. by rewrite sort_desc_perm. Qed.

Lemma sort_desc_length l : length (sort_desc key l) = length l.
Proof. by rewrite sort_desc_perm. Qed.

(** The sort is stable: the elements of one score keep their order. *)
Lemma insert_desc_stable q x l :
  filter (fun y => Qeq_bool (key y) q = true) (insert_desc key x l)
  = filter (fun y => Qeq_bool (key y) q = true) (x :: l).
Proof.
  induction l as [|y l IH]; simpl; [done|].
  destruct (Qlt_le_dec (key x) (key y)) as [Hlt|Hle]; [|done].
  rewrite (filter_cons _ y), IH, !filter_cons.
  destruct (decide (Qeq_bool (key x) q = true)) as [Hx|Hx];
    destruct (decide (Qeq_bool (key y) q = true)) as [Hy|Hy]; try done.
  exfalso. apply Qeq_bool_eq in Hx, Hy.
  rewrite Hx, Hy in Hlt. by apply Qlt_irrefl in Hlt.
Qed.

Lemma sort_desc_stable q l :
  filter (fun y => Qeq_bool (key y) q = true) (sort_desc key l)
  = filter (fun y => Qeq_bool (key y) q = true) l.
Proof.
  induction l as [|x l IH]; simpl; [done|].
  by rewrite insert_desc_stable, !filter_cons, IH.
Qed.

End SortDescFacts.

Lemma insert_desc_map {A B} (key : B → Q) (f : A → B) x l :
  insert_desc key (f x) (map f l)
  = map f (insert_desc (fun a => key (f a)) x l).
Proof.
  induction l as [|y l IH]; simpl; [done|].
  destruct (Qlt_le_dec _ _); simpl; [by rewrite IH|done].
Qed.

Lemma sort_desc_map {A B} (key : B → Q) (f : A → B) l :
  sort_desc key (map f l) = map f (sort_desc (fun a => key (f a)) l).
Proof.
  induction l as [|x l IH]; simpl; [done|].
  by rewrite IH, insert_desc_map.
Qed.

(** ** Effects *)

Lemma try_catch_rethrow {A} (m : M A) st : try_catch m throw st = m st.
Proof. unfold try_catch, throw. by destruct (m st) as [[?|?|] ?]. Qed.

Lemma bind_ok {A B} (m : M A) (k : A → M B) st a st' :
  m st = (Ok a, st') → bind m k st = k a st'.
Proof. unfold bind. by intros ->. Qed.

Lemma bind_throw {A B} (m : M A) (k : A → M B) st e st' :
  m st = (Throw e, st') → bind m k st = (Throw e, st').
Proof. unfold bind. by intros ->. Qed.

Lemma bind_inv_ok {A B} (m : M A) (k : A → M B) st b st2 :
  bind m k st = (Ok b, st2) →
  ∃ a st1, m st = (Ok a, st1) ∧ k a st1 = (Ok b, st2).
Proof.
  unfold bind. destruct (m st) as [[a|e|] st1]; intros H; try done.
  by exists a, st1.
Qed.

Lemma connect_initialized st : initialized st = true → connect st = (Ok tt, st).
Proof. unfold connect, bind, get, ret. by intros ->. Qed.

Lemma require_collection_ok w c st :
  COLLECTION_NAME = Some c → c ≠ "" → require_collection w st = (Ok c, st).
Proof.
  intros Hc Hne. unfold require_collection. rewrite Hc.
  by rewrite bool_decide_eq_false_2.
Qed.

Lemma try_catch_inv_ok {A} (m : M A) h st a st' :
  try_catch m h st = (Ok a, st') →
  m st = (Ok a, st') ∨ ∃ e st1, m st = (Throw e, st1) ∧ h e st1 = (Ok a, st').
Proof.
  unfold try_catch. destruct (m st) as [[a0|e|] st1]; intros H; try done.
  - by left.
  - right. by exists e, st1.
Qed.

Lemma call_inv_ok {A} (c : Call) (answer : M A) st a st' :
  call c answer st = (Ok a, st') →
  fault (n_calls st) c = None
  ∧ answer (set_calls (S (n_calls st)) st) = (Ok a, st').
Proof. unfold call. by destruct (fault _ _). Qed.

Lemma client_search_inv_ok c r st results st' :
  client_search c r st = (Ok results, st') →
  ∃ col, qdrant st !! c = Some col ∧ results = search_answer col r
         ∧ st' = set_calls (S (n_calls st)) st.
Proof.
  intros [_ H]%call_inv_ok. unfold on_collection in H. simpl in H.
  destruct (qdrant st !! c) as [col|] eqn:Hc; [|done].
  unfold ret in H. exists col. by simplify_eq.
Qed.

Lemma omap_length_le {A B} (f : A → option B) (l : list A) :
  (length (omap f l) ≤ length l)%nat.
Proof.
  induction l as [|x l IH]; [done|].
  change (omap f (x :: l)) with
    (match f x with Some y => y :: omap f l | None => omap f l end).
  destruct (f x); simpl; lia.
Qed.

Lemma processSearchResults_length results :
  (length (processSearchResults results) ≤ length results)%nat.
Proof.
  unfold processSearchResults. rewrite sort_desc_length.
  apply omap_length_le.
Qed.

Lemma performSemanticSearch_inv_ok q types l st results st' :
  performSemanticSearch q types l st = (Ok results, st') →
  ∃ col r, results = processSearchResults (search_answer col r) ∧ s_limit r = l.
Proof.
  unfold performSemanticSearch.
  intros (v & st1 & _ & H)%bind_inv_ok.
  apply bind_inv_ok in H as (rs & st2 & H & Hret).
  apply client_search_inv_ok in H as (col & _ & -> & _).
  unfold ret in Hret. simplify_eq. eexists col, _. split; [reflexivity|done].
Qed.

(** The manager passes no search mode on: whatever [searchMode] the request
    carries, the handler runs the search of the default mode. *)
Lemma handle_search_similar_unfold args req st :
  validateSearchSimilarRequest args = Ok req →
  handle_search_similar args st
  = searchSimilar (query req) (q_entityTypes req)
      (Some (validLimit (q_limit req))) None st.
Proof.
  intros Hv. unfold handle_search_similar. rewrite try_catch_rethrow.
  unfold bind, lift. by rewrite Hv.
Qed.

Lemma validLimit_bounds limit : (1 <= validLimit limit <= 100)%Q.
Proof.
  unfold validLimit. split; [apply Q.le_max_l|].
  apply Q.max_lub; [done|apply Q.le_min_r].
Qed.

Lemma searchSimilar_semantic_inv_ok q types l st results st' :
  searchSimilar q types (Some l) None st = (Ok results, st') →
  results = []
  ∨ ∃ col r, results = processSearchResults (search_answer col r)
             ∧ s_limit r = l.
Proof.
  unfold searchSimilar. simpl.
  intros (_ & st1 & _ & H)%bind_inv_ok.
  apply bind_inv_ok in H as (_ & st2 & _ & H).
  apply try_catch_inv_ok in H as [H|(e & st3 & _ & H)].
  - right. by eapply performSemanticSearch_inv_ok.
  - left. unfold ret in H. by simplify_eq.
Qed.

(** C10. The limit a search request forwards to retrieval is
    [max(1, min(requested, 100))], with 50 for an omitted limit: it is 1
    for a request of at most 1, the request itself between 1 and 100, and
    100 above. So with a store that returns no more points than the limit
    of a search asks for, the caller gets at most 100 results, although
    validation accepts every positive limit. *)
Theorem search_limit_is_capped (args : gmap string JS.value)
    (req : SearchSimilarRequest) (st : State) :
  validateSearchSimilarRequest args = Ok req →
  (∀ col r, (0 <= s_limit r)%Q →
            (inject_Z (Z.of_nat (length (search_answer col r))) <= s_limit r)%Q) →
  let requested := default 50%Q (q_limit req) in
  let forwarded := Qmax 1 (Qmin requested 100) in
  handle_search_similar args st
  = searchSimilar (query req) (q_entityTypes req) (Some forwarded) None st
  ∧ ((requested <= 1)%Q → forwarded == 1)
  ∧ ((1 <= requested <= 100)%Q → forwarded == requested)
  ∧ ((100 <= requested)%Q → forwarded == 100)
  ∧ (∀ results st',
       handle_search_similar args st = (Ok results, st') →
       (length results ≤ 100)%nat)
  ∧ (∀ q l, (0 < l)%Q →
       validateSearchSimilarRequest {[ "query" := JS.Str q; "limit" := JS.Num l ]}
       = Ok {| query := q; q_limit := Some l; q_entityTypes := None;
               searchMode := None |}).
Proof.
  intros Hv Hstore requested forwarded.
  split; [by apply handle_search_similar_unfold|].
  split; [|split; [|split; [|split]]].
  - intros Hle. unfold forwarded. apply Q.max_l.
    eapply Qle_trans; [apply Q.le_min_l|done].
  - intros [H1 H100]. unfold forwarded.
    rewrite (Q.min_l _ _ H100). by apply Q.max_r.
  - intros H100. unfold forwarded. rewrite (Q.min_r _ _ H100).
    by apply Q.max_r.
  - intros results st' Hrun.
    rewrite (handle_search_similar_unfold _ _ _ Hv) in Hrun.
    apply searchSimilar_semantic_inv_ok in Hrun as [->|(col & r & -> & Hl)].
    + simpl. lia.
    + pose proof (processSearchResults_length (search_answer col r)) as Hlen.
      pose proof (validLimit_bounds (q_limit req)) as [Hb1 Hb].
      pose proof (Hstore col r) as Hr. rewrite Hl in Hr.
      specialize (Hr (Qle_trans _ _ _ (Qle_refl 0 : 0 <= 0)%Q
                        (Qle_trans 0 1 _ ltac:(done) Hb1))).
      assert (inject_Z (Z.of_nat (length (search_answer col r))) <= inject_Z 100)%Q
        as Hz by (eapply Qle_trans; [exact Hr|exact Hb]).
      rewrite <- Zle_Qle in Hz. lia.
  - intros q l Hpos. unfold validateSearchSimilarRequest.
    assert (∀ k, ({[ "query" := JS.Str q; "limit" := JS.Num l ]}
                     : gmap string JS.value) !! k
                 = if bool_decide (k = "query") then Some (JS.Str q)
                   else if bool_decide (k = "limit") then Some (JS.Num l)
                   else None) as Hlook.
    { intros k. repeat case_bool_decide; simplify_map_eq; done. }
    rewrite !Hlook. simpl.
    destruct (Qle_bool l 0) eqn:Hle; [|done].
    apply Qle_bool_imp_le in Hle. exfalso. by eapply Qlt_not_le.
Qed.

(** ** Idempotent upsert *)

Lemma readUInt32BE_pure buffer st id st' :
  readUInt32BE buffer st = (Ok id, st') → st' = st ∧ ∀ st0, readUInt32BE buffer st0 = (Ok id, st0).
Proof.
  unfold readUInt32BE.
  destruct buffer as [|b0 [|b1 [|b2 [|b3 rest]]]]; try done.
  unfold ret. intros H. by simplify_eq.
Qed.

Lemma client_upsert_inv_ok c p st st' :
  client_upsert c p st = (Ok tt, st') →
  ∃ col, qdrant st !! c = Some col
         ∧ qdrant st' = <[c := upsert_point p col]> (qdrant st).
Proof.
  intros [_ H]%call_inv_ok. unfold on_collection in H. simpl in H.
  destruct (qdrant st !! c) as [col|] eqn:Hc; [|done].
  unfold modify in H. exists col. by simplify_eq.
Qed.

Lemma call_read_same_store {A} c (f : State → A) st a st' :
  call c (get f) st = (Ok a, st') → same_store st st'.
Proof. intros [_ H]%call_inv_ok. unfold get in H. by simplify_eq. Qed.

Lemma connect_attempts_same_store n st st' r :
  connect_attempts n st = (r, st') → same_store st st'.
Proof.
  revert st. induction n as [|n IH]; intros st; simpl.
  - unfold ret. intros. by simplify_eq.
  - unfold try_catch, bind, client_getCollections, call, get, modify.
    destruct (fault (n_calls st) GetCollections); simpl.
    + destruct n; [unfold throw; intros; by simplify_eq|].
      intros H. by apply IH in H.
    + intros. by simplify_eq.
Qed.

Lemma connect_same_store st st' r :
  connect st = (r, st') → same_store st st'.
Proof.
  unfold connect, bind, get. destruct (initialized st).
  - unfold ret. intros. by simplify_eq.
  - apply connect_attempts_same_store.
Qed.

Lemma require_collection_inv_ok w st c st' :
  require_collection w st = (Ok c, st') →
  COLLECTION_NAME = Some c ∧ c ≠ "" ∧ st' = st.
Proof.
  unfold require_collection. destruct COLLECTION_NAME as [c0|]; [|done].
  case_bool_decide; [done|]. unfold ret. intros. by simplify_eq.
Qed.

Lemma generateEmbedding_same_store text st st' r :
  generateEmbedding text st = (r, st') → same_store st st'.
Proof.
  unfold generateEmbedding, generateVoyageEmbedding, generateOpenAIEmbedding,
    try_catch, call, ret, throw.
  repeat (case_bool_decide || case_match); intros; by simplify_eq.
Qed.

Lemma persist_wrote idStr payloadOf text st st' :
  (connect ;;;
   c <- require_collection "" ;;
   vector <- generateEmbedding text ;;
   id <- hashString idStr ;;
   now <- get (fun st => clock (n_calls st)) ;;
   client_upsert c {| pt_id := id; pt_vector := vector;
                      pt_payload := Some (payloadOf now) |}) st
  = (Ok tt, st') →
  wrote idStr payloadOf st st'.
Proof.
  intros ([] & st1 & Hconn & H)%bind_inv_ok.
  apply bind_inv_ok in H as (c & st2 & (Hc & _ & Hst)%require_collection_inv_ok & H).
  subst st2.
  apply bind_inv_ok in H as (vector & st3 & Hemb & H).
  apply bind_inv_ok in H as (id & st4 & Hhash & H).
  apply bind_inv_ok in H as (now & st5 & Hnow & H).
  apply connect_same_store in Hconn. apply generateEmbedding_same_store in Hemb.
  apply readUInt32BE_pure in Hhash as [-> Hhash].
  unfold get in Hnow. injection Hnow as <- <-.
  apply client_upsert_inv_ok in H as (col & Hcol & Hq).
  exists c, col, id, vector, (clock (n_calls st3)).
  split; [done|]. split; [exact Hhash|].
  unfold same_store in *. split; [congruence|].
  rewrite Hq. by rewrite lookup_insert_eq.
Qed.

Lemma persistEntity_wrote entity st st' :
  persistEntity entity st = (Ok tt, st') →
  wrote (entityIdStr (name entity)) (entityPayload entity) st st'.
Proof. apply persist_wrote. Qed.

Lemma persistRelation_wrote relation st st' :
  persistRelation relation st = (Ok tt, st') →
  wrote (relationIdStr relation) (relationPayload relation) st st'.
Proof. apply persist_wrote. Qed.

(** Two writes under the same id string: the second replaces the first. *)
Lemma wrote_twice idStr payload1 payload2 st st1 st2 :
  wrote idStr payload1 st st1 → wrote idStr payload2 st1 st2 →
  ∃ c col col1 col2 id p1 p2 now1 now2,
    COLLECTION_NAME = Some c
    ∧ (∀ st0, hashString idStr st0 = (Ok id, st0))
    ∧ qdrant st !! c = Some col
    ∧ qdrant st1 !! c = Some col1
    ∧ qdrant st2 !! c = Some col2
    ∧ pt_payload p1 = Some (payload1 now1)
    ∧ pt_payload p2 = Some (payload2 now2)
    ∧ c_points col1 = <[id := p1]> (c_points col)
    ∧ c_points col2 = <[id := p2]> (c_points col)
    ∧ size (c_points col2) = size (c_points col1).
Proof.
  intros (c & col & id & v1 & now1 & Hc & Hid & Hcol & Hcol1)
         (c' & col1 & id' & v2 & now2 & Hc' & Hid' & Hcol1' & Hcol2).
  assert (c' = c) as -> by congruence.
  assert (id' = id) as ->.
  { specialize (Hid st). specialize (Hid' st). congruence. }
  rewrite Hcol1 in Hcol1'. injection Hcol1' as <-.
  set (p1 := {| pt_id := id; pt_vector := v1;
                pt_payload := Some (payload1 now1) |}) in *.
  set (p2 := {| pt_id := id; pt_vector := v2;
                pt_payload := Some (payload2 now2) |}) in *.
  exists c, col, (upsert_point p1 col),
    (upsert_point p2 (upsert_point p1 col)), id, p1, p2, now1, now2.
  repeat split; try done; simpl.
  - by rewrite insert_insert_eq.
  - rewrite insert_insert_eq.
    destruct (c_points col !! id) as [p0|] eqn:Hp.
    + rewrite !map_size_insert_Some; eauto.
    + by rewrite !map_size_insert_None.
Qed.

Lemma chunksOf_upsert kind n id p col col' :
  c_points col' = <[id := p]> (c_points col) →
  isChunkOf kind n p = true →
  chunksOf kind n col = ∅ →
  chunksOf kind n col' = {[id := p]}.
Proof.
  unfold chunksOf. intros -> Hp Hnone.
  rewrite map_filter_insert_True by done. by rewrite Hnone.
Qed.

(** C1. Persisting an entity twice under one name writes one point: both
    writes go to the id hashed from ["manual::<name>::metadata"], the second
    replaces the first (the stored observations are those of the second
    write, nothing is merged), the collection does not grow, and a
    collection that held no metadata chunk of that name holds exactly one
    afterwards. The same holds for a relation persisted twice, under the id
    hashed from ["relation::<from>-<relationType>-<to>::relation"]. *)
Theorem persist_twice_one_chunk :
  (∀ (e1 e2 : Entity) (st st1 st2 : State),
     name e1 = name e2 →
     persistEntity e1 st = (Ok tt, st1) →
     persistEntity e2 st1 = (Ok tt, st2) →
     ∃ c col col1 col2 id p1 p2,
       COLLECTION_NAME = Some c
       ∧ (∀ st0, hashString ("manual::" +:+ name e2 +:+ "::metadata") st0
                 = (Ok id, st0))
       ∧ qdrant st !! c = Some col
       ∧ qdrant st1 !! c = Some col1
       ∧ qdrant st2 !! c = Some col2
       ∧ c_points col1 = <[id := p1]> (c_points col)
       ∧ pt_payload p1 ≫= p_observations = Some (observations e1)
       ∧ c_points col2 = <[id := p2]> (c_points col)
       ∧ pt_payload p2 ≫= p_observations = Some (observations e2)
       ∧ size (c_points col2) = size (c_points col1)
       ∧ (chunksOf "metadata" (name e2) col = ∅ →
          chunksOf "metadata" (name e2) col2 = {[id := p2]}))
  ∧ (∀ (r : Relation) (st st1 st2 : State),
       persistRelation r st = (Ok tt, st1) →
       persistRelation r st1 = (Ok tt, st2) →
       ∃ c col col1 col2 id p1 p2,
         COLLECTION_NAME = Some c
         ∧ (∀ st0, hashString ("relation::"
                                +:+ (from r +:+ "-" +:+ relationType r
                                     +:+ "-" +:+ to r)
                                +:+ "::relation") st0
                   = (Ok id, st0))
         ∧ qdrant st !! c = Some col
         ∧ qdrant st1 !! c = Some col1
         ∧ qdrant st2 !! c = Some col2
         ∧ c_points col1 = <[id := p1]> (c_points col)
         ∧ c_points col2 = <[id := p2]> (c_points col)
         ∧ pt_payload p2 ≫= relation_type = Some (relationType r)
         ∧ size (c_points col2) = size (c_points col1)
         ∧ (chunksOf "relation" (relationId r) col = ∅ →
            chunksOf "relation" (relationId r) col2 = {[id := p2]})).
Proof.
  split.
  - intros e1 e2 st st1 st2 Hname H1%persistEntity_wrote H2%persistEntity_wrote.
    rewrite Hname in H1.
    destruct (wrote_twice _ _ _ _ _ _ H1 H2)
      as (c & col & col1 & col2 & id & p1 & p2 & now1 & now2 & Hc & Hid & Hcol
          & Hcol1 & Hcol2 & Hp1 & Hp2 & Hpts1 & Hpts2 & Hsize).
    exists c, col, col1, col2, id, p1, p2.
    repeat split; try done; try (by rewrite Hp1); try (by rewrite Hp2).
    intros Hnone. eapply chunksOf_upsert; [done| |done].
    unfold isChunkOf. rewrite Hp2. simpl.
    by rewrite !bool_decide_eq_true_2.
  - intros r st st1 st2 H1%persistRelation_wrote H2%persistRelation_wrote.
    destruct (wrote_twice _ _ _ _ _ _ H1 H2)
      as (c & col & col1 & col2 & id & p1 & p2 & now1 & now2 & Hc & Hid & Hcol
          & Hcol1 & Hcol2 & Hp1 & Hp2 & Hpts1 & Hpts2 & Hsize).
    exists c, col, col1, col2, id, p1, p2.
    repeat split; try done; try (by rewrite Hp1); try (by rewrite Hp2).
    intros Hnone. eapply chunksOf_upsert; [done| |done].
    unfold isChunkOf. rewrite Hp2. simpl.
    by rewrite !bool_decide_eq_true_2.
Qed.

(** ** Relations with a missing endpoint *)

Lemma addRelationsLoop_app g earlier rest st st' :
  Forall (endpointsExist g) earlier →
  persisted earlier st st' →
  addRelationsLoop g (earlier ++ rest)%list st = addRelationsLoop g rest st'.
Proof.
  intros Hall Hp. induction Hp as [st|r rs st st1 st2 Hr Hp IH]; [done|].
  apply Forall_cons in Hall as [[Hf Ht] Hall]. simpl.
  rewrite Hf, Ht. simpl. erewrite bind_ok by exact Hr. by apply IH.
Qed.

Lemma addRelationsLoop_missing g r later st :
  entityExists g (from r) = false ∨ entityExists g (to r) = false →
  ∃ missing,
    (missing = from r ∨ missing = to r)
    ∧ entityExists g missing = false
    ∧ addRelationsLoop g (r :: later) st
      = (Throw ("Entity not found: " +:+ missing), st).
Proof.
  intros Hmiss. simpl.
  destruct (entityExists g (from r)) eqn:Hf; simpl.
  - destruct Hmiss as [?|Ht]; [done|]. rewrite Ht. simpl.
    exists (to r). by repeat split; [right|..].
  - exists (from r). by repeat split; [left|..].
Qed.

Lemma wrote_keeps idStr payloadOf st st' r :
  wrote idStr payloadOf st st' → relationStored r st → relationStored r st'.
Proof.
  intros (c & col & id & v & now & Hc & Hid & Hcol & Hcol')
         (c' & col0 & id' & p & Hc' & Hcol0 & Hid' & Hp).
  assert (c' = c) as -> by congruence.
  assert (col0 = col) as -> by congruence.
  destruct (decide (id = id')) as [->|Hne].
  - eexists c, _, id', _. repeat split; [done|done|done|].
    simpl. apply lookup_insert_eq.
  - eexists c, _, id', p. repeat split; [done|done|done|].
    simpl. by rewrite lookup_insert_ne.
Qed.

Lemma wrote_stored r st st' :
  wrote (relationIdStr r) (relationPayload r) st st' → relationStored r st'.
Proof.
  intros (c & col & id & v & now & Hc & Hid & Hcol & Hcol').
  eexists c, _, id, _. repeat split; [done|done|done|].
  simpl. apply lookup_insert_eq.
Qed.

Lemma persisted_stored rs st st' :
  persisted rs st st' → ∀ r, (r ∈ rs ∨ relationStored r st) → relationStored r st'.
Proof.
  induction 1 as [st|r0 rs st st1 st2 Hr Hp IH]; intros r.
  - intros [Hin|H]; [by apply elem_of_nil in Hin|done].
  - apply persistRelation_wrote in Hr.
    intros [[->|Hin]%elem_of_cons|H]; apply IH.
    + right. by eapply wrote_stored.
    + by left.
    + right. by eapply wrote_keeps.
Qed.

(** C5. A create-relations request whose relation [r] has an endpoint that
    names no entity of the graph read at the start fails with the error
    ["Entity not found: <endpoint>"]. The error reaches the caller of the
    tool. The relations before [r], which were persisted, stay persisted:
    the state left behind is the one reached by persisting them, so nothing
    was written for [r] or for a later relation and nothing was rolled
    back. *)
Theorem addRelations_missing_endpoint (earlier later : list Relation)
    (r : Relation) (g : KnowledgeGraph) (st st0 st1 : State)
    (args : gmap string JS.value) :
  getRawGraph (Some (inject_Z JS.MAX_SAFE_INTEGER)) None st = (Ok g, st0) →
  Forall (endpointsExist g) earlier →
  entityExists g (from r) = false ∨ entityExists g (to r) = false →
  persisted earlier st0 st1 →
  validateCreateRelationsRequest args = Ok (earlier ++ r :: later)%list →
  ∃ missing,
    (missing = from r ∨ missing = to r)
    ∧ existsb (fun e => bool_decide (name e = missing)) (entities g) = false
    ∧ addRelations (earlier ++ r :: later)%list st
      = (Throw ("Entity not found: " +:+ missing), st1)
    ∧ handle_create_relations args st
      = (Throw ("Entity not found: " +:+ missing), st1)
    ∧ (∀ x, x ∈ earlier → relationStored x st1).
Proof.
  intros Hg Hall Hmiss Hp Hv.
  destruct (addRelationsLoop_missing g r later st1 Hmiss)
    as (missing & Hwhich & Hnot & Hthrow).
  assert (addRelations (earlier ++ r :: later)%list st
          = (Throw ("Entity not found: " +:+ missing), st1)) as Hadd.
  { unfold addRelations. erewrite bind_ok by exact Hg.
    by erewrite addRelationsLoop_app. }
  exists missing. repeat split; try done.
  - unfold handle_create_relations. rewrite try_catch_rethrow.
    unfold bind at 1, lift. rewrite Hv. exact Hadd.
  - intros x Hx. eapply persisted_stored; [exact Hp|by left].
Qed.

(** ** The full scan *)

Lemma rawDataLoop_pages maxEntities types offset st ps st' :
  pages offset st ps st' →
  ∀ n acc, (length ps ≤ n)%nat →
    rawDataLoop n maxEntities types offset acc st
    = (Ok (fold_left (rawPoint maxEntities types) (pointsOf ps) acc), st').
Proof.
  induction 1 as [offset st page st' Hpage Hend
                 |offset st page st' offset' rest st'' Hpage Hnext Hrest IH];
    intros n acc Hn; (destruct n as [|n]; [simpl in Hn; lia|]); simpl.
  - change (client_scroll _ _) with
      (client_scroll COLLECTION_NAME_asserted (rawRequest offset)).
    erewrite bind_ok by exact Hpage. rewrite Hend.
    unfold pointsOf. simpl. by rewrite app_nil_r.
  - change (client_scroll _ _) with
      (client_scroll COLLECTION_NAME_asserted (rawRequest offset)).
    erewrite bind_ok by exact Hpage. rewrite Hnext.
    rewrite IH by (simpl in Hn; lia).
    unfold pointsOf. simpl. by rewrite fold_left_app.
Qed.

Lemma rawPoint_relations maxEntities types acc point :
  raw_relations (rawPoint maxEntities types acc point)
  = (raw_relations acc ++ option_list (relationOfPoint point))%list.
Proof.
  unfold rawPoint, relationOfPoint.
  destruct (pt_payload point) as [payload|]; simpl; [|by rewrite app_nil_r].
  destruct (bool_decide (type payload = "chunk")); simpl;
    [|by rewrite app_nil_r].
  case_bool_decide as Hmeta.
  - rewrite Hmeta. simpl. unfold rawMetadataChunk.
    destruct (Qlt_le_dec _ _); simpl; by rewrite app_nil_r.
  - case_bool_decide as Hrel; simpl; [|by rewrite app_nil_r].
    unfold rawRelationChunk, JS.or, JS.truthy.
    repeat (case_match; simplify_eq; simpl in *; try by rewrite app_nil_r);
      repeat case_bool_decide; simplify_eq; simpl in *;
      try done; try by rewrite app_nil_r.
Qed.

Lemma fold_rawPoint_relations maxEntities types points acc :
  raw_relations (fold_left (rawPoint maxEntities types) points acc)
  = (raw_relations acc ++ relationChunks points)%list.
Proof.
  revert acc. induction points as [|p points IH]; intros acc; simpl.
  - by rewrite app_nil_r.
  - rewrite IH, rawPoint_relations, <- app_assoc. f_equal.
    unfold relationChunks.
    change (omap relationOfPoint (p :: points)) with
      (match relationOfPoint p with
       | Some r => r :: omap relationOfPoint points
       | None => omap relationOfPoint points
       end).
    by destruct (relationOfPoint p).
Qed.

Lemma rawPoint_capped n types acc point :
  capped n acc → capped n (rawPoint (inject_Z n) types acc point).
Proof.
  intros [Hcount Hcap]. unfold rawPoint.
  destruct (pt_payload point) as [payload|]; [|done].
  repeat case_bool_decide; try done.
  - unfold rawMetadataChunk.
    destruct (Qlt_le_dec _ _) as [Hlt|]; [|done].
    rewrite <- Zlt_Qlt in Hlt.
    split; simpl; case_match; rewrite ?length_app; simpl; lia.
  - unfold rawRelationChunk. by case_match.
Qed.

Lemma fold_rawPoint_capped n types points acc :
  capped n acc → capped n (fold_left (rawPoint (inject_Z n) types) points acc).
Proof.
  revert acc. induction points as [|p points IH]; intros acc Hacc; [done|].
  simpl. by apply IH, rawPoint_capped.
Qed.

(** The scan, page by page. A full scan with a positive entity cap [n] asks
    for page after page until the store gives no further cursor (with fuel
    for that many pages, the scan ends in the state reached after the last
    page). It keeps at most [n] entities. The relation chunks of all the
    pages are collected, whatever [n] is. Without an entity type filter the
    relations returned are exactly those chunks, in order; with one, they
    are those chunks filtered by the types of the entities tracked, and
    these are tracked only while the cap is not reached. *)
Lemma getRawData_scans_every_page (n : Z) (types : option (list string))
    (st st' : State) (ps : list ScrollResult) :
  0 < n →
  pages None st ps st' →
  (length ps ≤ fuel)%nat →
  ∃ g,
    _getRawData (Some (inject_Z n)) types st = (Ok g, st')
    ∧ Z.of_nat (length (entities g)) <= n
    ∧ relations g
      = filterRelationsByEntityTypes (relationChunks (pointsOf ps))
          (trackedEntities n types (pointsOf ps)) types
    ∧ (actualEntityTypes types = [] →
       relations g = relationChunks (pointsOf ps)).
Proof.
  intros Hn Hpages Hfuel.
  set (maxEntities := JS.or_num (Some (inject_Z n)) (inject_Z JS.MAX_SAFE_INTEGER)).
  assert (maxEntities = inject_Z n) as Hmax.
  { unfold maxEntities, JS.or_num.
    destruct (Qeq_bool (inject_Z n) 0) eqn:Hz; [|done].
    apply Qeq_bool_eq in Hz. change 0%Q with (inject_Z 0) in Hz.
    rewrite inject_Z_injective in Hz. lia. }
  set (acc := fold_left (rawPoint maxEntities types) (pointsOf ps) emptyRawData).
  exists {| entities := raw_entities acc;
            relations := filterRelationsByEntityTypes (raw_relations acc)
                           (raw_allEntities acc) types |}.
  assert (raw_relations acc = relationChunks (pointsOf ps)) as Hrel.
  { unfold acc. by rewrite fold_rawPoint_relations. }
  repeat split.
  - unfold _getRawData. fold maxEntities.
    erewrite bind_ok; [done|].
    by apply rawDataLoop_pages.
  - simpl. unfold acc. rewrite Hmax.
    destruct (fold_rawPoint_capped n types (pointsOf ps) emptyRawData)
      as [Hc Hle]; [split; simpl; lia|].
    lia.
  - simpl. rewrite Hrel. unfold trackedEntities, acc. by rewrite Hmax.
  - intros Hnone. simpl. rewrite Hrel.
    unfold filterRelationsByEntityTypes. by rewrite Hnone.
Qed.

(** ** Scope expansion *)

Lemma first_seen_elem {K} `{EqDecision K} (x : K) seen l :
  x ∈ first_seen seen l ↔ x ∈ l ∧ x ∉ seen.
Proof.
  bare. revert seen. induction l as [|y l IH]; intros seen; simpl.
  - split; [by intros ?%elem_of_nil|by intros [?%elem_of_nil _]].
  - case_bool_decide as Hy.
    + rewrite IH, elem_of_cons. split; [naive_solver|].
      intros [[->|?] ?]; done.
    + rewrite elem_of_cons, IH, !elem_of_cons.
      destruct (decide (x = y)) as [->|Hne]; naive_solver.
Qed.

Lemma first_seen_NoDup {K} `{EqDecision K} (seen l : list K) :
  NoDup (first_seen seen l).
Proof.
  bare. revert seen. induction l as [|x l IH]; intros seen; simpl.
  - constructor.
  - case_bool_decide; [apply IH|]. constructor; [|apply IH].
    intros [_ Hx]%first_seen_elem. apply Hx. by left.
Qed.

Lemma mergeStep_keys m result :
  (∀ k r, m !! k = Some r → resultKey r = k) →
  ∀ k r, mergeStep m result !! k = Some r → resultKey r = k.
Proof.
  intros Hm k r. unfold mergeStep.
  destruct (m !! resultKey result) as [existing|] eqn:He;
    [destruct (Qlt_le_dec _ _)|];
    try (destruct (decide (resultKey result = k)) as [<-|Hne];
         [rewrite lookup_insert_eq; by intros [= <-]
         |rewrite lookup_insert_ne by done; apply Hm]).
  apply Hm.
Qed.

Lemma mergeStep_grows m result k :
  is_Some (m !! k) ∨ k = resultKey result → is_Some (mergeStep m result !! k).
Proof.
  unfold mergeStep. intros Hk.
  destruct (m !! resultKey result) as [existing|] eqn:He;
    [destruct (Qlt_le_dec _ _)|];
    try (destruct (decide (resultKey result = k)) as [<-|Hne];
         [rewrite lookup_insert_eq; by eexists
         |rewrite lookup_insert_ne by done; by destruct Hk]).
  destruct Hk as [?| ->]; [done|by eexists].
Qed.

Lemma fold_mergeStep results :
  ∀ m, (∀ k r, m !! k = Some r → resultKey r = k) →
    (∀ k r, fold_left mergeStep results m !! k = Some r → resultKey r = k)
    ∧ (∀ k, is_Some (m !! k) ∨ k ∈ map resultKey results →
            is_Some (fold_left mergeStep results m !! k)).
Proof.
  induction results as [|x results IH]; intros m Hm; simpl.
  - split; [done|]. intros k [?|?%elem_of_nil]; done.
  - destruct (IH (mergeStep m x) (mergeStep_keys m x Hm)) as [Hkeys Hgrow].
    split; [done|]. intros k Hk. apply Hgrow.
    rewrite elem_of_cons in Hk.
    destruct Hk as [Hk|[->|Hk]]; [left|left|by right];
      apply mergeStep_grows; auto.
Qed.

Lemma mergeAndDeduplicate_keys results :
  map resultKey (mergeAndDeduplicate results)
  = first_seen [] (map resultKey results).
Proof.
  unfold mergeAndDeduplicate.
  destruct (fold_mergeStep results ∅) as [Hkeys Hgrow];
    [intros k r; by rewrite lookup_empty|].
  set (m := fold_left mergeStep results ∅) in *.
  assert (∀ ks, (∀ k, k ∈ ks → k ∈ map resultKey results) →
                map resultKey (omap (fun key => m !! key) ks) = ks) as Hall.
  { induction ks as [|k ks IHks]; intros Hks; [done|].
    change (omap (fun key => m !! key) (k :: ks)) with
      (match m !! k with
       | Some r => r :: omap (fun key => m !! key) ks
       | None => omap (fun key => m !! key) ks
       end).
    destruct (Hgrow k) as [r Hr]; [right; apply Hks; by left|].
    rewrite Hr. simpl. rewrite (Hkeys _ _ Hr). f_equal.
    apply IHks. intros k' Hk'. apply Hks. by right. }
  apply Hall. intros k Hk. by apply first_seen_elem in Hk as [? _].
Qed.

Lemma mergeAndDeduplicate_names results :
  entityNames (mergeAndDeduplicate results) = entityNames results.
Proof.
  unfold entityNames. rewrite mergeAndDeduplicate_keys.
  apply set_eq. intros k. rewrite !elem_of_list_to_set, first_seen_elem.
  split; [by intros [? _]|]. intros ?. split; [done|]. by intros ?%elem_of_nil.
Qed.

Lemma entityNames_app base additional :
  entityNames base ⊆ entityNames (base ++ additional)%list.
Proof.
  bare.
  unfold entityNames. rewrite map_app, list_to_set_app. set_solver.
Qed.

(** An expansion query: a search whose answer, when it arrives, is merged
    into the base results, and whose failure leaves the base results. *)
Lemma expansion_superset (request : list Q → SearchRequest)
    (select : list ScoredPoint → list SearchResult)
    (baseResults : list SearchResult) st :
  ∃ results st',
    try_catch
      (vector <- zeroVector ;;
       answer <- client_search COLLECTION_NAME_asserted (request vector) ;;
       ret (mergeAndDeduplicate (baseResults ++ select answer)%list))
      (fun _ => ret baseResults) st
    = (Ok results, st')
    ∧ entityNames baseResults ⊆ entityNames results
    ∧ ((∀ r, is_Some (fault (n_calls st) (Search COLLECTION_NAME_asserted r))) →
       results = baseResults).
Proof.
  unfold try_catch, bind, zeroVector, get, client_search, call, on_collection,
    ret.
  set (r := request _).
  destruct (fault (n_calls st) (Search COLLECTION_NAME_asserted r)) eqn:Hf;
    simpl.
  { eexists _, _. by repeat split. }
  destruct (qdrant st !! COLLECTION_NAME_asserted) eqn:Hcol; simpl.
  - eexists _, _. split; [done|]. split.
    + rewrite mergeAndDeduplicate_names. apply entityNames_app.
    + intros Hdown. destruct (Hdown r) as [? Hr]. congruence.
  - eexists _, _. by repeat split.
Qed.

Lemma expandLogicalScope_superset baseResults metadata limit st :
  ∃ results st',
    expandLogicalScope baseResults metadata limit st = (Ok results, st')
    ∧ entityNames baseResults ⊆ entityNames results
    ∧ ((∀ r, is_Some (fault (n_calls st) (Search COLLECTION_NAME_asserted r))) →
       results = baseResults).
Proof.
  unfold expandLogicalScope.
  destruct (negb (JS.truthy (sm_file_path metadata))).
  { exists baseResults, st. by repeat split. }
  exact (expansion_superset
           (fun vector =>
              {| s_vector := vector; s_limit := JS.or_num limit 12;
                 s_with_payload := true;
                 s_filter := Some
                   {| must := [MatchValue "file_path"
                                 (default "" (sm_file_path metadata));
                               MatchValue "chunk_type" "implementation"];
                      should := match calls metadata with
                                | [] => []
                                | _ => [MatchAny "entity_name" (calls metadata)]
                                end |} |})
           (fun helperResults =>
              omap (fun result =>
                      payload ← sp_payload result;
                      if JS.includes (entity_name payload) (calls metadata)
                         || JS.startsWith "_" (entity_name payload)
                      then expansionResult result else None)
                helperResults)
           baseResults st).
Qed.

Lemma expandDependencyScope_superset baseResults metadata limit st :
  ∃ results st',
    expandDependencyScope baseResults metadata limit st = (Ok results, st')
    ∧ entityNames baseResults ⊆ entityNames results
    ∧ ((∀ r, is_Some (fault (n_calls st) (Search COLLECTION_NAME_asserted r))) →
       results = baseResults).
Proof.
  unfold expandDependencyScope.
  pose proof (expansion_superset
           (fun vector =>
              {| s_vector := vector; s_limit := JS.or_num limit 40;
                 s_with_payload := true;
                 s_filter := Some
                   {| must := [MatchValue "chunk_type" "implementation"];
                      should := [MatchAny "entity_name" (imports_used metadata);
                                 MatchAny "entity_name" (calls metadata)] |} |})
           (omap expansionResult) baseResults st) as Hexp.
  destruct (imports_used metadata), (calls metadata); try exact Hexp.
  exists baseResults, st. by repeat split.
Qed.

(** C7. Whenever the fetch with scope [minimal] returns, the fetch with
    scope [logical] and the fetch with scope [dependencies] return too, and
    every entity name of the minimal result is an entity name of theirs.
    When the expansion query fails, they return the minimal result
    itself. *)
Theorem scope_expansion_keeps_base (entityName : string) (limit : option Q)
    (scope : Scope) (st st1 : State) (base : list SearchResult) :
  getImplementationChunks entityName (Some minimal) limit st = (Ok base, st1) →
  scope = logical ∨ scope = dependencies →
  ∃ results st2,
    getImplementationChunks entityName (Some scope) limit st = (Ok results, st2)
    ∧ entityNames base ⊆ entityNames results
    ∧ ((∀ r, is_Some (fault (n_calls st1) (Search COLLECTION_NAME_asserted r))) →
       results = base).
Proof.
  unfold getImplementationChunks. simpl.
  intros ([] & sa & Hconn & H)%bind_inv_ok Hscope.
  apply bind_inv_ok in H as (c & sb & Hreq & H).
  apply bind_inv_ok in H as (base' & sc & Hbase & H).
  unfold ret in H. injection H as -> ->.
  erewrite bind_ok by exact Hconn.
  erewrite bind_ok by exact Hreq.
  erewrite bind_ok by exact Hbase.
  destruct Hscope as [-> | ->].
  - apply expandLogicalScope_superset.
  - apply expandDependencyScope_superset.
Qed.

(** ** Read failures *)

Lemma try_catch_default_no_throw {A} (m : M A) (a : A) st e st' :
  try_catch m (fun _ => ret a) st ≠ (Throw e, st').
Proof. unfold try_catch, ret. by destruct (m st) as [[?|?|] ?]. Qed.

Lemma try_catch_default_of_throw {A} (m : M A) (a : A) st e st' :
  m st = (Throw e, st') → try_catch m (fun _ => ret a) st = (Ok a, st').
Proof. unfold try_catch, ret. by intros ->. Qed.

Lemma client_search_down c r st :
  store_down (n_calls st) →
  ∃ e st', client_search c r st = (Throw e, st').
Proof.
  intros Hdown. unfold client_search, call.
  destruct (Hdown (n_calls st) (Search c r)) as [e ->]; [lia|done|].
  by eexists _, _.
Qed.

Lemma client_scroll_down c r st :
  store_down (n_calls st) →
  ∃ e st', client_scroll c r st = (Throw e, st').
Proof.
  intros Hdown. unfold client_scroll, call.
  destruct (Hdown (n_calls st) (Scroll c r)) as [e ->]; [lia|done|].
  by eexists _, _.
Qed.

Lemma generateEmbedding_outcome text st :
  (∃ e st', generateEmbedding text st = (Throw e, st'))
  ∨ (∃ v, generateEmbedding text st = (Ok v, set_calls (S (n_calls st)) st)).
Proof.
  unfold generateEmbedding, generateVoyageEmbedding, generateOpenAIEmbedding,
    try_catch, call, ret, throw.
  repeat (case_bool_decide || case_match); simplify_eq;
    try (left; by eexists _, _); right; by eexists.
Qed.

Lemma performSemanticSearch_down q types l st :
  store_down (n_calls st) →
  ∃ e st', performSemanticSearch q types l st = (Throw e, st').
Proof.
  intros Hdown. unfold performSemanticSearch.
  destruct (generateEmbedding_outcome q st) as [(e & st' & He)|(v & Hv)].
  - erewrite bind_throw by exact He. by eexists _, _.
  - erewrite bind_ok by exact Hv.
    edestruct (client_search_down COLLECTION_NAME_asserted) as (e & st' & Hs);
      [|erewrite bind_throw by exact Hs; by eexists _, _].
    intros n c Hn. apply Hdown. simpl in Hn. lia.
Qed.

Lemma slice0_nil {A} (l : Q) : JS.slice0 l (@nil A) = [].
Proof. unfold JS.slice0. case_match; apply take_nil. Qed.

Lemma bm25_search_empty q l types : bm25_search [] q l types = [].
Proof. unfold bm25_search. simpl. apply slice0_nil. Qed.

Lemma scrollMetadataChunks_down n c offset acc st :
  (0 < n)%nat → store_down (n_calls st) →
  ∃ e st', scrollMetadataChunks n c offset acc st = (Throw e, st')
           ∧ initialized st' = initialized st
           ∧ bm25Service st' = bm25Service st.
Proof.
  intros Hn Hdown. destruct n as [|n]; [lia|]. simpl.
  unfold bind, client_scroll, call.
  destruct (Hdown (n_calls st)
              (Scroll c {| r_limit := 100; r_offset := offset;
                           r_filter := metadataFilter |}))
    as [e ->]; [lia|done|].
  by eexists _, _.
Qed.

Lemma initializeBM25Index_down st :
  initialized st = true → JS.truthy COLLECTION_NAME = true →
  (0 < fuel)%nat → store_down (n_calls st) →
  ∃ st', initializeBM25Index st = (Ok tt, st') ∧ bm25Service st' = []
         ∧ initialized st' = true.
Proof.
  intros Hinit Hcfg Hfuel Hdown.
  unfold initializeBM25Index, bm25_clearDocuments.
  unfold bind at 1. unfold modify at 1.
  set (st0 := set_bm25Service [] st).
  assert (connect st0 = (Ok tt, st0)) as Hconn by by apply connect_initialized.
  destruct COLLECTION_NAME as [c|] eqn:Hc; [|done].
  assert (c ≠ "") as Hne.
  { intros ->. done. }
  destruct (scrollMetadataChunks_down fuel c None [] st0 Hfuel Hdown)
    as (e & st1 & Hscroll & Hi1 & Hb1).
  exists st1. split; [|by rewrite Hi1, Hb1].
  apply try_catch_default_of_throw with (e := e).
  erewrite bind_ok by exact Hconn.
  erewrite bind_ok by (apply require_collection_ok; [exact Hc|exact Hne]).
  by erewrite bind_throw by exact Hscroll.
Qed.

Lemma searchSimilar_down q types limit mode st :
  initialized st = true → JS.truthy COLLECTION_NAME = true →
  (0 < fuel)%nat → store_down (n_calls st) →
  ∃ st', searchSimilar q types limit mode st = (Ok [], st').
Proof.
  intros Hinit Hcfg Hfuel Hdown. unfold searchSimilar.
  erewrite bind_ok by by apply connect_initialized.
  destruct COLLECTION_NAME as [c|] eqn:Hc; [|done].
  assert (c ≠ "") as Hne by (by intros ->).
  erewrite bind_ok by (apply require_collection_ok; [exact Hc|exact Hne]).
  destruct (default semantic mode).
  - destruct (performSemanticSearch_down q types (default 20%Q limit) st Hdown)
      as (e & st' & Hs).
    exists st'. by eapply try_catch_default_of_throw.
  - unfold performKeywordSearch.
    rewrite <- Hc in Hcfg.
    destruct (initializeBM25Index_down st Hinit Hcfg Hfuel Hdown)
      as (st' & Hrebuild & Hempty & _).
    exists st'. unfold try_catch.
    erewrite bind_ok by by apply connect_initialized.
    erewrite bind_ok by (apply require_collection_ok; [exact Hc|exact Hne]).
    erewrite bind_ok by exact Hrebuild.
    unfold bind, get, ret. by rewrite Hempty, bm25_search_empty.
  - unfold performHybridSearch.
    destruct (performSemanticSearch_down q types (default 20%Q limit) st Hdown)
      as (e & st' & Hs).
    exists st'. eapply try_catch_default_of_throw.
    by erewrite bind_throw by exact Hs.
Qed.

Lemma searchSimilar_no_throw q types limit mode st e st' :
  initialized st = true → JS.truthy COLLECTION_NAME = true →
  searchSimilar q types limit mode st ≠ (Throw e, st').
Proof.
  intros Hinit Hcfg. unfold searchSimilar.
  erewrite bind_ok by by apply connect_initialized.
  destruct COLLECTION_NAME as [c|] eqn:Hc; [|done].
  assert (c ≠ "") as Hne by (by intros ->).
  erewrite bind_ok by (apply require_collection_ok; [exact Hc|exact Hne]).
  apply try_catch_default_no_throw.
Qed.

Lemma scrollAll_down options st :
  initialized st = true → JS.truthy COLLECTION_NAME = true →
  store_down (n_calls st) →
  ∃ e st', scrollAll options st = (Throw e, st').
Proof.
  intros Hinit Hcfg Hdown. unfold scrollAll, initialize.
  destruct COLLECTION_NAME as [c|] eqn:Hc; [|done].
  assert (c ≠ "") as Hne by (by intros ->).
  destruct (Hdown (n_calls st) GetCollections) as [e He]; [lia|done|].
  eexists _, _. eapply bind_throw.
  erewrite bind_ok by by apply connect_initialized.
  erewrite bind_ok by (apply require_collection_ok; [exact Hc|exact Hne]).
  unfold try_catch, bind at 1, client_getCollections, call.
  rewrite He. reflexivity.
Qed.

(** C4. Once the server is initialized and configured, a search in any
    mode and a graph read never end in an error, whatever the store and
    the embedding provider do: an error of the retrieval of the requested
    mode is answered with the empty list, an error of the scan with the
    empty graph. In particular, when the store is down (every call to it
    fails), a search in any mode returns the empty list and a graph read
    returns the empty graph. *)
Theorem read_failures_degrade_to_empty (st : State) :
  initialized st = true →
  JS.truthy COLLECTION_NAME = true →
  (0 < fuel)%nat →
  (∀ q types limit mode e st',
     searchSimilar q types limit mode st ≠ (Throw e, st'))
  ∧ (∀ options e st', getGraph options st ≠ (Throw e, st'))
  ∧ (∀ limit types e st', getRawGraph limit types st ≠ (Throw e, st'))
  ∧ (∀ q types limit mode e st',
       (match mode with
        | semantic => performSemanticSearch
        | keyword => performKeywordSearch
        | hybrid => performHybridSearch
        end) q types (default 20%Q limit) st = (Throw e, st') →
       searchSimilar q types limit (Some mode) st = (Ok [], st'))
  ∧ (∀ options e st',
       scrollAll options st = (Throw e, st') →
       getGraph options st = (Ok emptyGraph, st'))
  ∧ (store_down (n_calls st) →
     (∀ q types limit mode,
        ∃ st', searchSimilar q types limit mode st = (Ok [], st'))
     ∧ (∀ options, ∃ st', getGraph options st = (Ok emptyGraph, st'))
     ∧ (∀ limit types,
          ∃ st', getRawGraph limit types st = (Ok emptyGraph, st'))).
Proof.
  intros Hinit Hcfg Hfuel.
  split; [intros; by apply searchSimilar_no_throw|].
  split; [intros; apply try_catch_default_no_throw|].
  split; [intros; apply try_catch_default_no_throw|].
  split.
  { intros q types limit mode e st' Hthrow. unfold searchSimilar.
    erewrite bind_ok by by apply connect_initialized.
    destruct COLLECTION_NAME as [c|] eqn:Hc; [|done].
    assert (c ≠ "") as Hne by (by intros ->).
    erewrite bind_ok by (apply require_collection_ok; [exact Hc|exact Hne]).
    simpl. apply try_catch_default_of_throw with (e := e).
    by destruct mode. }
  split; [intros options e st' Hthrow; by eapply try_catch_default_of_throw|].
  intros Hdown.
  split; [intros; by apply searchSimilar_down|].
  split.
  - intros options.
    destruct (scrollAll_down options st Hinit Hcfg Hdown) as (e & st' & Hs).
    exists st'. by eapply try_catch_default_of_throw.
  - intros limit types.
    destruct (scrollAll_down
                (Some {| mode := Some raw; entityTypes := types;
                         limit := limit |}) st Hinit Hcfg Hdown)
      as (e & st' & Hs).
    exists st'. by eapply try_catch_default_of_throw.
Qed.

(** ** Reciprocal rank fusion *)

Lemma rank_from_absent {K} `{EqDecision K} (doc : K) l i :
  doc ∉ l → rank_from i doc l = None.
Proof.
  revert i. induction l as [|x l IH]; intros i Hl; simpl; [done|].
  apply not_elem_of_cons in Hl as [Hne Hl].
  rewrite bool_decide_eq_false_2 by done. by apply IH.
Qed.

Lemma rank_from_first {K} `{EqDecision K} (doc : K) l i k :
  l !! k = Some doc → (∀ j, (j < k)%nat → l !! j ≠ Some doc) →
  rank_from i doc l = Some (i + k)%nat.
Proof.
  revert i k. induction l as [|x l IH]; intros i k Hk Hfirst; [done|].
  simpl. destruct k as [|k].
  - simpl in Hk. injection Hk as ->.
    rewrite bool_decide_eq_true_2 by done. f_equal. lia.
  - rewrite bool_decide_eq_false_2.
    + rewrite (IH (S i) k); [f_equal; lia|done|].
      intros j Hj. apply (Hfirst (S j)). lia.
    + intros ->. by apply (Hfirst 0%nat); [lia|].
Qed.

Lemma slice0_take {A} (n : Q) (l : list A) : ∃ k, JS.slice0 n l = take k l.
Proof. unfold JS.slice0. case_match; by eexists. Qed.

Lemma slice0_length {A} (n : Q) (l : list A) :
  (0 <= n)%Q → Z.of_nat (length (JS.slice0 n l)) <= Qfloor n.
Proof.
  intros Hn. unfold JS.slice0, JS.trunc.
  rewrite (proj2 (Qle_bool_iff 0 n) Hn).
  assert (0 <= Qfloor n) as Hfloor.
  { change 0 with (Qfloor 0). by apply Qfloor_resp_le. }
  rewrite (proj2 (Z.leb_le _ _) Hfloor), length_take. lia.
Qed.

Lemma elem_of_omap_inv {A B} (f : A → option B) (l : list A) (y : B) :
  y ∈ omap f l → ∃ x, x ∈ l ∧ f x = Some y.
Proof. rewrite list_elem_of_omap. naive_solver. Qed.

(** A list filtered through [omap], with what each kept element was made
    of. *)
Lemma omap_paired {A B} (g : A → option B) (l : list A) :
  let pairs := omap (fun a => b ← g a; Some (a, b)) l in
  map snd pairs = omap g l
  ∧ Forall (fun p => g p.1 = Some p.2) pairs
  ∧ ((∀ a, a ∈ l → is_Some (g a)) → map fst pairs = l).
Proof.
  bare. cbv zeta. induction l as [|a l (IH1 & IH2 & IH3)]; [done|].
  cbn [omap list_omap]. destruct (g a) as [b|] eqn:Hg; cbn.
  - split; [by rewrite IH1|]. split; [by constructor|].
    intros Hall. rewrite IH3; [done|]. intros a' Ha'. apply Hall. by right.
  - split; [done|]. split; [done|].
    intros Hall. destruct (Hall a) as [b Hb]; [by left|]. congruence.
Qed.

Lemma find_elem_of_map {A B} `{EqDecision B} (f : A → B) (y : B) (l : list A) :
  y ∈ map f l → is_Some (List.find (fun x => bool_decide (f x = y)) l).
Proof.
  bare. induction l as [|x l IH]; simpl; [by intros ?%elem_of_nil|].
  intros [->|Hy]%elem_of_cons.
  - rewrite bool_decide_eq_true_2 by done. by eexists.
  - case_bool_decide; [by eexists|by apply IH].
Qed.

(** Every document of either list has a chunk to be fused with. *)
Lemma fusedData_is_Some semanticResults keywordResults doc :
  doc ∈ map semanticDoc semanticResults
  ∨ doc ∈ map keywordDoc keywordResults →
  is_Some (fusedData semanticResults keywordResults doc).
Proof.
  bare. unfold fusedData. intros [Hdoc|Hdoc].
  - by destruct (find_elem_of_map semanticDoc doc semanticResults Hdoc)
      as [r ->].
  - destruct (List.find _ semanticResults); [by eexists|].
    by destruct (find_elem_of_map keywordDoc doc keywordResults Hdoc)
      as [r ->].
Qed.

(** The fused list, document by document: it stands for the documents of
    the two lists, each once, in the order of their fused scores, documents
    of one score in the order they were first met; each result carries the
    fused score and the chunk of its document. *)
Lemma fuseResults_documents semanticResults keywordResults collection wS wK K :
  let semanticDocs := map semanticDoc semanticResults in
  let keywordDocs := map keywordDoc keywordResults in
  let met := first_seen [] (semanticDocs ++ keywordDocs)%list in
  let fused := fused_score semanticDocs keywordDocs wS wK K in
  ∃ docs,
    docs ≡ₚ met
    ∧ (∀ q, filter (fun doc => Qeq_bool (fused doc) q = true) docs
            = filter (fun doc => Qeq_bool (fused doc) q = true) met)
    ∧ Forall2 (fun doc r =>
                 score r = fused doc
                 ∧ fusedData semanticResults keywordResults doc
                   = Some (data r))
        docs
        (fuseResults semanticResults keywordResults collection wS wK K).
Proof.
  bare. intros semanticDocs keywordDocs met fused.
  set (g := fun doc =>
              payload ← fusedData semanticResults keywordResults doc;
              Some {| sr_type := "chunk"; score := fused doc;
                      data := payload |}).
  destruct (omap_paired g met) as (Hsnd & Hpairs & Hfst).
  set (pairs := omap (fun a => b ← g a; Some (a, b)) met) in *.
  assert (map fst pairs = met) as Hmet.
  { apply Hfst. intros doc [Hdoc _]%first_seen_elem.
    apply elem_of_app in Hdoc.
    destruct (fusedData_is_Some semanticResults keywordResults doc Hdoc)
      as [payload Hpayload].
    unfold g. rewrite Hpayload. by eexists. }
  assert (Forall (fun p : option string * SearchResult =>
                    score p.2 = fused p.1
                    ∧ fusedData semanticResults keywordResults p.1
                      = Some (data p.2)) pairs) as Hgood.
  { eapply Forall_impl; [exact Hpairs|]. intros [doc r] Hg. simpl in *.
    unfold g in Hg.
    destruct (fusedData semanticResults keywordResults doc) as [payload|];
      simpl in Hg; [|done].
    by injection Hg as <-. }
  set (sorted := sort_desc (fun p : option string * SearchResult => score p.2)
                   pairs).
  assert (fuseResults semanticResults keywordResults collection wS wK K
          = map snd sorted) as ->.
  { unfold fuseResults. fold semanticDocs keywordDocs met fused g.
    rewrite <- Hsnd. apply sort_desc_map. }
  assert (sorted ≡ₚ pairs) as Hperm by apply sort_desc_perm.
  exists (map fst sorted). split; [|split].
  - by rewrite Hperm, Hmet.
  - intros q. rewrite <- Hmet.
    assert (∀ l : list (option string * SearchResult),
              Forall (fun p => score p.2 = fused p.1) l →
              filter (fun doc => Qeq_bool (fused doc) q = true) (map fst l)
              = map fst (filter (fun p => Qeq_bool (score p.2) q = true) l))
      as Hfilter.
    { clear. induction l as [|p l IH]; intros Hl; [done|].
      apply Forall_cons in Hl as [Hp Hl]. simpl.
      rewrite !filter_cons, IH by done. rewrite Hp.
      by destruct (decide (Qeq_bool (fused p.1) q = true)). }
    rewrite !Hfilter.
    + unfold sorted. by rewrite sort_desc_stable.
    + eapply Forall_impl; [exact Hgood|]. by intros p [? _].
    + rewrite Hperm. eapply Forall_impl; [exact Hgood|]. by intros p [? _].
  - apply Forall2_fmap. apply Forall_Forall2_diag.
    rewrite Hperm. exact Hgood.
Qed.

(** C2, amended. A hybrid search returns the fusion of the semantic results
    with the keyword results, cut to the limit. The fused list stands for
    the documents of the two lists, each of them once: the result of a
    document [doc] carries the chunk found for it and the score
    [0.7 / (60 + rank of doc in the semantic list)], when it is there, plus
    [0.3 / (60 + rank of doc in the keyword list)], when it is there, with
    ranks counted from 1 at the first occurrence. The list is sorted by
    descending score, documents of one score in the order they were first
    met (semantic list first), and the search returns its first results,
    at most [limit]. With semantic ranks D1, D2, D3 and keyword ranks
    D3, D1 the fused order is D1, D3, D2 with scores 0.7/61 + 0.3/62,
    0.7/63 + 0.3/61 and 0.7/62: in the keyword list D3 has rank 1 and D1
    has rank 2. *)
Theorem hybrid_search_fuses_by_rank (q : string) (types : option (list string))
    (limit : Q) (st st' : State) (results : list SearchResult) :
  performHybridSearch q types limit st = (Ok results, st') →
  ∃ semanticResults keywordResults docs,
    performSemanticSearch q types limit st = (Ok semanticResults, st')
    ∧ keywordResults = bm25_search (bm25Service st') q limit types
    ∧ (let semanticDocs := map semanticDoc semanticResults in
       let keywordDocs := map keywordDoc keywordResults in
       let fused doc :=
         (match rank doc semanticDocs with
          | Some i => 0.7 / (60 + inject_Z (Z.of_nat i))
          | None => 0
          end
          + match rank doc keywordDocs with
            | Some i => 0.3 / (60 + inject_Z (Z.of_nat i))
            | None => 0
            end)%Q in
       let fusedResults :=
         fuseResults semanticResults keywordResults COLLECTION_NAME_asserted
           0.7 0.3 60 in
       NoDup docs
       ∧ (∀ doc, doc ∈ docs ↔ doc ∈ semanticDocs ∨ doc ∈ keywordDocs)
       ∧ Forall2 (fun doc r =>
                    score r = fused doc
                    ∧ fusedData semanticResults keywordResults doc
                      = Some (data r))
           docs fusedResults
       ∧ sorted_desc score fusedResults
       ∧ (∀ s, filter (fun doc => Qeq_bool (fused doc) s = true) docs
               = filter (fun doc => Qeq_bool (fused doc) s = true)
                   (first_seen [] (semanticDocs ++ keywordDocs)%list))
       ∧ results = JS.slice0 limit fusedResults
       ∧ (∃ k, results = take k fusedResults)
       ∧ sorted_desc score results
       ∧ ((0 <= limit)%Q → Z.of_nat (length results) <= Qfloor limit))
    ∧ (∀ (doc : option string) l,
         (doc ∉ l → rank doc l = None)
         ∧ (∀ k, l !! k = Some doc → (∀ j, (j < k)%nat → l !! j ≠ Some doc) →
                 rank doc l = Some (S k)))
    ∧ (let fused :=
         fuseResults
           [semanticHit "D1" 0.9; semanticHit "D2" 0.8; semanticHit "D3" 0.7]
           [keywordHit "D3" 5; keywordHit "D1" 4]
           COLLECTION_NAME_asserted 0.7 0.3 60 in
       map (fun r => entity_name (data r)) fused = ["D1"; "D3"; "D2"]
       ∧ Forall2 Qeq (map score fused)
           [0.7 / 61 + 0.3 / 62; 0.7 / 63 + 0.3 / 61; 0.7 / 62]%Q).
Proof.
  unfold performHybridSearch.
  intros (semanticResults & st1 & Hsem & H)%bind_inv_ok.
  apply bind_inv_ok in H as (index & st2 & Hget & H).
  unfold get in Hget. injection Hget as <- <-.
  unfold ret in H. injection H as <- <-.
  set (keywordResults := bm25_search (bm25Service st1) q limit types).
  destruct (fuseResults_documents semanticResults keywordResults
              COLLECTION_NAME_asserted 0.7 0.3 60)
    as (docs & Hperm & Hties & Hdocs).
  exists semanticResults, keywordResults, docs.
  split; [done|]. split; [done|]. split; [|split].
  - cbv zeta.
    set (fusedResults := fuseResults semanticResults keywordResults
                           COLLECTION_NAME_asserted 0.7 0.3 60) in *.
    destruct (slice0_take limit fusedResults) as [k Hk].
    split; [rewrite Hperm; apply first_seen_NoDup|].
    split.
    { intros doc. rewrite Hperm, first_seen_elem, elem_of_app.
      split; [by intros [? _]|]. intros Hdoc. split; [done|].
      by intros ?%elem_of_nil. }
    split; [exact Hdocs|].
    split; [unfold fusedResults, fuseResults; apply sort_desc_sorted|].
    split; [exact Hties|]. split; [done|]. split; [by exists k|].
    split; [|apply slice0_length].
    rewrite Hk. apply sorted_desc_take.
    unfold fusedResults, fuseResults. apply sort_desc_sorted.
  - intros doc l. split; [apply rank_from_absent|].
    intros k Hk Hfirst. unfold rank.
    by rewrite (rank_from_first doc l 1 k Hk Hfirst).
  - split; [by vm_compute|].
    match goal with |- Forall2 _ ?l _ => let l' := eval vm_compute in l in
      change l with l' end.
    repeat (constructor; [reflexivity|]). constructor.
Qed.

Lemma scanned_pages n offset st ps st' :
  scanned n offset st = Some (ps, st') → pages offset st ps st'.
Proof.
  revert offset st ps st'. induction n as [|n IH]; intros offset st ps st';
    simpl;
    destruct (client_scroll COLLECTION_NAME_asserted (rawRequest offset) st)
      as [[page| |] st1] eqn:Hpage; try done;
    destruct (usable_offset (next_page_offset page)) as [offset'|] eqn:Hnext;
    try done.
  - intros [= <- <-]. by apply pages_last.
  - destruct (scanned n (Some offset') st1) as [[rest st2]|] eqn:Hrest;
      [|done].
    intros [= <- <-]. eapply pages_next; [done|done|]. by apply IH.
  - intros [= <- <-]. by apply pages_last.
Qed.

(** ** The keyword index and the hybrid search *)

Lemma generateEmbedding_keeps_index text st r st' :
  generateEmbedding text st = (r, st') → bm25Service st' = bm25Service st.
Proof.
  unfold generateEmbedding, generateVoyageEmbedding, generateOpenAIEmbedding,
    try_catch, call, ret, throw.
  repeat (case_bool_decide || case_match); intros; by simplify_eq.
Qed.

Lemma performSemanticSearch_keeps_index q types l st r st' :
  performSemanticSearch q types l st = (r, st') →
  bm25Service st' = bm25Service st.
Proof.
  unfold performSemanticSearch, bind.
  destruct (generateEmbedding q st) as [[v|e|] st1] eqn:Hemb;
    apply generateEmbedding_keeps_index in Hemb;
    [|intros; by simplify_eq..].
  unfold client_search, call, on_collection, ret.
  repeat case_match; intros; simplify_eq; by rewrite <- Hemb.
Qed.

(** A hybrid search reads the keyword index as it stands and leaves it as
    it is: nothing is scrolled, nothing is rebuilt. *)
Lemma performHybridSearch_reads_index q types l st results st' :
  performHybridSearch q types l st = (Ok results, st') →
  bm25Service st' = bm25Service st
  ∧ ∃ semanticResults,
      performSemanticSearch q types l st = (Ok semanticResults, st')
      ∧ results
        = JS.slice0 l
            (fuseResults semanticResults
               (bm25_search (bm25Service st) q l types)
               COLLECTION_NAME_asserted 0.7 0.3 60).
Proof.
  unfold performHybridSearch.
  intros (semanticResults & st1 & Hsem & H)%bind_inv_ok.
  apply bind_inv_ok in H as (index & st2 & Hget & H).
  unfold get in Hget. injection Hget as <- <-.
  unfold ret in H. injection H as <- <-.
  pose proof (performSemanticSearch_keeps_index _ _ _ _ _ _ Hsem) as Hkeep.
  split; [done|]. exists semanticResults. by rewrite Hkeep.
Qed.


(** ** Point identifiers *)

Lemma byte_value_range b : 0 <= byte_value b < 256.
Proof.
  unfold byte_value. pose proof (Byte.to_N_bounded b). lia.
Qed.

Lemma lor_shiftl_add a b k :
  0 <= k → 0 <= b < 2 ^ k → Z.lor (Z.shiftl a k) b = a * 2 ^ k + b.
Proof.
  intros Hk Hb. rewrite Z.shiftl_mul_pow2 by done.
  assert (Z.land (a * 2 ^ k) b = 0) as Hland.
  { destruct (Z.eq_dec b 0) as [->|Hb0]; [apply Z.land_0_r|].
    apply Z.bits_inj'. intros n Hn. rewrite Z.land_spec, Z.bits_0.
    destruct (Z.lt_ge_cases n k).
    - by rewrite Z.mul_pow2_bits_low by lia.
    - rewrite (Z.bits_above_log2 b n), andb_false_r; [done|lia|].
      assert (Z.log2 b < k); [|lia]. apply Z.log2_lt_pow2; lia. }
  rewrite <- Z.lxor_lor, <- Z.add_nocarry_lxor; done.
Qed.

(** X1. A point id is the big-endian value of the first four bytes of the
    digest, an unsigned 32-bit integer. Hashing changes no state. *)
Theorem hashString_uint32 (str : string) (st : State)
    (b0 b1 b2 b3 : Byte.byte) (rest : list Byte.byte) :
  sha256 str = b0 :: b1 :: b2 :: b3 :: rest →
  let id := byte_value b0 * 2 ^ 24 + byte_value b1 * 2 ^ 16
            + byte_value b2 * 2 ^ 8 + byte_value b3 in
  hashString str st = (Ok id, st) ∧ 0 <= id < 2 ^ 32.
Proof.
  intros Hd id. unfold hashString, readUInt32BE. rewrite Hd. unfold ret.
  pose proof (byte_value_range b0). pose proof (byte_value_range b1).
  pose proof (byte_value_range b2). pose proof (byte_value_range b3).
  fold (byte_value b0) (byte_value b1) (byte_value b2) (byte_value b3).
  rewrite (lor_shiftl_add (byte_value b2) (byte_value b3) 8) by lia.
  rewrite (lor_shiftl_add (byte_value b1) _ 16) by lia.
  rewrite (lor_shiftl_add (byte_value b0) _ 24) by lia.
  split; [|unfold id; lia].
  f_equal. f_equal. unfold id. lia.
Qed.

(** ** Connecting *)

(** X2. [connect] on a fresh object asks for the collections up to three
    times and stops at the first answer; when the third attempt fails too it
    throws with the message of that last failure, and the object stays
    unconnected. *)
Theorem connect_three_attempts (st : State) :
  initialized st = false →
  let n := n_calls st in
  connect st
  = match fault n GetCollections, fault (S n) GetCollections,
          fault (S (S n)) GetCollections with
    | None, _, _ => (Ok tt, set_initialized true (set_calls (S n) st))
    | Some _, None, _ =>
        (Ok tt, set_initialized true (set_calls (S (S n)) st))
    | Some _, Some _, None =>
        (Ok tt, set_initialized true (set_calls (S (S (S n))) st))
    | Some _, Some _, Some message =>
        (Throw ("Failed to connect to Qdrant after multiple attempts: "
                +:+ message),
         set_calls (S (S (S n))) st)
    end.
Proof.
  intros Hi n. unfold connect, bind at 1, get. rewrite Hi.
  unfold connect_attempts, try_catch, bind, client_getCollections, call, get,
    modify, throw. subst n. simpl.
  destruct (fault (n_calls st) GetCollections); [|done]. simpl.
  destruct (fault (S (n_calls st)) GetCollections); [|done]. simpl.
  by destruct (fault (S (S (n_calls st))) GetCollections).
Qed.

Lemma connect_ok_initialized st st' :
  connect st = (Ok tt, st') → initialized st' = true.
Proof.
  unfold connect, bind at 1, get. destruct (initialized st) eqn:Hi.
  - unfold ret. intros H. by simplify_eq.
  - unfold connect_attempts, try_catch, bind, client_getCollections, call,
      get, modify, throw. simpl.
    repeat (case_match; simpl); intros; by simplify_eq.
Qed.

(** ** Initialising *)

(** X3. When [initialize] succeeds the object is connected and the
    configured collection exists. A collection that existed is left as it
    was and the object adopts its vector size (old or new layout; none or
    zero leaves the size as it is); a missing collection is created empty,
    with 512 dimensions for the Voyage provider and 1536 otherwise. No other
    collection is touched. *)
Theorem initialize_ensures_collection (st st' : State) :
  initialize st = (Ok tt, st') →
  ∃ c,
    COLLECTION_NAME = Some c ∧ c ≠ ""
    ∧ initialized st' = true
    ∧ is_Some (qdrant st' !! c)
    ∧ (∀ k col, qdrant st !! k = Some col → qdrant st' !! k = Some col)
    ∧ match qdrant st !! c with
      | Some col =>
          qdrant st' = qdrant st
          ∧ vectorSize st'
            = match currentVectorSize col with
              | Some n => if n =? 0 then vectorSize st else n
              | None => vectorSize st
              end
      | None =>
          qdrant st'
          = <[c := emptyCollection
                     (if bool_decide (toLowerCase <$> EMBEDDING_PROVIDER
                                      = Some "voyage")
                      then 512 else 1536)]> (qdrant st)
          ∧ vectorSize st'
            = (if bool_decide (toLowerCase <$> EMBEDDING_PROVIDER
                               = Some "voyage")
               then 512 else 1536)
      end.
Proof.
  intros ([] & st1 & Hconn & H)%bind_inv_ok.
  pose proof (connect_ok_initialized _ _ Hconn) as Hinit.
  assert (vectorSize st1 = vectorSize st) as Hvs.
  { revert Hconn. unfold connect, bind at 1, get. destruct (initialized st).
    - unfold ret. intros ?. by simplify_eq.
    - unfold connect_attempts, try_catch, bind, client_getCollections, call,
        get, modify, throw. simpl.
      repeat (case_match; simpl); intros; by simplify_eq. }
  apply connect_same_store in Hconn. unfold same_store in Hconn.
  apply bind_inv_ok in H
    as (c & st2 & (Hc & Hne & ->)%require_collection_inv_ok & H).
  exists c. split; [done|]. split; [done|].
  apply try_catch_inv_ok in H as [H|(e & st3 & _ & H)]; [|done].
  apply bind_inv_ok in H as (collections & st3 & Hcols & H).
  apply call_inv_ok in Hcols as [_ Hcols]. unfold get in Hcols.
  injection Hcols as <- <-.
  rewrite <- Hconn.
  case_bool_decide as Hin.
  - apply elem_of_dom in Hin as [col Hcol]. simpl in Hcol.
    rewrite Hcol.
    apply bind_inv_ok in H as (info & st4 & Hinfo & H).
    apply call_inv_ok in Hinfo as [_ Hinfo].
    unfold on_collection in Hinfo. simpl in Hinfo. rewrite Hcol in Hinfo.
    unfold ret in Hinfo. injection Hinfo as <- <-.
    assert (qdrant st' = qdrant st1
            ∧ initialized st' = true
            ∧ vectorSize st'
              = match currentVectorSize col with
                | Some n => if n =? 0 then vectorSize st else n
                | None => vectorSize st
                end) as (Hq & Hi & Hv).
    { revert H. unfold updateEmbeddingModel, modify, ret.
      destruct (currentVectorSize col) as [n|]; [destruct (n =? 0)|];
        intros H; simplify_eq; simpl; by rewrite ?Hvs. }
    split; [done|]. rewrite Hq. split; [by eexists|]. by split.
  - apply not_elem_of_dom in Hin. simpl in Hin. rewrite Hin.
    apply bind_inv_ok in H as ([] & st4 & Hcreate & H).
    apply call_inv_ok in Hcreate as [_ Hcreate]. simpl in Hcreate.
    rewrite Hin in Hcreate. injection Hcreate as <-.
    unfold modify in H. injection H as <-. simpl.
    split; [done|]. split; [by rewrite lookup_insert_eq|].
    split; [|done].
    intros k col Hk. rewrite lookup_insert_ne; [done|]. congruence.
Qed.


(** ** What a computation leaves of the store

    The lemmas hold for every relation [R] on states that contains the
    pairs with the same store and is transitive. *)

Create HintDb preserves.

Section Preserves.

Context (R : State → State → Prop).
Hypothesis R_same : ∀ st st', qdrant st' = qdrant st → R st st'.
Hypothesis R_trans : ∀ st1 st2 st3, R st1 st2 → R st2 st3 → R st1 st3.

Lemma preserves_ret {A} (a : A) : preserves R (ret a).
Proof using R_same.
  intros st r st' H. unfold ret in H. simplify_eq. by apply R_same.
Qed.

Lemma preserves_throw {A} e : preserves R (@throw A e).
Proof using R_same.
  intros st r st' H. unfold throw in H. simplify_eq. by apply R_same.
Qed.

Lemma preserves_out_of_fuel {A} : preserves R (@out_of_fuel A).
Proof using R_same.
  intros st r st' H. unfold out_of_fuel in H. simplify_eq. by apply R_same.
Qed.

Lemma preserves_get {A} (f : State → A) : preserves R (get f).
Proof using R_same.
  intros st r st' H. unfold get in H. simplify_eq. by apply R_same.
Qed.

Lemma preserves_lift {A} (o : Outcome A) : preserves R (lift o).
Proof using R_same.
  intros st r st' H. unfold lift in H. simplify_eq. by apply R_same.
Qed.

Lemma preserves_modify (f : State → State) :
  (∀ st, qdrant (f st) = qdrant st) → preserves R (modify f).
Proof using R_same.
  intros Hf st r st' H. unfold modify in H. simplify_eq. by apply R_same.
Qed.

Lemma preserves_bind_ok {A B} (m : M A) (k : A → M B) :
  preserves R m →
  (∀ a, (∃ st st1, m st = (Ok a, st1)) → preserves R (k a)) →
  preserves R (bind m k).
Proof using R_trans.
  intros Hm Hk st r st'. unfold bind.
  destruct (m st) as [[a|e|] st1] eqn:Hst; intros H.
  - eapply R_trans; [by eapply Hm|]. eapply Hk; [by eauto|done].
  - simplify_eq. by eapply Hm.
  - simplify_eq. by eapply Hm.
Qed.

Lemma preserves_bind {A B} (m : M A) (k : A → M B) :
  preserves R m → (∀ a, preserves R (k a)) → preserves R (bind m k).
Proof using R_trans.
  intros Hm Hk. apply preserves_bind_ok; [done|]. intros a _. apply Hk.
Qed.

Lemma preserves_try_catch {A} (m : M A) (h : string → M A) :
  preserves R m → (∀ e, preserves R (h e)) → preserves R (try_catch m h).
Proof using R_trans.
  intros Hm Hh st r st'. unfold try_catch.
  destruct (m st) as [[a|e|] st1] eqn:Hst; intros H.
  - simplify_eq. by eapply Hm.
  - eapply R_trans; [by eapply Hm|by eapply Hh].
  - simplify_eq. by eapply Hm.
Qed.

Lemma preserves_call {A} (c : Call) (answer : M A) :
  preserves R answer → preserves R (call c answer).
Proof using R_same R_trans.
  intros Ha st r st'. unfold call.
  destruct (fault (n_calls st) c); intros H.
  - simplify_eq. by apply R_same.
  - eapply R_trans; [|by eapply Ha]. by apply R_same.
Qed.

Lemma preserves_on_collection {A} c (k : Collection → M A) :
  (∀ col, preserves R (k col)) → preserves R (on_collection c k).
Proof using R_same.
  intros Hk st r st'. unfold on_collection.
  destruct (qdrant st !! c); intros H.
  - by eapply Hk.
  - simplify_eq. by apply R_same.
Qed.

Lemma preserves_connect : preserves R connect.
Proof using R_same.
  intros st r st' H. apply R_same. by eapply connect_same_store.
Qed.

Lemma preserves_generateEmbedding text : preserves R (generateEmbedding text).
Proof using R_same.
  intros st r st' H. apply R_same. by eapply generateEmbedding_same_store.
Qed.

Lemma preserves_require_collection w : preserves R (require_collection w).
Proof using R_same.
  unfold require_collection.
  repeat (case_match || case_bool_decide);
    (apply preserves_ret || apply preserves_throw).
Qed.

#[local] Hint Resolve preserves_ret preserves_throw preserves_out_of_fuel
  preserves_get preserves_lift preserves_connect preserves_generateEmbedding
  preserves_require_collection : preserves.

Ltac preserve :=
  repeat first
    [ solve [eauto 2 with preserves]
    | apply preserves_modify; done
    | apply preserves_bind; [|intros ?]
    | apply preserves_try_catch; [|intros ?]
    | apply preserves_call
    | apply preserves_on_collection; intros ?
    | case_match
    | case_bool_decide ].

Lemma preserves_client_search c r : preserves R (client_search c r).
Proof using R_same R_trans. unfold client_search. preserve. Qed.

Lemma preserves_client_scroll c r : preserves R (client_scroll c r).
Proof using R_same R_trans. unfold client_scroll. preserve. Qed.

Lemma preserves_client_getCollections : preserves R client_getCollections.
Proof using R_same R_trans. unfold client_getCollections. preserve. Qed.

Lemma preserves_client_getCollection c : preserves R (client_getCollection c).
Proof using R_same R_trans. unfold client_getCollection. preserve. Qed.

Lemma preserves_zeroVector : preserves R zeroVector.
Proof using R_same. unfold zeroVector. preserve. Qed.

#[local] Hint Resolve preserves_client_search preserves_client_scroll
  preserves_client_getCollections preserves_client_getCollection
  preserves_zeroVector : preserves.

Lemma preserves_performSemanticSearch q types l :
  preserves R (performSemanticSearch q types l).
Proof using R_same R_trans. unfold performSemanticSearch. preserve. Qed.

Lemma preserves_scrollMetadataChunks n c offset acc :
  preserves R (scrollMetadataChunks n c offset acc).
Proof using R_same R_trans.
  revert offset acc. induction n as [|n IH]; intros offset acc; simpl.
  - preserve.
  - apply preserves_bind; [preserve|]. intros scrollResult.
    destruct (usable_offset _); [apply IH|preserve].
Qed.

#[local] Hint Resolve preserves_performSemanticSearch
  preserves_scrollMetadataChunks : preserves.

Lemma preserves_initializeBM25Index : preserves R initializeBM25Index.
Proof using R_same R_trans.
  unfold initializeBM25Index, bm25_clearDocuments, bm25_updateDocuments.
  preserve.
Qed.

#[local] Hint Resolve preserves_initializeBM25Index : preserves.

Lemma preserves_performKeywordSearch q types l :
  preserves R (performKeywordSearch q types l).
Proof using R_same R_trans. unfold performKeywordSearch. preserve. Qed.

Lemma preserves_performHybridSearch q types l :
  preserves R (performHybridSearch q types l).
Proof using R_same R_trans. unfold performHybridSearch. preserve. Qed.

#[local] Hint Resolve preserves_performKeywordSearch
  preserves_performHybridSearch : preserves.

Lemma preserves_searchSimilar q types l mode :
  preserves R (searchSimilar q types l mode).
Proof using R_same R_trans. unfold searchSimilar. preserve. Qed.

Lemma preserves_getEntityImplementation entityName :
  preserves R (getEntityImplementation entityName).
Proof using R_same R_trans. unfold getEntityImplementation. preserve. Qed.

Lemma preserves_expandLogicalScope base metadata l :
  preserves R (expandLogicalScope base metadata l).
Proof using R_same R_trans. unfold expandLogicalScope. preserve. Qed.

Lemma preserves_expandDependencyScope base metadata l :
  preserves R (expandDependencyScope base metadata l).
Proof using R_same R_trans. unfold expandDependencyScope. preserve. Qed.

#[local] Hint Resolve preserves_searchSimilar preserves_getEntityImplementation
  preserves_expandLogicalScope preserves_expandDependencyScope : preserves.

Lemma preserves_getImplementationChunks entityName scope l :
  preserves R (getImplementationChunks entityName scope l).
Proof using R_same R_trans. unfold getImplementationChunks. preserve. Qed.

Lemma preserves_rawDataLoop n maxEntities types offset acc :
  preserves R (rawDataLoop n maxEntities types offset acc).
Proof using R_same R_trans.
  revert offset acc. induction n as [|n IH]; intros offset acc; simpl.
  - preserve.
  - apply preserves_bind; [preserve|]. intros scrollResult.
    destruct (usable_offset _); [apply IH|preserve].
Qed.

#[local] Hint Resolve preserves_rawDataLoop : preserves.

Lemma preserves__getRawData l types : preserves R (_getRawData l types).
Proof using R_same R_trans. unfold _getRawData. preserve. Qed.

Lemma preserves_fetchEntitiesByNames names l :
  preserves R (fetchEntitiesByNames names l).
Proof using R_same R_trans. unfold fetchEntitiesByNames. preserve. Qed.

End Preserves.

Lemma same_store_trans st1 st2 st3 :
  same_store st1 st2 → same_store st2 st3 → same_store st1 st3.
Proof. unfold same_store. congruence. Qed.

Lemma created_at_most_same st st' : qdrant st' = qdrant st → created_at_most st st'.
Proof. by left. Qed.

Lemma created_at_most_trans st1 st2 st3 :
  created_at_most st1 st2 → created_at_most st2 st3 → created_at_most st1 st3.
Proof.
  intros [H1|(c & Hc & Hn & H1)] [H2|(c' & Hc' & Hn' & H2)].
  - left. congruence.
  - right. exists c'. by rewrite <- H1.
  - right. exists c. repeat split; congruence.
  - exfalso. assert (c' = c) as -> by congruence.
    rewrite H1, lookup_insert_eq in Hn'. done.
Qed.

Lemma initialize_created_at_most : preserves created_at_most initialize.
Proof.
  unfold initialize.
  apply preserves_bind;
    [apply created_at_most_trans
    |apply preserves_connect, created_at_most_same|].
  intros _.
  apply preserves_bind_ok;
    [apply created_at_most_trans
    |apply preserves_require_collection, created_at_most_same|].
  intros c (st0 & st1 & (Hc & _ & _)%require_collection_inv_ok).
  apply preserves_try_catch;
    [apply created_at_most_trans| |intros e; apply preserves_throw, created_at_most_same].
  apply preserves_bind;
    [apply created_at_most_trans
    |apply preserves_client_getCollections;
       [apply created_at_most_same|apply created_at_most_trans]|].
  intros collections. case_bool_decide.
  - apply preserves_bind;
      [apply created_at_most_trans
      |apply preserves_client_getCollection;
         [apply created_at_most_same|apply created_at_most_trans]|].
    intros info. unfold updateEmbeddingModel.
    repeat case_match;
      (apply preserves_ret, created_at_most_same
       || (apply preserves_modify; [apply created_at_most_same|done])).
  - apply preserves_bind; [apply created_at_most_trans| |].
    + intros st r st'. unfold client_createCollection, call.
      destruct (fault _ _); [intros; simplify_eq; by left|]. simpl.
      destruct (qdrant st !! c) eqn:Hq; intros; simplify_eq; [by left|].
      right. by exists c.
    + intros _. apply preserves_modify; [apply created_at_most_same|done].
Qed.

Lemma scrollAll_created_at_most options : preserves created_at_most (scrollAll options).
Proof.
  pose proof created_at_most_same as Hs.
  pose proof created_at_most_trans as Ht.
  unfold scrollAll.
  apply preserves_bind; [done|apply initialize_created_at_most|]. intros _.
  apply preserves_bind; [done|by apply preserves_require_collection|].
  intros _.
  apply preserves_bind; [done|by apply preserves__getRawData|].
  intros rawData.
  destruct (default smart (options ≫= mode));
    try (by apply preserves_ret).
  apply preserves_bind; [done|by apply preserves_fetchEntitiesByNames|].
  intros ?. by apply preserves_ret.
Qed.

(** X4. The searches and the retrieval of implementation chunks never write:
    whatever they return, and whether or not calls fail on the way, every
    collection of the store is as it was. *)
Theorem searches_never_write (st : State) :
  (∀ q types limit mode r st',
     searchSimilar q types limit mode st = (r, st') → qdrant st' = qdrant st)
  ∧ (∀ entityName scope limit r st',
       getImplementationChunks entityName scope limit st = (r, st') →
       qdrant st' = qdrant st)
  ∧ (∀ args r st',
       handle_search_similar args st = (r, st') → qdrant st' = qdrant st).
Proof.
  assert (∀ st st', qdrant st' = qdrant st → same_store st st') as Hs by done.
  pose proof same_store_trans as Ht.
  split; [|split].
  - intros q types limit mode r st'.
    by apply (preserves_searchSimilar same_store).
  - intros entityName scope limit r st'.
    by apply (preserves_getImplementationChunks same_store).
  - intros args r st'. unfold handle_search_similar, manager_searchSimilar.
    apply (preserves_try_catch same_store); [done| |].
    + apply preserves_bind; [done|by apply preserves_lift|]. intros req.
      by apply preserves_searchSimilar.
    + intros e. by apply preserves_throw.
Qed.

(** X5. Reading the graph writes no point. The one change it can make to the
    store is to create the configured collection, empty, when it is missing;
    when the collection exists the store is left as it was. This holds for
    every outcome of the read. *)
Theorem graph_reads_create_at_most (st : State) :
  (∀ options r st',
     scrollAll options st = (r, st') → created_at_most st st')
  ∧ (∀ options r st',
       getGraph options st = (r, st') → created_at_most st st')
  ∧ (∀ limit types r st',
       getRawGraph limit types st = (r, st') → created_at_most st st')
  ∧ (∀ c options r st',
       COLLECTION_NAME = Some c → is_Some (qdrant st !! c) →
       getGraph options st = (r, st') → qdrant st' = qdrant st).
Proof.
  pose proof created_at_most_same as Hs.
  pose proof created_at_most_trans as Ht.
  assert (∀ options, preserves created_at_most (getGraph options)) as Hg.
  { intros options. unfold getGraph.
    apply preserves_try_catch; [done|apply scrollAll_created_at_most|].
    intros e. by apply preserves_ret. }
  split; [|split; [|split]].
  - intros options r st'. apply scrollAll_created_at_most.
  - intros options r st'. apply Hg.
  - intros limit types r st'. unfold getRawGraph.
    apply preserves_try_catch; [done|apply scrollAll_created_at_most|].
    intros e. by apply preserves_ret.
  - intros c options r st' Hc [col Hcol] H.
    apply Hg in H as [H|(c' & Hc' & Hn & _)]; [done|].
    congruence.
Qed.


(** ** Written chunks, read back *)

Lemma wrote_storedUnder idStr payloadOf st st' :
  wrote idStr payloadOf st st' →
  ∃ p now, storedUnder idStr p st' ∧ pt_payload p = Some (payloadOf now).
Proof.
  intros (c & col & id & vector & now & Hc & Hid & Hcol & Hcol').
  exists {| pt_id := id; pt_vector := vector;
            pt_payload := Some (payloadOf now) |}, now.
  split; [|reflexivity].
  eexists c, _, id. repeat split; [done|exact Hcol'|done|].
  simpl. by rewrite lookup_insert_eq.
Qed.

(** X6. An entity written by [persistEntity] is read back as it was written:
    the full scan makes of its chunk an entity with the same name, type and
    observations (an empty name is read as ['unknown']). The entity is kept
    when the cap is not reached and it passes the type filter, and counted;
    it adds no relation. *)
Theorem persisted_entity_reads_back (e : Entity) (st st' : State) :
  persistEntity e st = (Ok tt, st') →
  ∃ p,
    storedUnder ("manual::" +:+ name e +:+ "::metadata") p st'
    ∧ ∀ (maxEntities : Q) (types : option (list string)) (acc : RawData),
        (inject_Z (entityCount acc) < maxEntities)%Q →
        (actualEntityTypes types = []
         ∨ entityType e ∈ actualEntityTypes types) →
        let acc' := rawPoint maxEntities types acc p in
        raw_entities acc' = (raw_entities acc ++ [readBack e])%list
        ∧ raw_allEntities acc' = (raw_allEntities acc ++ [readBack e])%list
        ∧ entityCount acc' = entityCount acc + 1
        ∧ raw_relations acc' = raw_relations acc.
Proof.
  intros (p & now & Hp & Hpay)%persistEntity_wrote%wrote_storedUnder.
  exists p. split; [exact Hp|].
  intros maxEntities types acc Hcap Hpass acc'. subst acc'.
  unfold rawPoint. rewrite Hpay. simpl.
  unfold rawMetadataChunk.
  destruct (Qlt_le_dec _ _) as [_|Hge]; [|by apply Qle_not_lt in Hge].
  assert (payloadEntityType (entityPayload e now) = entityType e) as ->.
  { unfold payloadEntityType, entityPayload. simpl. unfold JS.or_default.
    by destruct (entityType e). }
  assert ({| name :=
               JS.or_default
                 (JS.or (Some (entity_name (entityPayload e now)))
                    (p_name (entityPayload e now))) "unknown";
             entityType := entityType e;
             observations := payloadObservations (entityPayload e now) |}
          = readBack e) as ->.
  { unfold readBack, JS.or, JS.truthy, JS.or_default, payloadObservations.
    simpl. by repeat (case_bool_decide; simpl). }
  assert (match actualEntityTypes types with
          | [] => true
          | _ :: _ => JS.includes (entityType e) (actualEntityTypes types)
          end = true) as Hin.
  { destruct Hpass as [->|Hin]; [done|].
    destruct (actualEntityTypes types); [done|].
    unfold JS.includes. by apply bool_decide_eq_true_2. }
  destruct (actualEntityTypes types) eqn:Ha; simpl.
  - done.
  - rewrite Hin. done.
Qed.

Lemma string_app_length (a b : string) :
  String.length (a +:+ b) = (String.length a + String.length b)%nat.
Proof. induction a as [|c a IH]; simpl; [done|]. by rewrite IH. Qed.

(** X7. A relation written by [persistRelation] is not read back as it was
    written: its chunk carries the relation id [from-relationType-to] as
    entity name, and the full scan reads the source of a relation from the
    entity name. The relation read back has the id as source, which is never
    the source that was written; it is dropped when the target or the type
    is empty. The chunk adds no entity. *)
Theorem persisted_relation_reads_back (r : Relation) (st st' : State) :
  persistRelation r st = (Ok tt, st') →
  ∃ p,
    storedUnder ("relation::"
                 +:+ (from r +:+ "-" +:+ relationType r +:+ "-" +:+ to r)
                 +:+ "::relation") p st'
    ∧ (from r +:+ "-" +:+ relationType r +:+ "-" +:+ to r) ≠ from r
    ∧ ∀ (maxEntities : Q) (types : option (list string)) (acc : RawData),
        let acc' := rawPoint maxEntities types acc p in
        raw_relations acc'
        = (raw_relations acc ++
           if bool_decide (to r = "") || bool_decide (relationType r = "")
           then []
           else [{| from := from r +:+ "-" +:+ relationType r +:+ "-" +:+ to r;
                    to := to r;
                    relationType := relationType r |}])%list
        ∧ raw_entities acc' = raw_entities acc
        ∧ entityCount acc' = entityCount acc.
Proof.
  intros (p & now & Hp & Hpay)%persistRelation_wrote%wrote_storedUnder.
  exists p. split; [exact Hp|]. split.
  { intros Heq. apply (f_equal String.length) in Heq.
    rewrite !string_app_length in Heq. simpl in Heq. lia. }
  intros maxEntities types acc acc'. subst acc'.
  unfold rawPoint. rewrite Hpay. simpl.
  unfold rawRelationChunk. simpl.
  assert (JS.truthy (JS.or (Some (relationId r)) (Some (from r))) = true
          ∧ default "" (JS.or (Some (relationId r)) (Some (from r)))
            = relationId r) as [-> ->].
  { assert (relationId r ≠ "") as Hne.
    { intros Heq. apply (f_equal String.length) in Heq.
      unfold relationId in Heq. rewrite !string_app_length in Heq.
      simpl in Heq. lia. }
    unfold JS.or, JS.truthy. rewrite (bool_decide_eq_false_2 _ Hne). simpl.
    by rewrite (bool_decide_eq_false_2 _ Hne). }
  unfold JS.or, JS.truthy. simpl.
  destruct (decide (to r = "")) as [Ht|Ht];
    destruct (decide (relationType r = "")) as [Hr|Hr];
    rewrite ?(bool_decide_eq_true_2 _ Ht), ?(bool_decide_eq_false_2 _ Ht),
      ?(bool_decide_eq_true_2 _ Hr), ?(bool_decide_eq_false_2 _ Hr); simpl;
    rewrite ?(bool_decide_eq_false_2 _ Hr), ?app_nil_r; done.
Qed.

(** ** Writes while the store is down *)

Lemma scrollAll_down_state options st :
  initialized st = true → JS.truthy COLLECTION_NAME = true →
  store_down (n_calls st) →
  ∃ e, scrollAll options st = (Throw e, set_calls (S (n_calls st)) st).
Proof.
  intros Hinit Hcfg Hdown. unfold scrollAll, initialize.
  destruct COLLECTION_NAME as [c|] eqn:Hc; [|done].
  assert (c ≠ "") as Hne by (by intros ->).
  destruct (Hdown (n_calls st) GetCollections) as [e He]; [lia|done|].
  eexists. eapply bind_throw.
  erewrite bind_ok by by apply connect_initialized.
  erewrite bind_ok by (apply require_collection_ok; [exact Hc|exact Hne]).
  unfold try_catch, bind at 1, client_getCollections, call.
  rewrite He. reflexivity.
Qed.

(** X8. While the store is down, [addRelations] does not report the failure
    of the store: the graph it validates against is read as empty, so a
    request with at least one relation fails with ["Entity not found"] for
    the source of its first relation, and a request with none succeeds.
    One call is made and nothing is written. *)
Theorem addRelations_store_down (st : State) :
  initialized st = true →
  JS.truthy COLLECTION_NAME = true →
  store_down (n_calls st) →
  (∀ r rest,
     addRelations (r :: rest) st
     = (Throw ("Entity not found: " +:+ from r),
        set_calls (S (n_calls st)) st))
  ∧ addRelations [] st = (Ok tt, set_calls (S (n_calls st)) st).
Proof.
  intros Hinit Hcfg Hdown.
  destruct (scrollAll_down_state
              (Some {| mode := Some raw; entityTypes := None;
                       limit := Some (inject_Z JS.MAX_SAFE_INTEGER) |})
              st Hinit Hcfg Hdown) as [e He].
  assert (getRawGraph (Some (inject_Z JS.MAX_SAFE_INTEGER)) None st
          = (Ok emptyGraph, set_calls (S (n_calls st)) st)) as Hg.
  { unfold getRawGraph. by erewrite try_catch_default_of_throw. }
  split.
  - intros r rest. unfold addRelations. by rewrite (bind_ok _ _ _ _ _ Hg).
  - unfold addRelations. by rewrite (bind_ok _ _ _ _ _ Hg).
Qed.


(** ** The shape of a graph read *)

Lemma rawDataLoop_folds n maxEntities types offset acc st acc' st' :
  rawDataLoop n maxEntities types offset acc st = (Ok acc', st') →
  ∃ points, acc' = fold_left (rawPoint maxEntities types) points acc.
Proof.
  revert offset acc st. induction n as [|n IH]; intros offset acc st; simpl.
  - done.
  - intros (scrollResult & st1 & _ & H)%bind_inv_ok.
    destruct (usable_offset _).
    + apply IH in H as [points ->].
      exists (sc_points scrollResult ++ points)%list.
      by rewrite fold_left_app.
    + unfold ret in H. injection H as <- <-. by eexists.
Qed.

Lemma rawPoint_types maxEntities types acc point :
  actualEntityTypes types ≠ [] →
  Forall (fun e => entityType e ∈ actualEntityTypes types) (raw_entities acc) →
  Forall (fun e => entityType e ∈ actualEntityTypes types)
    (raw_entities (rawPoint maxEntities types acc point)).
Proof.
  intros Hne Hacc. unfold rawPoint, rawMetadataChunk, rawRelationChunk.
  repeat (case_match; simpl; try done).
  all: try (destruct (actualEntityTypes types); done).
  all: try (apply Forall_app; split; [done|]; apply Forall_singleton; simpl).
  all: unfold JS.includes in *; try congruence.
  all: match goal with
       | H : bool_decide (_ ∈ _) = true |- _ =>
           by apply bool_decide_eq_true in H
       end.
Qed.

Lemma fold_rawPoint_types maxEntities types points acc :
  actualEntityTypes types ≠ [] →
  Forall (fun e => entityType e ∈ actualEntityTypes types) (raw_entities acc) →
  Forall (fun e => entityType e ∈ actualEntityTypes types)
    (raw_entities (fold_left (rawPoint maxEntities types) points acc)).
Proof.
  intros Hne. revert acc.
  induction points as [|point points IH]; intros acc Hacc; simpl; [done|].
  apply IH. by apply rawPoint_types.
Qed.

Lemma scrollAll_inv_ok options st g st' :
  scrollAll options st = (Ok g, st') →
  ∃ rawData st1 st2,
    _getRawData (Some (JS.or_num (options ≫= limit) 10000))
      (options ≫= entityTypes) st1 = (Ok rawData, st2)
    ∧ let filteredRelations :=
        match options ≫= entityTypes with
        | None | Some [] => relations rawData
        | Some _ =>
            filterRelationsForEntities (relations rawData) (entities rawData)
        end in
      match default smart (options ≫= mode) with
      | relationships =>
          ∃ matchedEntities,
            g = {| entities := matchedEntities;
                   relations :=
                     filter (fun rel =>
                               JS.includes (from rel) (map name matchedEntities)
                               && JS.includes (to rel)
                                    (map name matchedEntities))
                       filteredRelations |}
      | _ => g = {| entities := entities rawData;
                    relations := filteredRelations |}
      end.
Proof.
  intros ([] & st1 & _ & H)%bind_inv_ok.
  apply bind_inv_ok in H as (c & st2 & (_ & _ & ->)%require_collection_inv_ok & H).
  apply bind_inv_ok in H as (rawData & st3 & Hraw & H).
  exists rawData, st1, st3. split; [exact Hraw|]. simpl.
  destruct (default smart (options ≫= mode));
    try (unfold ret in H; by simplify_eq).
  apply bind_inv_ok in H as (matchedEntities & st4 & _ & H).
  exists matchedEntities. unfold ret in H. by simplify_eq.
Qed.

(** X9. In [relationships] mode the graph [scrollAll] returns is closed:
    both ends of every relation are among the names of the entities it
    returns. *)
Theorem scrollAll_relationships_closed (options : ScrollOptions)
    (st st' : State) (g : KnowledgeGraph) :
  scrollAll (Some options) st = (Ok g, st') →
  mode options = Some relationships →
  Forall (fun r => namedIn (entities g) (from r) ∧ namedIn (entities g) (to r))
    (relations g).
Proof.
  intros (rawData & st1 & st2 & _ & H)%scrollAll_inv_ok Hmode.
  simpl in H. rewrite Hmode in H. simpl in H.
  destruct H as [matchedEntities ->]. simpl.
  apply Forall_forall. intros r [Hr _]%list_elem_of_filter.
  apply andb_prop_elim in Hr as [Hf Ht]. unfold JS.includes in *.
  apply bool_decide_unpack in Hf. apply bool_decide_unpack in Ht.
  by split.
Qed.

(** X10. With a type filter that names at least one entity type, and in a
    mode other than [relationships], [scrollAll] returns only entities of
    the named types (the chunk types ["metadata"] and ["implementation"] in
    the filter are not entity types), and every relation it returns touches
    one of the returned entities. *)
Theorem scrollAll_type_filter (options : ScrollOptions) (st st' : State)
    (g : KnowledgeGraph) :
  scrollAll (Some options) st = (Ok g, st') →
  mode options ≠ Some relationships →
  actualEntityTypes (entityTypes options) ≠ [] →
  Forall (fun e => entityType e ∈ actualEntityTypes (entityTypes options))
    (entities g)
  ∧ Forall (fun e => JS.includes (entityType e) knownChunkTypes = false)
      (entities g)
  ∧ Forall (fun r => namedIn (entities g) (from r) ∨ namedIn (entities g) (to r))
      (relations g).
Proof.
  intros (rawData & st1 & st2 & Hraw & H)%scrollAll_inv_ok Hmode Hne.
  cbn [mbind option_bind] in Hraw, H. cbv zeta in H.
  assert (g = {| entities := entities rawData;
                 relations :=
                   filterRelationsForEntities (relations rawData)
                     (entities rawData) |}) as ->.
  { destruct (entityTypes options) as [[|t types]|] eqn:Ht; try done.
    destruct (mode options) as [[]|]; simpl in H; done. }
  cbn [entities relations].
  apply bind_inv_ok in Hraw as (acc & st3 & Hloop & Hret).
  apply rawDataLoop_folds in Hloop as [points ->].
  unfold ret in Hret. injection Hret as <- <-. cbn [entities relations].
  match goal with
  | |- Forall _ (raw_entities ?acc) ∧ _ =>
      assert (Forall (fun e => entityType e
                               ∈ actualEntityTypes (entityTypes options))
                (raw_entities acc)) as Htypes
        by by apply fold_rawPoint_types
  end.
  split; [exact Htypes|]. split.
  - eapply Forall_impl; [exact Htypes|]. intros e He. simpl in He.
    unfold actualEntityTypes in He.
    apply list_elem_of_filter in He as [He _].
    by destruct (JS.includes (entityType e) knownChunkTypes).
  - apply Forall_forall. intros r [Hr _]%list_elem_of_filter.
    apply orb_prop_elim in Hr as [Hr|Hr]; unfold JS.includes in Hr;
      apply bool_decide_unpack in Hr; [by left|by right].
Qed.

(** ** Merging results *)

Lemma elem_of_snoc {A} (x y : A) (l : list A) :
  x ∈ (l ++ [y])%list → x ∈ l ∨ x = y.
Proof.
  bare. intros [?|?%list_elem_of_singleton]%elem_of_app; [by left|by right].
Qed.

Lemma fold_mergeStep_best results :
  ∀ (m : gmap string SearchResult) (seen : list SearchResult),
    (∀ k r, m !! k = Some r →
       r ∈ seen
       ∧ ∀ r', r' ∈ seen → resultKey r' = k → (score r' <= score r)%Q) →
    (∀ r, r ∈ seen → is_Some (m !! resultKey r)) →
    ∀ k r, fold_left mergeStep results m !! k = Some r →
      r ∈ (seen ++ results)%list
      ∧ ∀ r', r' ∈ (seen ++ results)%list → resultKey r' = k →
              (score r' <= score r)%Q.
Proof.
  induction results as [|x results IH]; intros m seen Hbest Hall k r; simpl.
  - rewrite app_nil_r. apply Hbest.
  - replace (seen ++ x :: results)%list with ((seen ++ [x]) ++ results)%list
      by by rewrite <- app_assoc.
    apply IH.
    + intros k' r' Hk'. unfold mergeStep in Hk'.
      destruct (m !! resultKey x) as [existing|] eqn:Hex.
      * destruct (Qlt_le_dec (score existing) (score x)) as [Hlt|Hle].
        -- destruct (decide (k' = resultKey x)) as [->|Hne].
           ++ rewrite lookup_insert_eq in Hk'. injection Hk' as <-.
              split; [apply elem_of_app; right; by left|].
              intros r'' [Hin| ->]%elem_of_snoc Hkey;
                [|apply Qle_refl].
              destruct (Hbest _ _ Hex) as [_ Hb].
              apply Qle_trans with (score existing);
                [by apply Hb|by apply Qlt_le_weak].
           ++ rewrite lookup_insert_ne in Hk' by done.
              destruct (Hbest _ _ Hk') as [Hin Hb].
              split; [apply elem_of_app; by left|].
              intros r'' [Hin'| ->]%elem_of_snoc Hkey;
                [by apply Hb|done].
        -- destruct (Hbest _ _ Hk') as [Hin Hb].
           split; [apply elem_of_app; by left|].
           intros r'' [Hin'| ->]%elem_of_snoc Hkey;
             [by apply Hb|].
           rewrite Hkey in Hex. by simplify_eq.
      * destruct (decide (k' = resultKey x)) as [->|Hne].
        -- rewrite lookup_insert_eq in Hk'. injection Hk' as <-.
           split; [apply elem_of_app; right; by left|].
           intros r'' [Hin| ->]%elem_of_snoc Hkey;
             [|apply Qle_refl].
           apply Hall in Hin as [? Hin]. rewrite Hkey, Hex in Hin. done.
        -- rewrite lookup_insert_ne in Hk' by done.
           destruct (Hbest _ _ Hk') as [Hin Hb].
           split; [apply elem_of_app; by left|].
           intros r'' [Hin'| ->]%elem_of_snoc Hkey;
             [by apply Hb|done].
    + intros r' [Hin| ->]%elem_of_snoc.
      * apply mergeStep_grows. left. by apply Hall.
      * apply mergeStep_grows. by right.
Qed.

(** X11. [mergeAndDeduplicate] returns one result for each entity name of
    its input, and no two with the same name; each result it returns is one
    of the input, with the highest score among the input results of its
    name. *)
Theorem mergeAndDeduplicate_best (results : list SearchResult) :
  let merged := mergeAndDeduplicate results in
  NoDup (map resultKey merged)
  ∧ (∀ r, r ∈ merged →
       r ∈ results
       ∧ ∀ r', r' ∈ results → resultKey r' = resultKey r →
               (score r' <= score r)%Q)
  ∧ (∀ r, r ∈ results →
       ∃ r', r' ∈ merged ∧ resultKey r' = resultKey r).
Proof.
  intros merged. subst merged. split; [|split].
  - rewrite mergeAndDeduplicate_keys. apply first_seen_NoDup.
  - intros r Hr. unfold mergeAndDeduplicate in Hr.
    apply elem_of_omap_inv in Hr as (k & _ & Hk).
    destruct (fold_mergeStep results ∅) as [Hkeys _];
      [intros ? ?; by rewrite lookup_empty|].
    rewrite (Hkeys _ _ Hk).
    apply (fold_mergeStep_best results ∅ []); [| |exact Hk].
    + intros ? ?. by rewrite lookup_empty.
    + intros ? ?%elem_of_nil. done.
  - intros r Hr.
    assert (resultKey r ∈ map resultKey (mergeAndDeduplicate results)) as Hin.
    { rewrite mergeAndDeduplicate_keys. apply first_seen_elem.
      split; [by apply list_elem_of_fmap_2|by intros ?%elem_of_nil]. }
    apply list_elem_of_fmap in Hin as (r' & Hkey & Hr'). by exists r'.
Qed.

(** ** The scanners *)

Lemma scanCalls_words word spaced s :
  Forall (fun c => is_word c = true) word →
  Forall isWord (scanCalls word spaced s).
Proof.
  bare. revert word spaced.
  induction s as [|c s IH]; intros word spaced Hword; simpl; [done|].
  destruct (is_word c) eqn:Hc.
  - apply IH. destruct spaced; [by apply Forall_singleton|].
    apply Forall_app. split; [done|by apply Forall_singleton].
  - destruct (is_space c); [by apply IH|].
    case_bool_decide; [|by apply IH].
    destruct word as [|w word]; [by apply IH|].
    constructor; [|by apply IH].
    unfold isWord. by rewrite list_ascii_of_string_of_list_ascii.
Qed.

Lemma span_of_all (p : ascii → bool) s : Forall (fun c => p c = true) (span_of p s).
Proof.
  bare. induction s as [|c s IH]; simpl; [done|].
  destruct (p c) eqn:Hc; [by constructor|done].
Qed.

Lemma scanImports_words skip s :
  Forall (fun imp => imp ≠ "" ∧ isWord imp) (scanImports skip s).
Proof.
  bare. revert skip. induction s as [|c s IH]; intros skip; simpl; [done|].
  destruct skip as [|skip]; [|apply IH].
  destruct (matchImport (c :: s)) as [[word len]|] eqn:Hm; [|apply IH].
  constructor; [|apply IH].
  unfold matchImport in Hm.
  assert (∀ kw w n,
            (rest ← strip_prefix kw (c :: s);
             let spaces := span_of is_space rest in
             let word := span_of is_word (drop (length spaces) rest) in
             match spaces, word with
             | _ :: _, _ :: _ =>
                 Some (string_of_list_ascii word,
                       (String.length kw + length spaces + length word)%nat)
             | _, _ => None
             end) = Some (w, n) →
            w ≠ "" ∧ isWord w) as Hafter.
  { intros kw w n H.
    destruct (strip_prefix kw (c :: s)) as [rest|]; [|done]. simpl in H.
    destruct (span_of is_space rest); [done|].
    destruct (span_of is_word _) as [|w0 word0] eqn:Hw; [done|].
    injection H as <- <-. split; [done|].
    change (String w0 (string_of_list_ascii word0))
      with (string_of_list_ascii (w0 :: word0)).
    unfold isWord. rewrite list_ascii_of_string_of_list_ascii.
    rewrite <- Hw. apply span_of_all. }
  repeat case_match; simplify_eq; by eapply Hafter.
Qed.

(** X12. The two scanners of implementation text are bounded: each returns
    at most ten names. A call name is made of word characters and has at
    least two of them; an import name is made of word characters and is not
    empty. *)
Theorem scanners_bounded (content : string) :
  (length (extractCalls content) ≤ 10)%nat
  ∧ Forall (fun call => isWord call ∧ (2 ≤ String.length call)%nat)
      (extractCalls content)
  ∧ (length (extractImports content) ≤ 10)%nat
  ∧ Forall (fun imp => isWord imp ∧ imp ≠ "") (extractImports content).
Proof.
  unfold extractCalls, extractImports. repeat split.
  - rewrite length_take. lia.
  - apply Forall_take, Forall_forall.
    intros call [Hlen Hin]%list_elem_of_filter. split.
    + assert (Forall isWord
                (scanCalls [] false (list_ascii_of_string content))) as Hall
        by (apply scanCalls_words; constructor).
      by eapply Forall_forall in Hall.
    + apply Is_true_true, Nat.ltb_lt in Hlen. lia.
  - rewrite length_take. lia.
  - apply Forall_take.
    eapply Forall_impl; [apply scanImports_words|]. by intros ? [? ?].
Qed.


(** ** The filter for a list of types *)

Lemma includes_true x l : JS.includes x l = true ↔ x ∈ l.
Proof. bare. unfold JS.includes. apply bool_decide_eq_true. Qed.

Lemma existsb_holds_any payload key types :
  Scenario.holds payload (MatchAny key types) = true
  ↔ ∃ v, Scenario.field key payload = Some v ∧ v ∈ types.
Proof.
  bare. simpl. destruct (Scenario.field key payload) as [v|].
  - rewrite includes_true. split; [by exists v|]. by intros (? & [= <-] & ?).
  - split; [done|]. by intros (? & ? & ?).
Qed.

Lemma holds_entity_types payload types :
  Scenario.holds payload
    (ShouldOf [MatchAny "entity_type" types;
               MatchAny "metadata.entity_type" types]) = true
  ↔ hasEntityType types payload.
Proof.
  bare. unfold hasEntityType.
  change (Scenario.holds payload (ShouldOf _))
    with (Scenario.holds payload (MatchAny "entity_type" types)
          || (Scenario.holds payload (MatchAny "metadata.entity_type" types)
              || false)).
  rewrite orb_false_r, orb_true_iff, !existsb_holds_any.
  change (Scenario.field "entity_type" payload)
    with (Some (entity_type payload)).
  change (Scenario.field "metadata.entity_type" payload)
    with (p_metadata payload ≫= md_entity_type).
  split.
  - intros [(v & [= <-] & Hv)|(v & Hm & Hv)]; [by left|right; by exists v].
  - intros [Hv|(v & Hm & Hv)]; [left; by eexists|right; by exists v].
Qed.

Lemma holds_chunk_types payload types :
  Scenario.holds payload (MatchAny "chunk_type" types) = true
  ↔ chunk_type payload ∈ types.
Proof.
  bare. rewrite existsb_holds_any.
  change (Scenario.field "chunk_type" payload) with (Some (chunk_type payload)).
  split; [by intros (v & [= <-] & Hv)|intros Hv; by eexists].
Qed.

(** X13. The filter built for a list of types is a disjunction. With the
    store's reading of filters (all of [must], one of [should]), a chunk
    passes it exactly when it has one of the listed entity types, at the top
    level or in its metadata, or has one of the listed chunk types
    (["metadata"], ["implementation"]). No list and the empty list give no
    filter. *)
Theorem entity_type_filter_is_a_disjunction (types : list string)
    (point : Point) :
  buildEntityTypeFilter None = None
  ∧ buildEntityTypeFilter (Some []) = None
  ∧ (types ≠ [] →
     ∃ f,
       buildEntityTypeFilter (Some types) = Some f
       ∧ (Scenario.matches f point = true
          ↔ ∃ payload,
              pt_payload point = Some payload
              ∧ (hasEntityType (actualEntityTypes (Some types)) payload
                 ∨ chunk_type payload ∈ requestedChunkTypes types))).
Proof.
  bare. split; [done|]. split; [done|]. intros Hne.
  destruct types as [|t0 types0]; [done|].
  set (types := t0 :: types0) in *.
  unfold buildEntityTypeFilter. fold types.
  change (filter (fun t => JS.includes t knownChunkTypes) types)
    with (requestedChunkTypes types).
  change (filter (fun t => negb (JS.includes t knownChunkTypes)) types)
    with (actualEntityTypes (Some types)).
  assert (actualEntityTypes (Some types) ≠ []
          ∨ requestedChunkTypes types ≠ []) as Hsome.
  { unfold actualEntityTypes, requestedChunkTypes, types.
    change (JS.or_nil (Some (t0 :: types0))) with (t0 :: types0).
    rewrite !filter_cons.
    destruct (JS.includes t0 knownChunkTypes); simpl; [by right|by left]. }
  unfold types at 1.
  destruct (actualEntityTypes (Some types)) as [|a actual] eqn:Ha;
    destruct (requestedChunkTypes types) as [|k chunks] eqn:Hk.
  - by destruct Hsome.
  - eexists. split; [reflexivity|].
    unfold Scenario.matches. simpl must. simpl should.
    destruct (pt_payload point) as [payload|]; [|split; [done|by intros (? & ? & ?)]].
    change (forallb _ [_]) with
      (Scenario.holds payload (MatchAny "chunk_type" (k :: chunks)) && true).
    rewrite !andb_true_r, holds_chunk_types.
    split.
    + intros Hc. exists payload. split; [done|]. by right.
    + intros (? & [= <-] & [[?%elem_of_nil|(? & ? & ?%elem_of_nil)]|Hc]); done.
  - eexists. split; [reflexivity|].
    unfold Scenario.matches. simpl must. simpl should.
    destruct (pt_payload point) as [payload|]; [|split; [done|by intros (? & ? & ?)]].
    change (forallb _ [_]) with
      (Scenario.holds payload
         (ShouldOf [MatchAny "entity_type" (a :: actual);
                    MatchAny "metadata.entity_type" (a :: actual)]) && true).
    rewrite !andb_true_r, holds_entity_types.
    split.
    + intros Hc. exists payload. split; [done|]. by left.
    + intros (? & [= <-] & [Hc|?%elem_of_nil]); done.
  - eexists. split; [reflexivity|].
    unfold Scenario.matches. simpl must. simpl should.
    destruct (pt_payload point) as [payload|]; [|split; [done|by intros (? & ? & ?)]].
    change (forallb _ [] && existsb _ _) with
      (Scenario.holds payload
         (ShouldOf [MatchAny "entity_type" (a :: actual);
                    MatchAny "metadata.entity_type" (a :: actual)])
       || (Scenario.holds payload (MatchAny "chunk_type" (k :: chunks))
           || false)).
    rewrite orb_false_r, orb_true_iff, holds_entity_types, holds_chunk_types.
    split.
    + intros Hc. by exists payload.
    + by intros (? & [= <-] & Hc).
Qed.

(** ** Writes keep what is stored *)

Lemma points_kept_same st st' : qdrant st' = qdrant st → points_kept st st'.
Proof. intros Hq c col Hc. exists col. by rewrite Hq. Qed.

Lemma points_kept_trans st1 st2 st3 :
  points_kept st1 st2 → points_kept st2 st3 → points_kept st1 st3.
Proof.
  intros H12 H23 c col Hc.
  destruct (H12 _ _ Hc) as (col2 & Hc2 & Hsub2).
  destruct (H23 _ _ Hc2) as (col3 & Hc3 & Hsub3).
  exists col3. split; [done|]. by etrans.
Qed.

Lemma created_at_most_points_kept st st' :
  created_at_most st st' → points_kept st st'.
Proof.
  intros [Hq|(c & _ & Hn & Hq)]; [by apply points_kept_same|].
  intros k col Hk. exists col. split; [|done].
  rewrite Hq, lookup_insert_ne; [done|]. congruence.
Qed.

Lemma client_upsert_points_kept c p : preserves points_kept (client_upsert c p).
Proof.
  intros st r st'. unfold client_upsert, call.
  destruct (fault _ _); [intros; simplify_eq; by apply points_kept_same|].
  unfold on_collection. simpl.
  destruct (qdrant st !! c) as [col|] eqn:Hc;
    [|intros; simplify_eq; by apply points_kept_same].
  unfold modify. intros H. simplify_eq. intros k colk Hk. simpl.
  destruct (decide (k = c)) as [->|Hne].
  - rewrite lookup_insert_eq. eexists. split; [done|]. simpl.
    assert (colk = col) as -> by congruence.
    rewrite dom_insert. apply union_subseteq_r.
  - rewrite lookup_insert_ne by done. by exists colk.
Qed.

Lemma persist_points_kept (idStr text : string) (payloadOf : string → Payload) :
  preserves points_kept
    (connect ;;;
     c <- require_collection "" ;;
     vector <- generateEmbedding text ;;
     id <- hashString idStr ;;
     now <- get (fun st => clock (n_calls st)) ;;
     client_upsert c {| pt_id := id; pt_vector := vector;
                        pt_payload := Some (payloadOf now) |}).
Proof.
  pose proof points_kept_same as Hs. pose proof points_kept_trans as Ht.
  apply preserves_bind; [done|by apply preserves_connect|]. intros _.
  apply preserves_bind; [done|by apply preserves_require_collection|].
  intros c.
  apply preserves_bind; [done|by apply preserves_generateEmbedding|].
  intros vector.
  apply preserves_bind; [done| |].
  { unfold hashString, readUInt32BE.
    repeat case_match; by (apply preserves_ret || apply preserves_throw). }
  intros id.
  apply preserves_bind; [done|by apply preserves_get|]. intros now.
  apply client_upsert_points_kept.
Qed.

Lemma addEntities_points_kept entities : preserves points_kept (addEntities entities).
Proof.
  induction entities as [|e entities IH]; simpl.
  - apply preserves_ret, points_kept_same.
  - apply preserves_bind; [apply points_kept_trans| |by intros _].
    apply persist_points_kept.
Qed.

Lemma storedUnder_kept idStr p st st' :
  points_kept st st' → storedUnder idStr p st → ∃ p', storedUnder idStr p' st'.
Proof.
  intros Hkept (c & col & id & Hc & Hcol & Hid & Hp).
  destruct (Hkept _ _ Hcol) as (col' & Hcol' & Hsub).
  assert (id ∈ dom (c_points col')) as [p' Hp']%elem_of_dom.
  { apply Hsub, elem_of_dom. by eexists. }
  exists p', c, col', id. done.
Qed.

(** X14. Creating entities and relations never removes anything: whatever
    the outcome of [addEntities] or [addRelations], every collection that
    was there is still there, with every point id it had. When [addEntities]
    succeeds, a point is stored under the id of each of its entities. *)
Theorem writes_never_remove (st : State) :
  (∀ entities r st',
     addEntities entities st = (r, st') → points_kept st st')
  ∧ (∀ relations r st',
       addRelations relations st = (r, st') → points_kept st st')
  ∧ (∀ entities st',
       addEntities entities st = (Ok tt, st') →
       ∀ e, e ∈ entities →
            ∃ p, storedUnder ("manual::" +:+ name e +:+ "::metadata") p st').
Proof.
  pose proof points_kept_same as Hs. pose proof points_kept_trans as Ht.
  split; [|split].
  - intros entities r st'. apply addEntities_points_kept.
  - intros relations r st'. unfold addRelations.
    apply preserves_bind; [done| |].
    + unfold getRawGraph.
      apply preserves_try_catch; [done| |intros ?; by apply preserves_ret].
      intros s r0 s' H. by eapply created_at_most_points_kept,
                               scrollAll_created_at_most.
    + intros g. induction relations as [|rel relations IH]; simpl.
      * by apply preserves_ret.
      * repeat case_match; try by apply preserves_throw.
        apply preserves_bind; [done| |by intros _].
        apply persist_points_kept.
  - intros entities. revert st.
    induction entities as [|e0 entities IH]; intros st st' H e He.
    + by apply elem_of_nil in He.
    + simpl in H. apply bind_inv_ok in H as ([] & st1 & H0 & H).
      apply elem_of_cons in He as [->|He]; [|by eapply IH].
      apply persistEntity_wrote, wrote_storedUnder in H0 as (p & now & Hp & _).
      eapply storedUnder_kept; [|exact Hp].
      by eapply addEntities_points_kept.
Qed.


(** ** Validation *)

Lemma firstInvalidEntity_spec entities k :
  match firstInvalidEntity k entities with
  | None => Forall (fun e => isEntity e = true) entities
  | Some n =>
      ∃ i e, n = (k + i)%nat
             ∧ entities !! i = Some e ∧ isEntity e = false
             ∧ ∀ j e', (j < i)%nat → entities !! j = Some e' →
                       isEntity e' = true
  end.
Proof.
  bare. revert k. induction entities as [|e entities IH]; intros k; simpl.
  - constructor.
  - destruct (isEntity e) eqn:He.
    + specialize (IH (S k)). destruct (firstInvalidEntity (S k) entities).
      * destruct IH as (i & e0 & -> & Hi & He0 & Hlt).
        exists (S i), e0. split; [lia|]. split; [done|]. split; [done|].
        intros [|j] e' Hj Hl; simpl in Hl; [by simplify_eq|].
        apply (Hlt j); [lia|done].
      * by constructor.
    + exists 0%nat, e. split; [lia|]. split; [done|]. split; [done|].
      intros j e' Hj. lia.
Qed.

(** X16. [validateCreateEntitiesRequest] on a request whose [entities] is an
    array: when every element is an entity the array is returned as it came;
    otherwise the error names the index of the first element that is not an
    entity. An object with a name, a list of observations and its type under
    [entity_type] is an entity; with the type under [entityType] it is one
    unless the type is the empty string. *)
Theorem validateCreateEntitiesRequest_first_invalid
    (args : gmap string JS.value) (entities : list JS.value) :
  args !! "entities" = Some (JS.Arr entities) →
  ((Forall (fun e => isEntity e = true) entities
    ∧ validateCreateEntitiesRequest args = Ok entities)
   ∨ ∃ i e,
       entities !! i = Some e
       ∧ isEntity e = false
       ∧ (∀ j e', (j < i)%nat → entities !! j = Some e' → isEntity e' = true)
       ∧ validateCreateEntitiesRequest args
         = Throw ("Invalid entity at index " +:+ pretty i))
  ∧ (∀ n t (obs : list string),
       isEntity (JS.Obj [("name", JS.Str n); ("entity_type", JS.Str t);
                         ("observations", JS.Arr (map JS.Str obs))]) = true
       ∧ isEntity (JS.Obj [("name", JS.Str n); ("entityType", JS.Str t);
                           ("observations", JS.Arr (map JS.Str obs))])
         = negb (bool_decide (t = ""))).
Proof.
  bare. intros Hargs. split.
  - unfold validateCreateEntitiesRequest. rewrite Hargs. simpl.
    pose proof (firstInvalidEntity_spec entities 0) as Hspec.
    destruct (firstInvalidEntity 0 entities) as [n|].
    + right. destruct Hspec as (i & e & -> & Hi & He & Hlt).
      by exists i, e.
    + by left.
  - intros n t obs.
    assert (forallb JS.is_string (map JS.Str obs) = true) as Hobs.
    { induction obs; simpl; done. }
    split.
    + unfold isEntity. simpl. by rewrite Hobs.
    + unfold isEntity, JS.or_value. simpl.
      rewrite Hobs. by destruct (negb (bool_decide (t = ""))).
Qed.

(** X17. [get_implementation] takes the entity name from [entityName], or
    from [entity_name] when [entityName] is absent, and the scope from
    [scope], [minimal] when it is absent. The handler then answers with the
    implementation chunks of that entity in that scope, read without a
    limit. *)
Theorem get_implementation_defaults (args : gmap string JS.value)
    (n : string) (scope : Scope) (st : State) :
  ((args !! "entityName" = Some (JS.Str n) ∧ n ≠ "")
   ∨ (args !! "entityName" = None ∧ args !! "entity_name" = Some (JS.Str n))) →
  ((args !! "scope" = None ∧ scope = minimal)
   ∨ ∃ s, args !! "scope" = Some (JS.Str s) ∧ parseScope s = Some scope) →
  validateGetImplementationRequest args
  = Ok {| gi_entityName := n; gi_scope := scope |}
  ∧ handle_get_implementation args st
    = getImplementationChunks n (Some scope) None st.
Proof.
  intros Hname Hscope.
  assert (validateGetImplementationRequest args
          = Ok {| gi_entityName := n; gi_scope := scope |}) as Hv.
  { unfold validateGetImplementationRequest, JS.or_value.
    assert ((if JS.truthy_value (default JS.Undefined (args !! "entityName"))
             then default JS.Undefined (args !! "entityName")
             else default JS.Undefined (args !! "entity_name")) = JS.Str n)
      as ->.
    { destruct Hname as [[-> Hne]|[-> ->]]; simpl; [|done].
      by rewrite bool_decide_eq_false_2. }
    destruct Hscope as [[-> ->]|(s & -> & Hs)]; simpl; [done|].
    assert (s ≠ "") as Hne by (by intros ->).
    rewrite (bool_decide_eq_false_2 _ Hne). simpl. by rewrite Hs. }
  split; [exact Hv|].
  unfold handle_get_implementation. rewrite try_catch_rethrow.
  unfold bind at 1, lift. by rewrite Hv.
Qed.


(** ** Deleting *)

Lemma idOf_inj idStr id1 id2 (st : State) : idOf idStr id1 → idOf idStr id2 → id1 = id2.
Proof. intros H1 H2. specialize (H1 st). rewrite (H2 st) in H1. by simplify_eq. Qed.

Lemma hashString_idOf idStr st id st' :
  hashString idStr st = (Ok id, st') → st' = st ∧ idOf idStr id.
Proof. intros H. by apply readUInt32BE_pure in H. Qed.

Lemma persist_inv idStr payloadOf text st st' :
  (connect ;;;
   c <- require_collection "" ;;
   vector <- generateEmbedding text ;;
   id <- hashString idStr ;;
   now <- get (fun st => clock (n_calls st)) ;;
   client_upsert c {| pt_id := id; pt_vector := vector;
                      pt_payload := Some (payloadOf now) |}) st
  = (Ok tt, st') →
  ∃ c col id vector now,
    COLLECTION_NAME = Some c
    ∧ idOf idStr id
    ∧ qdrant st !! c = Some col
    ∧ qdrant st'
      = <[c := upsert_point {| pt_id := id; pt_vector := vector;
                               pt_payload := Some (payloadOf now) |} col]>
          (qdrant st).
Proof.
  intros ([] & st1 & Hconn & H)%bind_inv_ok.
  apply bind_inv_ok in H as (c & st2 & (Hc & _ & Hst)%require_collection_inv_ok & H).
  subst st2.
  apply bind_inv_ok in H as (vector & st3 & Hemb & H).
  apply bind_inv_ok in H as (id & st4 & Hhash & H).
  apply bind_inv_ok in H as (now & st5 & Hnow & H).
  apply connect_same_store in Hconn. apply generateEmbedding_same_store in Hemb.
  apply hashString_idOf in Hhash as [-> Hhash].
  unfold get in Hnow. injection Hnow as <- <-.
  apply client_upsert_inv_ok in H as (col & Hcol & Hq).
  exists c, col, id, vector, (clock (n_calls st3)).
  unfold same_store in *. split; [done|]. split; [done|].
  split; [congruence|]. rewrite Hq. congruence.
Qed.

Lemma client_delete_inv_ok c s st st' :
  client_delete c s st = (Ok tt, st') →
  ∃ col, qdrant st !! c = Some col
         ∧ qdrant st' = <[c := delete_points s col]> (qdrant st).
Proof.
  unfold client_delete. destruct (delete_fault _ _ _); [done|].
  unfold on_collection. simpl.
  destruct (qdrant st !! c) as [col|] eqn:Hc; [|done].
  unfold modify. intros H. exists col. by simplify_eq.
Qed.

Lemma deleteRelation_inv rel st st' :
  deleteRelation rel st = (Ok tt, st') →
  ∃ c col id,
    COLLECTION_NAME = Some c
    ∧ idOf (relationIdStr rel) id
    ∧ qdrant st !! c = Some col
    ∧ qdrant st' = <[c := delete_points (ByPoints [id]) col]> (qdrant st).
Proof.
  intros ([] & st1 & Hconn & H)%bind_inv_ok.
  apply bind_inv_ok in H as (c & st2 & (Hc & _ & ->)%require_collection_inv_ok & H).
  apply bind_inv_ok in H as (id & st3 & Hhash & H).
  apply hashString_idOf in Hhash as [-> Hhash].
  apply connect_same_store in Hconn. unfold same_store in Hconn.
  apply client_delete_inv_ok in H as (col & Hcol & Hq).
  exists c, col, id. split; [done|]. split; [done|].
  split; [congruence|]. rewrite Hq. congruence.
Qed.

(** X18. [deleteRelation] undoes [persistRelation]: after a relation is
    persisted and then deleted, the collection holds the points it held
    before, without the point of the relation's id; when no point had that
    id, it holds exactly the points it held before. The other collections
    are as they were. *)
Theorem deleteRelation_undoes_persistRelation (r : Relation)
    (st st1 st2 : State) :
  persistRelation r st = (Ok tt, st1) →
  deleteRelation r st1 = (Ok tt, st2) →
  ∃ c col col2 id,
    COLLECTION_NAME = Some c
    ∧ (∀ st0, hashString ("relation::"
                            +:+ (from r +:+ "-" +:+ relationType r
                                 +:+ "-" +:+ to r)
                            +:+ "::relation") st0
              = (Ok id, st0))
    ∧ qdrant st !! c = Some col
    ∧ qdrant st2 !! c = Some col2
    ∧ c_points col2 = delete id (c_points col)
    ∧ (c_points col !! id = None → c_points col2 = c_points col)
    ∧ (∀ k, k ≠ c → qdrant st2 !! k = qdrant st !! k).
Proof.
  intros (c & col & id & vector & now & Hc & Hid & Hcol & Hq1)%persist_inv
         (c' & col1 & id' & Hc' & Hid' & Hcol1 & Hq2)%deleteRelation_inv.
  assert (c' = c) as -> by congruence.
  assert (id' = id) as -> by by eapply (idOf_inj _ _ _ st).
  rewrite Hq1, lookup_insert_eq in Hcol1. injection Hcol1 as <-.
  eexists c, col, _, id. split; [done|]. split; [exact Hid|].
  split; [done|]. split; [by rewrite Hq2, lookup_insert_eq|]. simpl.
  rewrite delete_insert_eq. split; [done|]. split.
  - intros Hnone. by apply delete_id.
  - intros k Hk. by rewrite Hq2, lookup_insert_ne, Hq1, lookup_insert_ne.
Qed.

Lemma only_removed_same ids st st' :
  qdrant st' = qdrant st → only_removed ids st st'.
Proof.
  intros Hq c. rewrite Hq. by destruct (qdrant st !! c).
Qed.

Lemma only_removed_trans ids st1 st2 st3 :
  only_removed ids st1 st2 → only_removed ids st2 st3 →
  only_removed ids st1 st3.
Proof.
  intros H12 H23 c. specialize (H12 c). specialize (H23 c).
  destruct (qdrant st1 !! c), (qdrant st2 !! c), (qdrant st3 !! c);
    try done.
  destruct H12 as [Ha1 Hb1], H23 as [Ha2 Hb2]. split.
  - intros id Hid. by rewrite Ha2, Ha1.
  - intros id p Hp. by apply Hb1, Hb2.
Qed.

Lemma only_removed_mono (ids ids' : Z → Prop) st st' :
  (∀ id, ids id → ids' id) → only_removed ids st st' →
  only_removed ids' st st'.
Proof.
  intros Hsub H c. specialize (H c).
  destruct (qdrant st !! c), (qdrant st' !! c); try done.
  destruct H as [Ha Hb]. split; [|done].
  intros id Hid. apply Ha. intros ?. by apply Hid, Hsub.
Qed.

Lemma deleteRelation_only_removed rel :
  preserves (only_removed (idOf (relationIdStr rel))) (deleteRelation rel).
Proof.
  pose proof (only_removed_same (idOf (relationIdStr rel))) as Hs.
  pose proof (only_removed_trans (idOf (relationIdStr rel))) as Ht.
  unfold deleteRelation.
  apply preserves_bind; [done|by apply preserves_connect|]. intros _.
  apply preserves_bind; [done|by apply preserves_require_collection|].
  intros c.
  apply preserves_bind_ok; [done| |].
  { unfold hashString, readUInt32BE.
    repeat case_match; by (apply preserves_ret || apply preserves_throw). }
  intros id (st0 & st1 & [_ Hid]%hashString_idOf).
  intros st r st'. unfold client_delete.
  destruct (delete_fault _ _ _); [intros; simplify_eq; by apply Hs|].
  unfold on_collection. simpl.
  destruct (qdrant st !! c) as [col|] eqn:Hcol;
    [|intros; simplify_eq; by apply Hs].
  unfold modify. intros H. simplify_eq. intros k. simpl.
  destruct (decide (k = c)) as [->|Hne].
  - rewrite Hcol, lookup_insert_eq. simpl. split.
    + intros id' Hid'. rewrite lookup_delete_ne; [done|]. by intros <-.
    + intros id' p Hp. destruct (decide (id' = id)) as [->|Hne].
      * by rewrite lookup_delete_eq in Hp.
      * by rewrite lookup_delete_ne in Hp.
  - rewrite lookup_insert_ne by done. by destruct (qdrant st !! k).
Qed.

Lemma deleteRelations_only_removed relations :
  preserves (only_removed (relationIds relations)) (deleteRelations relations).
Proof.
  induction relations as [|rel relations IH]; simpl.
  - apply preserves_ret, only_removed_same.
  - apply preserves_bind; [apply only_removed_trans| |intros _].
    + intros st r st' H. eapply only_removed_mono;
        [|by eapply deleteRelation_only_removed].
      intros id Hid. exists rel. split; [by left|done].
    + intros st r st' H. eapply only_removed_mono; [|by eapply IH].
      intros id (rel' & Hin & Hid). exists rel'. split; [by right|done].
Qed.

(** X19. [deleteRelations] removes the points of its relations and nothing
    else. Whatever its outcome, no collection is added or lost, no point is
    added or changed, and every point whose id is not the id of one of the
    relations is still there. When it succeeds, the configured collection
    holds no point under the id of any of the relations. *)
Theorem deleteRelations_remove_only_their_points (relations : list Relation)
    (st : State) :
  (∀ r st',
     deleteRelations relations st = (r, st') →
     only_removed (relationIds relations) st st')
  ∧ (∀ st',
       deleteRelations relations st = (Ok tt, st') →
       ∀ c col' id,
         COLLECTION_NAME = Some c → qdrant st' !! c = Some col' →
         relationIds relations id → c_points col' !! id = None).
Proof.
  split.
  - intros r st'. apply deleteRelations_only_removed.
  - revert st. induction relations as [|rel relations IH];
      intros st st' H c col' id Hc Hcol' (rel' & Hin & Hid).
    + by apply elem_of_nil in Hin.
    + simpl in H. apply bind_inv_ok in H as ([] & st1 & Hdel & H).
      apply elem_of_cons in Hin as [->|Hin];
        [|eapply IH; [done..|by exists rel']].
      apply deleteRelation_inv in Hdel
        as (c0 & col & id0 & Hc0 & Hid0 & Hcol & Hq).
      assert (c0 = c) as -> by congruence.
      assert (id0 = id) as -> by by eapply (idOf_inj _ _ _ st).
      pose proof (deleteRelations_only_removed relations _ _ _ H c) as Hrem.
      rewrite Hq, lookup_insert_eq, Hcol' in Hrem.
      destruct Hrem as [_ Hb].
      destruct (c_points col' !! id) as [p|] eqn:Hp; [|done].
      apply Hb in Hp. simpl in Hp. by rewrite lookup_delete_eq in Hp.
Qed.

Lemma bind_ext {A B} (m : M A) (k1 k2 : A → M B) st :
  (∀ a st', k1 a st' = k2 a st') → bind m k1 st = bind m k2 st.
Proof. intros Hk. unfold bind. by destruct (m st) as [[a|e|] st']. Qed.

(** X20. When the graph cannot be read, [deleteEntities] does not report it:
    it deletes the chunks of each entity and none of the relations that
    touch it, as if the graph were empty. *)
Theorem deleteEntities_without_graph (entityNames : list string)
    (st st1 : State) (e : string) :
  scrollAll (Some {| mode := Some raw; entityTypes := None;
                     limit := Some (inject_Z JS.MAX_SAFE_INTEGER) |}) st
  = (Throw e, st1) →
  deleteEntities entityNames st
  = fold_right (fun n rest => deleteEntity n ;;; rest) (ret tt) entityNames st1.
Proof.
  intros Hscroll. unfold deleteEntities.
  assert (getRawGraph (Some (inject_Z JS.MAX_SAFE_INTEGER)) None st
          = (Ok emptyGraph, st1)) as Hg.
  { unfold getRawGraph. by erewrite try_catch_default_of_throw. }
  rewrite (bind_ok _ _ _ _ _ Hg). clear. revert st1.
  induction entityNames as [|n entityNames IH]; intros st1; simpl; [done|].
  apply bind_ext. intros [] st2. etrans; [|apply IH]. reflexivity.
Qed.


(** ** Observations *)

Lemma findEntity_named g n entity :
  findEntity g n = Some entity → name entity = n ∧ entity ∈ entities g.
Proof.
  bare. unfold findEntity. intros H.
  apply find_some in H as [Hin Hn]. apply bool_decide_eq_true in Hn.
  split; [done|]. by apply list_elem_of_In.
Qed.

(** X21. [addObservations] looks the entity up in the graph as it reads it.
    When no entity has the name it throws ["Entity not found"], in the state
    the read left. Otherwise it persists the first entity of that name with the
    new observations appended to the ones read: the chunk is stored under
    the id of the manual entity of that name, with the entity's type, the
    extended list of observations and their join as content. *)
Theorem addObservations_appends (entityName : string) (contents : list string)
    (st st0 : State) (g : KnowledgeGraph) :
  getRawGraph (Some (inject_Z JS.MAX_SAFE_INTEGER)) None st = (Ok g, st0) →
  match findEntity g entityName with
  | None =>
      addObservations entityName contents st
      = (Throw ("Entity not found: " +:+ entityName), st0)
  | Some entity =>
      entity ∈ entities g
      ∧ ∀ st',
          addObservations entityName contents st = (Ok tt, st') →
          ∃ p payload,
            storedUnder ("manual::" +:+ entityName +:+ "::metadata") p st'
            ∧ pt_payload p = Some payload
            ∧ chunk_type payload = "metadata"
            ∧ entity_name payload = entityName
            ∧ entity_type payload = entityType entity
            ∧ p_observations payload
              = Some (observations entity ++ contents)%list
            ∧ content payload
              = JS.join ". " (observations entity ++ contents)%list
  end.
Proof.
  intros Hg. unfold addObservations. rewrite (bind_ok _ _ _ _ _ Hg).
  destruct (findEntity g entityName) as [entity|] eqn:Hfind; [|done].
  apply findEntity_named in Hfind as [Hname Hin]. split; [done|].
  intros st' (p & now & Hp & Hpay)%persistEntity_wrote%wrote_storedUnder.
  simpl in Hp. rewrite Hname in Hp.
  eexists p, _. split; [exact Hp|]. split; [exact Hpay|]. by rewrite <- Hname.
Qed.

(** X22. [deleteObservations] persists the first entity of the name with the
    listed observations removed: the stored list is the list read without
    every occurrence of a listed observation, the others in their order.
    When no entity has the name it throws ["Entity not found"]. *)
Theorem deleteObservations_removes (entityName : string)
    (removed : list string) (st st0 : State) (g : KnowledgeGraph) :
  getRawGraph (Some (inject_Z JS.MAX_SAFE_INTEGER)) None st = (Ok g, st0) →
  match findEntity g entityName with
  | None =>
      deleteObservations entityName removed st
      = (Throw ("Entity not found: " +:+ entityName), st0)
  | Some entity =>
      ∀ st',
        deleteObservations entityName removed st = (Ok tt, st') →
        ∃ p payload kept,
          storedUnder ("manual::" +:+ entityName +:+ "::metadata") p st'
          ∧ pt_payload p = Some payload
          ∧ p_observations payload = Some kept
          ∧ kept `sublist_of` observations entity
          ∧ (∀ o, o ∈ kept ↔ o ∈ observations entity ∧ o ∉ removed)
          ∧ content payload = JS.join ". " kept
  end.
Proof.
  intros Hg. unfold deleteObservations. rewrite (bind_ok _ _ _ _ _ Hg).
  destruct (findEntity g entityName) as [entity|] eqn:Hfind; [|done].
  apply findEntity_named in Hfind as [Hname Hin].
  intros st' (p & now & Hp & Hpay)%persistEntity_wrote%wrote_storedUnder.
  simpl in Hp. rewrite Hname in Hp.
  eexists p, _, _. split; [exact Hp|]. split; [exact Hpay|].
  split; [reflexivity|]. split; [apply sublist_filter|]. split; [|done].
  intros o. simpl. rewrite list_elem_of_filter. unfold JS.includes.
  rewrite bool_decide_eq_false. split; intros [? ?]; by split.
Qed.


(** ** The graph around one entity *)

(** X23. [getEntitySpecificGraph] fails where the other graph reads give an
    empty graph. When the store holds no metadata chunk of the name it
    throws ["Entity '<name>' not found"], after one call; while the store is
    down it throws the error of the store. In both cases the store is left
    as it was. *)
Theorem entity_graph_errors (entityName : string) (mode : option GraphMode)
    (limit : option Q) (st : State) :
  initialized st = true →
  JS.truthy COLLECTION_NAME = true →
  (∀ col,
     qdrant st !! COLLECTION_NAME_asserted = Some col →
     fault (n_calls st)
       (Search COLLECTION_NAME_asserted
          (targetRequest entityName
             (replicate (Z.to_nat (vectorSize st)) 0%Q))) = None →
     search_answer col
       (targetRequest entityName (replicate (Z.to_nat (vectorSize st)) 0%Q))
     = [] →
     getEntitySpecificGraph entityName mode limit st
     = (Throw ("Entity '" +:+ entityName +:+ "' not found"),
        set_calls (S (n_calls st)) st))
  ∧ (store_down (n_calls st) →
     ∃ e, getEntitySpecificGraph entityName mode limit st
          = (Throw e, set_calls (S (n_calls st)) st)).
Proof.
  intros Hinit Hcfg. unfold getEntitySpecificGraph, COLLECTION_NAME_asserted.
  destruct COLLECTION_NAME as [c|] eqn:Hc; [|done].
  assert (c ≠ "") as Hne by (by intros ->).
  simpl. split.
  - intros col Hcol Hfault Hanswer.
    rewrite (bind_ok _ _ _ _ _ (connect_initialized _ Hinit)).
    rewrite (bind_ok _ _ _ _ _ (require_collection_ok "" c st Hc Hne)).
    unfold zeroVector. unfold bind at 1, get at 1.
    unfold bind at 1, client_search, call. rewrite Hfault.
    unfold on_collection. simpl. rewrite Hcol. unfold ret at 1.
    by rewrite Hanswer.
  - intros Hdown.
    rewrite (bind_ok _ _ _ _ _ (connect_initialized _ Hinit)).
    rewrite (bind_ok _ _ _ _ _ (require_collection_ok "" c st Hc Hne)).
    unfold zeroVector. unfold bind at 1, get at 1.
    unfold bind at 1, client_search, call.
    destruct (Hdown (n_calls st)
                (Search c (targetRequest entityName
                             (replicate (Z.to_nat (vectorSize st)) 0%Q))))
      as [e He]; [lia|done|].
    rewrite He. by exists e.
Qed.

(** X24. A relation created by [persistRelation] does not show in the graph
    around an entity: that graph is made of the relation chunks that carry
    a [relation_target], and the chunk [persistRelation] stores carries
    none. Such a point adds nothing to the relations of a page. *)
Theorem created_relation_not_in_entity_graph (r : Relation) (st st' : State) :
  persistRelation r st = (Ok tt, st') →
  ∃ p,
    storedUnder ("relation::"
                 +:+ (from r +:+ "-" +:+ relationType r +:+ "-" +:+ to r)
                 +:+ "::relation") p st'
    ∧ (pt_payload p ≫= relation_target) = None
    ∧ relationOfChunk p = None
    ∧ ∀ before after,
        omap relationOfChunk (before ++ p :: after)%list
        = omap relationOfChunk (before ++ after)%list.
Proof.
  intros (p & now & Hp & Hpay)%persistRelation_wrote%wrote_storedUnder.
  exists p. split; [exact Hp|].
  assert (relationOfChunk p = None) as Hnone.
  { unfold relationOfChunk, isRelationChunk. by rewrite Hpay. }
  split; [by rewrite Hpay|]. split; [exact Hnone|].
  intros before after.
  rewrite !omap_app. f_equal.
  change (omap relationOfChunk (p :: after))
    with (match relationOfChunk p with
          | Some y => y :: omap relationOfChunk after
          | None => omap relationOfChunk after
          end).
  by rewrite Hnone.
Qed.

Lemma getEntitySpecificGraph_inv_ok entityName mode limit st view st' :
  getEntitySpecificGraph entityName mode limit st = (Ok view, st') →
  ∃ target entities relatedRelations st1,
    match default smart mode with
    | smart =>
        ∃ s, formatSmartEntityGraph target entities relatedRelations st1
             = (Ok s, st')
             ∧ view = SmartView s
    | _ => view = FlatView {| entities := entities;
                              relations := relatedRelations |}
    end.
Proof.
  intros ([] & st1 & _ & H)%bind_inv_ok.
  apply bind_inv_ok in H as (c & st2 & _ & H).
  apply bind_inv_ok in H as (vector & st3 & _ & H).
  apply bind_inv_ok in H as (targetEntityResults & st4 & _ & H).
  destruct targetEntityResults as [|target rest]; [done|].
  apply bind_inv_ok in H as (relatedRelations & st5 & _ & H).
  apply bind_inv_ok in H as (ents & st6 & _ & H).
  exists target, ents, relatedRelations, st6.
  destruct (default smart mode); try (unfold ret in H; by simplify_eq).
  apply bind_inv_ok in H as (s & st7 & Hs & H).
  unfold ret in H. exists s. by simplify_eq.
Qed.

(** X25. The summary of the graph around an entity is bounded: it carries
    at most 10 entities and the first 50 relations, while the counts it
    reports are those of all the relations found; the incoming and the
    outgoing relations are each at most that many. The summary is what the
    mode [smart] and no mode give; every other mode gives the plain
    graph. *)
Theorem smart_view_is_bounded (entityName : string) (mode : option GraphMode)
    (limit : option Q) (st st' : State) (view : EntityGraph) :
  getEntitySpecificGraph entityName mode limit st = (Ok view, st') →
  match view with
  | SmartView s =>
      (mode = None ∨ mode = Some smart)
      ∧ (length (smart_entities s) ≤ 10)%nat
      ∧ length (smart_relations s) = (50 `min` total_connections s)%nat
      ∧ (incoming s ≤ total_connections s)%nat
      ∧ (outgoing s ≤ total_connections s)%nat
  | FlatView g => mode ≠ None ∧ mode ≠ Some smart
  end.
Proof.
  intros (target & ents & rels & st1 & H)%getEntitySpecificGraph_inv_ok.
  destruct mode as [[]|]; simpl in H; try (by subst view).
  all: destruct H as (s & Hs & ->).
  all: unfold formatSmartEntityGraph in Hs.
  all: destruct (sp_payload target) as [payload|]; [|done].
  all: unfold ret in Hs; injection Hs as <- <-; simpl.
  all: rewrite !length_take.
  all: repeat split; try lia; try (by left); try (by right);
    apply length_filter.
Qed.


(** ** The metadata chunks, bounded *)

Lemma within_ret {A} (a : A) : within 0 (ret a).
Proof. intros st r st' [= <- <-]. split; [done|lia]. Qed.

Lemma within_throw {A} e : within 0 (@throw A e).
Proof. intros st r st' [= <- <-]. split; [done|lia]. Qed.

Lemma within_get {A} (f : State → A) : within 0 (get f).
Proof. intros st r st' [= <- <-]. split; [done|lia]. Qed.

Lemma within_modify f :
  (∀ st, n_calls (f st) = n_calls st) → within 0 (modify f).
Proof. intros Hf st r st' [= <- <-]. rewrite Hf. split; [done|lia]. Qed.

Lemma within_mono {A} k k' (m : M A) :
  (k ≤ k')%nat → within k m → within k' m.
Proof. intros Hk Hm st r st' H. apply Hm in H. destruct H as [Hne Hc]. split; [exact Hne|lia]. Qed.

Lemma within_bind {A B} k1 k2 (m : M A) (f : A → M B) :
  within k1 m → (∀ a, within k2 (f a)) → within (k1 + k2) (bind m f).
Proof.
  intros Hm Hf st r st' H. unfold bind in H.
  destruct (m st) as [[a|e|] st1] eqn:Hm1; apply Hm in Hm1.
  - apply Hf in H. destruct H as [Hne Hc]. split; [exact Hne|lia].
  - injection H as <- <-. split; [done|lia].
  - by destruct Hm1.
Qed.

Lemma within_try_catch {A} k1 k2 (m : M A) h :
  within k1 m → (∀ e, within k2 (h e)) → within (k1 + k2) (try_catch m h).
Proof.
  intros Hm Hh st r st' H. unfold try_catch in H.
  destruct (m st) as [[a|e|] st1] eqn:Hm1; apply Hm in Hm1.
  - injection H as <- <-. split; [done|lia].
  - apply Hh in H. destruct H as [Hne Hc]. split; [exact Hne|lia].
  - by destruct Hm1.
Qed.

Lemma within_call {A} k c (answer : M A) :
  within k answer → within (S k) (call c answer).
Proof.
  intros Ha st r st' H. unfold call in H.
  destruct (fault (n_calls st) c).
  - injection H as <- <-. simpl. split; [done|lia].
  - apply Ha in H. simpl in H. destruct H as [Hne Hc]. split; [exact Hne|lia].
Qed.

Lemma within_on_collection {A} k collection (f : Collection → M A) :
  (∀ c, within k (f c)) → within k (on_collection collection f).
Proof.
  intros Hf st r st' H. unfold on_collection in H.
  destruct (qdrant st !! collection).
  - by apply Hf in H.
  - injection H as <- <-. split; [done|lia].
Qed.

Lemma within_require_collection where_ : within 0 (require_collection where_).
Proof.
  unfold require_collection. destruct COLLECTION_NAME; [case_bool_decide|].
  - apply within_throw.
  - apply within_ret.
  - apply within_throw.
Qed.

Lemma within_client_getCollections : within 1 client_getCollections.
Proof. apply within_call, within_get. Qed.

Lemma within_connect_attempts retries :
  within retries (connect_attempts retries).
Proof.
  induction retries as [|retries IH]; [apply within_ret|].
  apply (within_try_catch 1 retries).
  - apply (within_bind 1 0); [apply within_client_getCollections|].
    intros _. by apply within_modify.
  - intros e. destruct retries; [apply within_throw|apply IH].
Qed.

Lemma within_connect : within 3 connect.
Proof.
  apply (within_bind 0 3); [apply within_get|].
  intros [|]; [|apply within_connect_attempts].
  eapply within_mono; [|apply within_ret]. lia.
Qed.

Lemma within_initialize : within 5 initialize.
Proof.
  apply (within_bind 3 2); [apply within_connect|]. intros _.
  apply (within_bind 0 2); [apply within_require_collection|]. intros c.
  apply (within_try_catch 2 0); [|intros e; apply within_throw].
  apply (within_bind 1 1); [apply within_client_getCollections|].
  intros collections. case_bool_decide.
  - apply (within_bind 1 0).
    + apply within_call, within_on_collection. intros col. apply within_ret.
    + intros info. destruct (currentVectorSize info) as [n|];
        [destruct (n =? 0)|]; try apply within_ret.
      by apply within_modify.
  - apply (within_bind 1 0).
    + apply within_call. intros st r st' Hrun.
      destruct (qdrant st !! c); injection Hrun as <- <-; simpl;
        (split; [done|lia]).
    + intros _. by apply within_modify.
Qed.

Lemma within_client_scroll_cursor c r : within 1 (client_scroll_cursor c r).
Proof.
  intros st res st' H. unfold client_scroll_cursor in H.
  destruct (cursor_scroll_fault (n_calls st) c r).
  - injection H as <- <-. simpl. split; [done|lia].
  - apply (within_on_collection 0) in H;
      [simpl in H; destruct H as [Hne Hc]; split; [exact Hne|lia]|].
    intros col. apply within_ret.
Qed.

(** What the loop keeps of the chunks collected so far: they are counted,
    and the last of them was taken below the limit. *)
Definition collected_ok (limit : Q) (acc : list Payload * Z) : Prop :=
  acc.2 = Z.of_nat (length acc.1)
  ∧ (acc.1 = [] ∨ (inject_Z acc.2 - 1 < limit)%Q).

Lemma collectChunk_ok limit acc point :
  collected_ok limit acc →
  collected_ok limit (collectChunk limit acc point)
  ∧ (length acc.1 ≤ length (collectChunk limit acc point).1
     ∧ length (collectChunk limit acc point).1 ≤ S (length acc.1))%nat.
Proof.
  intros [Hcount Hlast]. unfold collectChunk.
  destruct (pt_payload point) as [payload|]; [|split; [done|lia]].
  destruct (Qlt_le_dec _ _) as [Hlt|_]; [|split; [done|lia]].
  unfold collected_ok. simpl. rewrite length_app. simpl. split; [split|lia].
  - lia.
  - right. rewrite inject_Z_plus. unfold Qminus.
    rewrite <- Qplus_assoc. change (inject_Z 1 + - 1)%Q with 0%Q.
    by rewrite Qplus_0_r.
Qed.

Lemma fold_collectChunk_ok limit points acc :
  collected_ok limit acc →
  collected_ok limit (foldl (collectChunk limit) acc points)
  ∧ (length acc.1 ≤ length (foldl (collectChunk limit) acc points).1
     ∧ length (foldl (collectChunk limit) acc points).1
       ≤ length acc.1 + length points)%nat.
Proof.
  revert acc. induction points as [|p points IH]; intros acc Hacc; simpl.
  - split; [done|lia].
  - destruct (collectChunk_ok limit acc p Hacc) as [Hok Hlen].
    destruct (IH _ Hok) as [Hok' Hlen']. split; [done|lia].
Qed.

Lemma honours_limit_100 col r :
  honours_limit → (cs_limit r <= 100)%Q →
  (length (sc_points (cursor_scroll_answer col r)) ≤ 100)%nat.
Proof.
  intros Hh Hr. specialize (Hh col r).
  assert (Qmax 0 (cs_limit r) <= 100)%Q as Hmax.
  { apply Q.max_lub; [done|exact Hr]. }
  pose proof (Qle_trans _ _ _ Hh Hmax) as Hle.
  change 100%Q with (inject_Z 100) in Hle.
  rewrite <- Zle_Qle in Hle. lia.
Qed.

Lemma metadataChunksLoop_bounded n c limit offset chunks collected batchCount
    st r st' :
  collected_ok limit (chunks, collected) →
  (batchCount ≤ 50)%nat →
  (51 - batchCount ≤ n)%nat →
  metadataChunksLoop n c limit offset chunks collected batchCount st
  = (r, st') →
  r ≠ OutOfFuel
  ∧ (n_calls st ≤ n_calls st' ∧ n_calls st' ≤ n_calls st + (51 - batchCount))%nat
  ∧ ∀ out, r = Ok out →
      (out = [] ∨ (inject_Z (Z.of_nat (length out)) - 1 < limit)%Q)
      ∧ (honours_limit →
         (length out ≤ length chunks + 100 * (51 - batchCount))%nat).
Proof.
  revert offset chunks collected batchCount st.
  induction n as [|n IH]; intros offset chunks collected batchCount st
    Hok Hb Hn Hrun; [lia|].
  simpl in Hrun. unfold bind at 1 in Hrun.
  destruct (client_scroll_cursor _ _ st) as [[page|e|] st1] eqn:Hscroll.
  2:{ injection Hrun as <- <-. apply within_client_scroll_cursor in Hscroll.
      split; [done|]. split; [lia|done]. }
  2:{ apply within_client_scroll_cursor in Hscroll. by destruct Hscroll. }
  assert (∀ col, qdrant st !! c = Some col →
                 page = cursor_scroll_answer col
                          {| cs_limit := Qmin 100 (limit - inject_Z collected);
                             cs_offset := offset;
                             cs_filter := metadataOnlyFilter |}) as Hpage.
  { intros col Hcol. unfold client_scroll_cursor, on_collection, ret in Hscroll.
    simpl in Hscroll. rewrite Hcol in Hscroll.
    by repeat case_match; simplify_eq. }
  assert (honours_limit → (length (sc_points page) ≤ 100)%nat) as Hpage100.
  { intros Hh. unfold client_scroll_cursor, on_collection, ret in Hscroll.
    simpl in Hscroll.
    destruct (qdrant st !! c) as [col|] eqn:Hcol;
      [|repeat case_match; simplify_eq].
    rewrite (Hpage col eq_refl). apply honours_limit_100; [done|].
    simpl. apply Q.le_min_l. }
  apply within_client_scroll_cursor in Hscroll.
  destruct (fold_collectChunk_ok limit (sc_points page) (chunks, collected) Hok)
    as [Hok' Hlen]. simpl in Hlen.
  set (acc := foldl (collectChunk limit) (chunks, collected) (sc_points page))
    in *.
  assert ((acc.1 = [] ∨ (inject_Z (Z.of_nat (length acc.1)) - 1 < limit)%Q)
          ∧ (honours_limit →
             (length acc.1 ≤ length chunks + 100 * (51 - batchCount))%nat))
    as Hret.
  { destruct Hok' as [Hcount Hlast]. split.
    - by rewrite <- Hcount.
    - intros Hh. specialize (Hpage100 Hh). lia. }
  destruct (50 <? S batchCount)%nat eqn:Hbreak.
  { injection Hrun as <- <-. split; [done|]. split; [lia|].
    by intros out [= <-]. }
  apply Nat.ltb_ge in Hbreak.
  destruct (isDefined _ && _) eqn:Hcont.
  - apply IH in Hrun; [|exact Hok'|lia|lia].
    destruct Hrun as (Hfuel & Hcalls & Hout).
    split; [done|]. split; [lia|].
    intros out Hr. destruct (Hout out Hr) as [Hlast Hbound].
    split; [done|]. intros Hh. specialize (Hbound Hh).
    specialize (Hpage100 Hh). lia.
  - injection Hrun as <- <-. split; [done|]. split; [lia|].
    by intros out [= <-].
Qed.

(** X26. [getMetadataChunks] always ends: it scrolls at most 51 times
    (once [initialize] has made its calls, at most five), whatever cursors
    the store hands out, and never returns more chunks than the limit
    allows. With the batch size of 100 that makes at most 5100 chunks from a
    store that honours the size asked for, so the default limit of 10000 is
    never reached. *)
Theorem getMetadataChunks_bounded (limit : option Q) (st st' : State)
    (r : Outcome (list Payload)) :
  (51 ≤ fuel)%nat →
  getMetadataChunks limit st = (r, st') →
  r ≠ OutOfFuel
  ∧ (n_calls st' ≤ n_calls st + 56)%nat
  ∧ ∀ chunks, r = Ok chunks →
      (chunks = []
       ∨ (inject_Z (Z.of_nat (length chunks)) - 1 < default 10000 limit)%Q)
      ∧ (honours_limit → (length chunks ≤ 51 * 100)%nat).
Proof.
  intros Hfuel Hrun. unfold getMetadataChunks in Hrun.
  unfold bind at 1 in Hrun.
  destruct (initialize st) as [[[]|e|] st1] eqn:Hinit;
    apply within_initialize in Hinit.
  2:{ injection Hrun as <- <-. split; [done|]. split; [lia|done]. }
  2:{ by destruct Hinit. }
  unfold bind at 1 in Hrun.
  destruct (require_collection "" st1) as [[c|e|] st2] eqn:Hreq;
    pose proof (within_require_collection "" _ _ _ Hreq) as Hcalls.
  2:{ injection Hrun as <- <-. split; [done|]. split; [lia|done]. }
  2:{ by destruct Hcalls. }
  apply metadataChunksLoop_bounded in Hrun; [|split; [done|by left]|lia|lia].
  destruct Hrun as (Hne & Hn & Hout). split; [done|]. split; [lia|].
  intros chunks Hr. destruct (Hout chunks Hr) as [Hlast Hbound].
  split; [done|]. intros Hh. specialize (Hbound Hh). simpl in Hbound. lia.
Qed.

End Program.

(* ===================================================================== *)
(** * Properties of the flat graph views *)
(* ===================================================================== *)

Section StreamingFacts.

Variable fitsInBudget : TokenBudget → KnowledgeGraph → bool.
Variable estimateTokensWithFormatting : KnowledgeGraph → Z.
Variable buildSmartStreamingResponse : BuildContext → StreamingGraphResponse.
Variable createBudget : Z → TokenBudget.
Variable DEFAULT_TOKEN_LIMIT : Z.

Lemma floor80_lt n : (0 < n)%nat → (floor80 n < n)%nat.
Proof.
  intros Hn. unfold floor80. apply Nat.Div0.div_lt_upper_bound. lia.
Qed.

Lemma fitLoop_shrinks budget reducer (P : KnowledgeGraph → Prop) :
  (∀ g, P g → P (reducer g)) →
  (∀ g, P g → isEmptyGraph g = false → (graphSize (reducer g) < graphSize g)%nat) →
  ∀ n g t, P g → (graphSize g < n)%nat →
    ∃ k,
      fitLoop fitsInBudget n budget reducer g t
      = Some (Nat.iter k reducer g, t || (0 <? k)%nat)
      ∧ (∀ j, (j < k)%nat →
           fitsInBudget budget (Nat.iter j reducer g) = false
           ∧ isEmptyGraph (Nat.iter j reducer g) = false)
      ∧ (fitsInBudget budget (Nat.iter k reducer g) = true
         ∨ isEmptyGraph (Nat.iter k reducer g) = true).
Proof.
  intros Hinv Hdec. induction n as [|n IH]; intros g t Hg Hsize; [lia|].
  simpl.
  destruct (isEmptyGraph g) eqn:Hempty.
  { exists 0%nat. simpl. rewrite orb_false_r.
    split; [done|]. split; [intros; lia|by right]. }
  destruct (fitsInBudget budget g) eqn:Hfits.
  { exists 0%nat. simpl. rewrite orb_false_r.
    split; [done|]. split; [intros; lia|by left]. }
  pose proof (Hdec g Hg Hempty) as Hlt.
  destruct (isEmptyGraph (reducer g)) eqn:Hempty'.
  { exists 1%nat. simpl. rewrite orb_true_r.
    split; [done|]. split; [|by right].
    intros j Hj. assert (j = 0%nat) as -> by lia. done. }
  destruct (IH (reducer g) true (Hinv g Hg)) as (k & Hrun & Hsteps & Hend);
    [lia|].
  exists (S k). rewrite Nat.iter_succ_r. rewrite orb_true_r.
  split; [by rewrite Hrun|]. split; [|done].
  intros [|j] Hj; [done|]. rewrite Nat.iter_succ_r. apply Hsteps. lia.
Qed.

Lemma fitContentToBudget_shrinks budget reducer (P : KnowledgeGraph → Prop)
    n content :
  (∀ g, P g → P (reducer g)) →
  (∀ g, P g → isEmptyGraph g = false → (graphSize (reducer g) < graphSize g)%nat) →
  P content → (graphSize content < n)%nat →
  ∃ result flag,
    fitContentToBudget fitsInBudget n content budget reducer
    = Some (result, flag)
    ∧ shrunkToFit fitsInBudget budget reducer content result
    ∧ (fitsInBudget budget content = true → result = content ∧ flag = false)
    ∧ (fitsInBudget budget content = false → isEmptyGraph content = false →
       flag = true)
    ∧ (fitsInBudget budget content = false → isEmptyGraph content = true →
       result = content ∧ flag = false).
Proof.
  intros Hinv Hdec Hcontent Hsize. unfold fitContentToBudget.
  destruct (fitsInBudget budget content) eqn:Hfits.
  - exists content, false. split; [done|]. split; [|by repeat split].
    exists 0%nat. simpl. split; [done|]. split; [intros; lia|by left].
  - destruct (fitLoop_shrinks budget reducer P Hinv Hdec n content false
                Hcontent Hsize) as (k & Hrun & Hsteps & Hend).
    eexists _, _. split; [exact Hrun|]. split; [by exists k|].
    split; [done|]. split.
    + intros _ Hempty. simpl.
      destruct k as [|k]; [|done]. simpl in Hend.
      destruct Hend; congruence.
    + intros _ Hempty. destruct k as [|k]; [done|].
      destruct (Hsteps 0%nat) as [_ Hne]; [lia|]. simpl in Hne. congruence.
Qed.

Lemma shrinkEntities_smaller g :
  relations g = [] → isEmptyGraph g = false →
  (graphSize (shrinkEntities g) < graphSize g)%nat.
Proof.
  unfold isEmptyGraph, graphSize, shrinkEntities. intros -> Hne. simpl.
  destruct (entities g) as [|e es] eqn:He; [done|].
  rewrite length_take.
  pose proof (floor80_lt (length (e :: es))) as Hlt. simpl in *. lia.
Qed.

Lemma shrinkRelations_smaller g :
  entities g = [] → isEmptyGraph g = false →
  (graphSize (shrinkRelations g) < graphSize g)%nat.
Proof.
  unfold isEmptyGraph, graphSize, shrinkRelations. intros -> Hne. simpl.
  destruct (relations g) as [|e es] eqn:He; [done|].
  rewrite length_take.
  pose proof (floor80_lt (length (e :: es))) as Hlt. simpl in *. lia.
Qed.

Lemma slice0_length_le {A} (n : Q) (l : list A) :
  (length (JS.slice0 n l) ≤ length l)%nat.
Proof.
  unfold JS.slice0. case_match; rewrite length_take; lia.
Qed.

Lemma filterAndLimitEntities_length entities options :
  (length (filterAndLimitEntities entities options) ≤ length entities)%nat.
Proof.
  unfold filterAndLimitEntities.
  repeat case_match; subst;
    try (etrans; [apply slice0_length_le|]);
    try apply length_filter; lia.
Qed.

(** C8, amended. The entities view and the relationships view apply the fit
    check to the whole list; a list that does not fit is cut to 4/5 of its
    length (rounded down), again and again, until it fits or is empty, and
    the response then carries the truncated flag. An empty list has nothing
    to cut: when it does not fit it is returned as it is, the flag not set.
    The raw view does not shrink: a graph that does not fit is answered
    with the empty graph, the truncated flag and the reason
    ['Raw response too large - use smart, entities, or relationships mode
    with limits']. *)
Theorem flat_views_shrink_or_refuse (n : nat) (ents : list Entity)
    (rels : list Relation) (options : ScrollOptions) :
  (length ents < n)%nat →
  (length rels < n)%nat →
  let budget := createBudget DEFAULT_TOKEN_LIMIT in
  let build :=
    buildStreamingResponse fitsInBudget estimateTokensWithFormatting
      buildSmartStreamingResponse createBudget DEFAULT_TOKEN_LIMIT n
      ents rels options in
  (mode options = Some entities_mode →
   let content := {| entities :=
                       filterAndLimitEntities ents options;
                     relations := [] |} in
   ∃ r, build = Some r
        ∧ shrunkToFit fitsInBudget budget shrinkEntities content (response_content r)
        ∧ (fitsInBudget budget content = true →
           response_content r = content ∧ truncated (meta r) = false)
        ∧ (fitsInBudget budget content = false →
           filterAndLimitEntities ents options ≠ [] →
           truncated (meta r) = true)
        ∧ (fitsInBudget budget content = false →
           filterAndLimitEntities ents options = [] →
           response_content r = content ∧ truncated (meta r) = false))
  ∧ (mode options = Some relationships →
     let content := {| entities := [];
                       relations := rels |} in
     ∃ r, build = Some r
          ∧ shrunkToFit fitsInBudget budget shrinkRelations content (response_content r)
          ∧ (fitsInBudget budget content = true →
             response_content r = content ∧ truncated (meta r) = false)
          ∧ (fitsInBudget budget content = false → rels ≠ [] →
             truncated (meta r) = true)
          ∧ (fitsInBudget budget content = false → rels = [] →
             response_content r = content ∧ truncated (meta r) = false))
  ∧ (mode options = Some raw →
     let content := {| entities := ents;
                       relations := rels |} in
     ∃ r, build = Some r
          ∧ (fitsInBudget budget content = true →
             response_content r = content ∧ truncated (meta r) = false)
          ∧ (fitsInBudget budget content = false →
             response_content r = emptyGraph ∧ truncated (meta r) = true
             ∧ truncationReason (meta r)
               = Some "Raw response too large - use smart, entities, or relationships mode with limits"))
  ∧ (∀ g, length (entities (shrinkEntities g))
          = (length (entities g) * 4 / 5)%nat
          ∧ length (relations (shrinkRelations g))
            = (length (relations g) * 4 / 5)%nat).
Proof.
  intros Hentities Hrelations budget build.
  split; [|split; [|split]].
  - intros Hmode content. unfold build, buildStreamingResponse.
    rewrite Hmode. simpl. unfold buildEntitiesStreamingResponse. simpl.
    destruct (fitContentToBudget_shrinks budget shrinkEntities
                (fun g => relations g = []) n content)
      as (result & flag & Hrun & Hshrunk & Hfit & Hcut & Hnothing);
      [done|apply shrinkEntities_smaller|done| |].
    { unfold graphSize, content. simpl.
      pose proof (filterAndLimitEntities_length ents options). lia. }
    fold budget. fold content. rewrite Hrun. simpl.
    eexists. split; [done|]. simpl. split; [done|]. split; [done|]. split.
    + intros Hno Hne. apply Hcut; [done|].
      unfold isEmptyGraph, content. simpl.
      by destruct (filterAndLimitEntities ents options).
    + intros Hno Hnil. apply Hnothing; [done|].
      unfold isEmptyGraph, content. simpl. by rewrite Hnil.
  - intros Hmode content. unfold build, buildStreamingResponse.
    rewrite Hmode. simpl. unfold buildRelationshipsStreamingResponse. simpl.
    destruct (fitContentToBudget_shrinks budget shrinkRelations
                (fun g => entities g = []) n content)
      as (result & flag & Hrun & Hshrunk & Hfit & Hcut & Hnothing);
      [done|apply shrinkRelations_smaller|done| |].
    { unfold graphSize, content. simpl. lia. }
    fold budget. fold content. rewrite Hrun. simpl.
    eexists. split; [done|]. simpl. split; [done|]. split; [done|]. split.
    + intros Hno Hne. apply Hcut; [done|].
      unfold isEmptyGraph, content. simpl. by destruct rels.
    + intros Hno Hnil. apply Hnothing; [done|].
      unfold isEmptyGraph, content. simpl. by rewrite Hnil.
  - intros Hmode content. unfold build, buildStreamingResponse.
    rewrite Hmode. simpl. unfold buildRawStreamingResponse. simpl.
    fold budget. fold content.
    eexists. split; [done|].
    destruct (fitsInBudget budget content); simpl; (split; [done|]);
      try done; intros _; by repeat split.
  - intros g. unfold shrinkEntities, shrinkRelations, floor80. simpl.
    rewrite !length_take.
    assert (∀ m, (m * 4 / 5 ≤ m)%nat) as Hle.
    { intros m. apply Nat.Div0.div_le_upper_bound. lia. }
    pose proof (Hle (length (entities g))).
    pose proof (Hle (length (relations g))).
    split; apply Nat.min_l; done.
Qed.


(** X15. [filterAndLimitEntities] selects and cuts, it never reorders: its
    result is a subsequence of the entities given. With a non-empty type
    list every entity of the result has one of the listed types; with a
    positive limit the result has at most that many entities (the limit
    rounded down); with no limit, or the limit 0, nothing is cut. *)
Theorem filterAndLimitEntities_sound (ents : list Entity)
    (options : ScrollOptions) :
  let result := filterAndLimitEntities ents options in
  result `sublist_of` ents
  ∧ (∀ types, entityTypes options = Some types → types ≠ [] →
       Forall (fun e => entityType e ∈ types) result)
  ∧ (∀ l, limit options = Some l → (0 < l)%Q →
       Z.of_nat (length result) <= Qfloor l)
  ∧ (limit options = None ∨ limit options = Some 0%Q →
     result
     = match entityTypes options with
       | None | Some [] => ents
       | Some types =>
           filter (fun e => JS.includes (entityType e) types) ents
       end).
Proof.
  intros result. subst result. unfold filterAndLimitEntities.
  set (filtered := match entityTypes options with
                   | None | Some [] => ents
                   | Some types =>
                       filter (fun e => JS.includes (entityType e) types) ents
                   end).
  assert (filtered `sublist_of` ents) as Hsub.
  { unfold filtered. repeat case_match; try done; apply sublist_filter. }
  assert (∀ types, entityTypes options = Some types → types ≠ [] →
            Forall (fun e => entityType e ∈ types) filtered) as Htypes.
  { intros types Ht Hne. unfold filtered. rewrite Ht.
    destruct types as [|t types]; [done|].
    apply Forall_forall. intros e [He _]%list_elem_of_filter.
    unfold JS.includes in He. by apply bool_decide_unpack in He. }
  assert (∀ (l : Q), ∃ k, JS.slice0 l filtered = take k filtered) as Hslice.
  { intros l. unfold JS.slice0. case_match; by eexists. }
  repeat split.
  - repeat case_match; try done;
      (destruct (Hslice q) as [k ->]; etrans; [apply sublist_take|done]).
  - intros types Ht Hne. specialize (Htypes types Ht Hne).
    repeat case_match; try done;
      (destruct (Hslice q) as [k ->]; by apply Forall_take).
  - intros l Hl Hpos. rewrite Hl.
    destruct (Qeq_bool l 0) eqn:Hz.
    + apply Qeq_bool_iff in Hz. rewrite Hz in Hpos. by apply Qlt_irrefl in Hpos.
    + unfold JS.slice0, JS.trunc.
      assert (Qle_bool 0 l = true) as ->
        by by apply Qle_bool_iff, Qlt_le_weak.
      assert (0 <= Qfloor l) as Hfl.
      { change 0 with (Qfloor 0). by apply Qfloor_resp_le, Qlt_le_weak. }
      assert ((0 <=? Qfloor l) = true) as -> by by apply Z.leb_le.
      rewrite length_take. lia.
  - intros [Hl|Hl]; rewrite Hl; done.
Qed.

End StreamingFacts.

(* ===================================================================== *)
(** * The properties at work in the small world *)
(* ===================================================================== *)

Section Runs.

Local Abbreviation persistEntity_s :=
  (persistEntity Scenario.COLLECTION_NAME None None None Scenario.digest
     Scenario.no_fault Scenario.embedding_answer Scenario.clock).
Local Abbreviation persistRelation_s :=
  (persistRelation Scenario.COLLECTION_NAME None None None Scenario.digest
     Scenario.no_fault Scenario.embedding_answer Scenario.clock).

Lemma run_eq {A} (x : Outcome A * State) (a : A) :
  x.1 = Ok a → x = (Ok a, x.2).
Proof. destruct x as [o s]. simpl. by intros ->. Qed.

(** C1 at work, example scenario 1 of the specification: [foo] persisted with
    ["does X"], then with ["does Y"], into an empty collection. *)
Lemma persist_twice_one_chunk_foo :
  let st1 := (persistEntity_s foo_does_X Scenario.empty).2 in
  let st2 := (persistEntity_s foo_does_Y st1).2 in
  ∃ c col col1 col2 id p1 p2,
    Scenario.COLLECTION_NAME = Some c
    ∧ (∀ st0, hashString Scenario.digest
                ("manual::" +:+ name foo_does_Y +:+ "::metadata") st0
              = (Ok id, st0))
    ∧ qdrant Scenario.empty !! c = Some col
    ∧ qdrant st1 !! c = Some col1
    ∧ qdrant st2 !! c = Some col2
    ∧ c_points col1 = <[id := p1]> (c_points col)
    ∧ pt_payload p1 ≫= p_observations = Some (observations foo_does_X)
    ∧ c_points col2 = <[id := p2]> (c_points col)
    ∧ pt_payload p2 ≫= p_observations = Some (observations foo_does_Y)
    ∧ size (c_points col2) = size (c_points col1)
    ∧ (chunksOf "metadata" (name foo_does_Y) col = ∅ →
       chunksOf "metadata" (name foo_does_Y) col2 = {[id := p2]}).
Proof.
  intros st1 st2.
  apply (proj1 (persist_twice_one_chunk Scenario.COLLECTION_NAME None None
                  None Scenario.digest Scenario.no_fault
                  Scenario.embedding_answer Scenario.clock)
           foo_does_X foo_does_Y Scenario.empty st1 st2).
  - reflexivity.
  - apply run_eq. vm_compute. reflexivity.
  - apply run_eq. vm_compute. reflexivity.
Defined.

Local Abbreviation searchSimilar_s :=
  (searchSimilar Scenario.COLLECTION_NAME None None None Scenario.no_fault
     Scenario.search_answer Scenario.scroll_answer Scenario.embedding_answer
     Scenario.fuel Scenario.bm25_score).
Local Abbreviation handle_search_similar_s :=
  (handle_search_similar Scenario.COLLECTION_NAME None None None
     Scenario.no_fault Scenario.search_answer Scenario.scroll_answer
     Scenario.embedding_answer Scenario.fuel Scenario.bm25_score).

Lemma scenario_search_honours_limit (col : Collection) (r : SearchRequest) :
  (0 <= s_limit r)%Q →
  (inject_Z (Z.of_nat (length (Scenario.search_answer col r))) <= s_limit r)%Q.
Proof.
  intros Hpos. unfold Scenario.search_answer.
  assert (0 <= Qfloor (s_limit r)) as Hfloor.
  { change 0 with (Qfloor 0). by apply Qfloor_resp_le. }
  eapply Qle_trans; [|apply Qfloor_le].
  rewrite <- Zle_Qle, length_take. lia.
Qed.

(** C10 at work: a request for 1000 results is valid, and is served with a
    limit of 100. *)
Lemma search_limit_is_capped_1000 :
  let args : gmap string JS.value :=
    {[ "query" := JS.Str "parse"; "limit" := JS.Num 1000 ]} in
  let req := {| query := "parse"; q_limit := Some 1000%Q;
                q_entityTypes := None; searchMode := None |} in
  validateSearchSimilarRequest args = Ok req
  ∧ handle_search_similar_s args Scenario.codebase
    = searchSimilar_s "parse" None (Some (Qmax 1 (Qmin 1000 100))) None
        Scenario.codebase
  ∧ (Qmax 1 (Qmin 1000 100) == 100)%Q
  ∧ (length (results_of (handle_search_similar_s args Scenario.codebase))
     ≤ 100)%nat.
Proof.
  intros args req.
  assert (validateSearchSimilarRequest args = Ok req) as Hv
    by (vm_compute; reflexivity).
  destruct (search_limit_is_capped Scenario.COLLECTION_NAME None None None
              Scenario.no_fault Scenario.search_answer Scenario.scroll_answer
              Scenario.embedding_answer Scenario.fuel Scenario.bm25_score
              args req Scenario.codebase Hv scenario_search_honours_limit)
    as (Hrun & _ & _ & H100 & Hlen & _).
  split; [exact Hv|]. split; [exact Hrun|]. split; [by apply H100|].
  unfold results_of.
  destruct (handle_search_similar_s args Scenario.codebase) as [[l|e|] st']
    eqn:Hh; simpl; try lia.
  by eapply Hlen.
Defined.

(** C3, at a failing input. A request for a keyword search of ["scan"] is
    valid; the handler answers it with the nine results of the semantic
    search, not with the one result of the keyword search it asks for. *)
Lemma search_mode_keyword_is_dropped :
  let args : gmap string JS.value :=
    {[ "query" := JS.Str "scan"; "searchMode" := JS.Str "keyword" ]} in
  validateSearchSimilarRequest args
  = Ok {| query := "scan"; q_limit := None; q_entityTypes := None;
          searchMode := Some keyword |}
  ∧ (handle_search_similar_s args Scenario.codebase).1
    = (searchSimilar_s "scan" None (Some 50%Q) (Some semantic)
         Scenario.codebase).1
  ∧ length (results_of (handle_search_similar_s args Scenario.codebase)) = 9%nat
  ∧ names_of (results_of (searchSimilar_s "scan" None (Some 50%Q)
                            (Some keyword) Scenario.codebase))
    = ["_scan"].
Proof. intros args. repeat split; vm_compute; reflexivity. Qed.

Local Abbreviation performHybridSearch_s :=
  (performHybridSearch Scenario.COLLECTION_NAME None None None
     Scenario.no_fault Scenario.search_answer Scenario.embedding_answer
     Scenario.bm25_score).
Local Abbreviation initializeBM25Index_s :=
  (initializeBM25Index Scenario.COLLECTION_NAME Scenario.no_fault
     Scenario.scroll_answer Scenario.fuel).

(** C9, at a failing input. On a server that has answered no keyword search
    yet, a hybrid search of ["render"] reads the empty keyword index and
    leaves it empty. Its three results carry the semantic term of their
    rank and nothing else. They are not the results the search gives once
    the index has been rebuilt from the store: there the keyword half finds
    [render], whose score then lies above every score of the stale
    search. *)
Lemma hybrid_search_reads_stale_index :
  let stale := performHybridSearch_s "render" None 50 Scenario.codebase in
  let rebuilt := (initializeBM25Index_s Scenario.codebase).2 in
  let fresh := performHybridSearch_s "render" None 50 rebuilt in
  bm25Service Scenario.codebase = []
  ∧ bm25Service stale.2 = []
  ∧ length (bm25Service rebuilt) = 3%nat
  ∧ names_of
      (results_of
         (searchSimilar_s "render" None (Some 50%Q) (Some keyword)
            Scenario.codebase))
    = ["render"]
  ∧ Forall2 Qeq (map score (results_of stale))
      [0.7 / 61; 0.7 / 62; 0.7 / 63]%Q
  ∧ Exists (fun r => entity_name (data r) = "render"
                     ∧ (0.7 / 61 < score r)%Q)
      (results_of fresh)
  ∧ results_of stale ≠ results_of fresh.
Proof.
  intros stale rebuilt fresh.
  split; [reflexivity|]. split; [vm_compute; reflexivity|].
  split; [vm_compute; reflexivity|]. split; [vm_compute; reflexivity|].
  split; [|split].
  - set (scores := map score (results_of stale)).
    vm_compute in scores. subst scores. repeat constructor.
  - set (results := results_of fresh). vm_compute in results. subst results.
    apply Exists_cons_hd. split; [reflexivity|]. vm_compute. reflexivity.
  - intros H. apply (f_equal (map score)) in H. vm_compute in H.
    discriminate.
Qed.

(** C2 as stated fails on the example of the specification: with semantic ranks
    D1, D2, D3 and keyword ranks D3, D1 the fused order is D1, D3, D2, but
    the scores are not 0.7/61 + 0.3/61, 0.7/63 + 0.3/60 and 0.7/62: D1 is
    second in the keyword list and D3 first. The two halves of the claim
    disagree whatever the code is: the formula of its first sentence, with
    ranks counted from 1, gives D1 the keyword term 0.3/62 and D3 the
    keyword term 0.3/61, not the 0.3/61 and 0.3/60 of its example. *)
Lemma rrf_example_scores_differ :
  let fused :=
    fuseResults
      [semanticHit "D1" 0.9; semanticHit "D2" 0.8; semanticHit "D3" 0.7]
      [keywordHit "D3" 5; keywordHit "D1" 4] "memory" 0.7 0.3 60 in
  let semanticDocs := [Some "D1"; Some "D2"; Some "D3"] in
  let keywordDocs := [Some "D3"; Some "D1"] in
  names_of fused = ["D1"; "D3"; "D2"]
  ∧ ¬ Forall2 Qeq (map score fused)
        [0.7 / 61 + 0.3 / 61; 0.7 / 63 + 0.3 / 60; 0.7 / 62]%Q
  ∧ rank (Some "D1") keywordDocs = Some 2%nat
  ∧ rank (Some "D3") keywordDocs = Some 1%nat
  ∧ ¬ (fused_score semanticDocs keywordDocs 0.7 0.3 60 (Some "D1")
       == 0.7 / 61 + 0.3 / 61)%Q
  ∧ ¬ (fused_score semanticDocs keywordDocs 0.7 0.3 60 (Some "D3")
       == 0.7 / 63 + 0.3 / 60)%Q.
Proof.
  intros fused semanticDocs keywordDocs. split; [vm_compute; reflexivity|].
  split; [|split; [reflexivity|split; [reflexivity|split]]].
  - intros H. apply Forall2_cons_1 in H as [H _].
    vm_compute in H. discriminate.
  - intros H. vm_compute in H. discriminate.
  - intros H. vm_compute in H. discriminate.
Qed.

(** C2, amended, at work: a hybrid search of ["scan"] over a rebuilt
    index. The three entities are found by the semantic search, [_scan] by
    the keyword search as well. *)
Lemma hybrid_search_fuses_by_rank_scan :
  let st := (initializeBM25Index_s Scenario.codebase).2 in
  let run := performHybridSearch_s "scan" None 50 st in
  ∃ semanticResults keywordResults docs,
    performSemanticSearch Scenario.COLLECTION_NAME None None None
      Scenario.no_fault Scenario.search_answer Scenario.embedding_answer
      "scan" None 50 st = (Ok semanticResults, run.2)
    ∧ keywordResults
      = bm25_search Scenario.bm25_score (bm25Service run.2) "scan" 50 None
    ∧ NoDup docs
    ∧ Forall2 (fun doc r =>
                 score r
                 = fused_score (map semanticDoc semanticResults)
                     (map keywordDoc keywordResults) 0.7 0.3 60 doc
                 ∧ fusedData semanticResults keywordResults doc
                   = Some (data r))
        docs
        (fuseResults semanticResults keywordResults
           (COLLECTION_NAME_asserted Scenario.COLLECTION_NAME) 0.7 0.3 60)
    ∧ results_of run
      = JS.slice0 50
          (fuseResults semanticResults keywordResults
             (COLLECTION_NAME_asserted Scenario.COLLECTION_NAME) 0.7 0.3 60)
    ∧ sorted_desc score (results_of run)
    ∧ Z.of_nat (length (results_of run)) <= 50
    ∧ names_of (results_of run) = ["_scan"; "render"; "parse"].
Proof.
  intros st run.
  assert (run = (Ok (results_of run), run.2)) as Hrun.
  { apply run_eq. vm_compute. reflexivity. }
  destruct (hybrid_search_fuses_by_rank Scenario.COLLECTION_NAME None None
              None Scenario.no_fault Scenario.search_answer
              Scenario.embedding_answer Scenario.bm25_score
              "scan" None 50 st run.2 (results_of run) Hrun)
    as (sem & kw & docs & Hsem & Hkw & H & _).
  cbv zeta in H.
  destruct H as (Hnodup & _ & Hdocs & _ & _ & Hres & _ & Hsorted & Hlen).
  exists sem, kw, docs.
  refine (conj Hsem (conj Hkw (conj Hnodup (conj Hdocs (conj Hres
            (conj Hsorted (conj (Hlen _) _))))))).
  - discriminate.
  - vm_compute. reflexivity.
Defined.

Local Abbreviation buildStreamingResponse_s :=
  (buildStreamingResponse Scenario.fitsInBudget Scenario.estimateTokens
     (fun _ => {| response_content := emptyGraph;
                  meta := {| tokenCount := 0; tokenLimit := 0;
                             truncated := false; truncationReason := None;
                             sectionsIncluded := [] |} |})
     Scenario.budgetOf 2).

Local Abbreviation buildStreamingResponse_enveloped :=
  (buildStreamingResponse Scenario.fitsInBudgetEnveloped
     Scenario.estimateTokensEnveloped
     (fun _ => {| response_content := emptyGraph;
                  meta := {| tokenCount := 0; tokenLimit := 0;
                             truncated := false; truncationReason := None;
                             sectionsIncluded := [] |} |})
     Scenario.budgetOf 2).

(** C8 as stated fails on the raw view, and on an empty list. Three entities
    against a budget of two tokens: the raw view answers with the empty
    graph, although the list cut to 4/5 of its length (two entities) fits.
    No entity against a budget of two tokens, where the envelope alone
    takes three: the entities view returns the empty list, which does not
    fit, and the truncated flag is not set. *)
Lemma raw_view_does_not_shrink :
  (let content := {| entities := three_entities; relations := [] |} in
   ∃ r, buildStreamingResponse_s 10 three_entities [] (view raw) = Some r
        ∧ response_content r = emptyGraph
        ∧ truncated (meta r) = true
        ∧ Scenario.fitsInBudget (Scenario.budgetOf 2) content = false
        ∧ Scenario.fitsInBudget (Scenario.budgetOf 2) (shrinkEntities content)
          = true
        ∧ ¬ shrunkToFit Scenario.fitsInBudget (Scenario.budgetOf 2)
              shrinkEntities content (response_content r))
  ∧ (∃ r, buildStreamingResponse_enveloped 10 [] [] (view entities_mode)
          = Some r
          ∧ Scenario.fitsInBudgetEnveloped (Scenario.budgetOf 2)
              {| entities := []; relations := [] |} = false
          ∧ response_content r = {| entities := []; relations := [] |}
          ∧ truncated (meta r) = false).
Proof.
  split.
  - intros content. eexists. split; [vm_compute; reflexivity|].
    repeat split; try (vm_compute; reflexivity).
    intros (k & Hk & Hsteps & _).
    destruct k as [|[|k]]; [by vm_compute in Hk|by vm_compute in Hk|].
    destruct (Hsteps 1%nat) as [Hfits _]; [lia|].
    by vm_compute in Hfits.
  - eexists. split; [vm_compute; reflexivity|].
    repeat split; vm_compute; reflexivity.
Qed.

(** C8, amended, at work: the same three entities in the entities view.
    The list is cut to two entities, which fit. *)
Lemma flat_views_shrink_or_refuse_three :
  let content := {| entities := three_entities; relations := [] |} in
  ∃ r, buildStreamingResponse_s 10 three_entities [] (view entities_mode)
       = Some r
       ∧ shrunkToFit Scenario.fitsInBudget (Scenario.budgetOf 2)
           shrinkEntities content (response_content r)
       ∧ truncated (meta r) = true
       ∧ map name (entities (response_content r)) = ["a"; "b"].
Proof.
  intros content.
  destruct (flat_views_shrink_or_refuse Scenario.fitsInBudget
              Scenario.estimateTokens
              (fun _ => {| response_content := emptyGraph;
                           meta := {| tokenCount := 0; tokenLimit := 0;
                                      truncated := false;
                                      truncationReason := None;
                                      sectionsIncluded := [] |} |})
              Scenario.budgetOf 2 10 three_entities [] (view entities_mode))
    as (Hentities & _); [simpl; lia|simpl; lia|].
  destruct (Hentities eq_refl) as (r & Hr & Hshrunk & _ & Hcut & _).
  exists r. split; [exact Hr|]. split; [exact Hshrunk|].
  split; [by apply Hcut|].
  vm_compute in Hr. injection Hr as <-. reflexivity.
Defined.

Local Abbreviation getRawGraph_s :=
  (getRawGraph Scenario.COLLECTION_NAME None Scenario.no_fault
     Scenario.search_answer Scenario.scroll_answer Scenario.fuel).
Local Abbreviation addRelations_s :=
  (addRelations Scenario.COLLECTION_NAME None None None Scenario.digest
     Scenario.no_fault Scenario.search_answer Scenario.scroll_answer
     Scenario.embedding_answer Scenario.clock Scenario.fuel).
Local Abbreviation handle_create_relations_s :=
  (handle_create_relations Scenario.COLLECTION_NAME None None None
     Scenario.digest Scenario.no_fault Scenario.search_answer
     Scenario.scroll_answer Scenario.embedding_answer Scenario.clock
     Scenario.fuel).

(** C5 at work: a request for three relations whose second names the entity [ghost],
    which does not exist: the first relation is stored, the request fails
    at the second. *)
Lemma addRelations_missing_endpoint_ghost :
  let args : gmap string JS.value :=
    {[ "relations" :=
         JS.Arr [relationArg "parse" "render" "uses";
                 relationArg "parse" "ghost" "uses";
                 relationArg "render" "parse" "uses"] ]} in
  let read := getRawGraph_s (Some (inject_Z JS.MAX_SAFE_INTEGER)) None
                Scenario.codebase in
  let st1 := (persistRelation_s parse_uses_render read.2).2 in
  map name (entities (graph_of read)) = ["_scan"; "render"; "parse"]
  ∧ handle_create_relations_s args Scenario.codebase
    = (Throw "Entity not found: ghost", st1)
  ∧ relationStored Scenario.COLLECTION_NAME Scenario.digest
      parse_uses_render st1.
Proof.
  intros args read st1.
  destruct (addRelations_missing_endpoint Scenario.COLLECTION_NAME None None
              None Scenario.digest Scenario.no_fault Scenario.search_answer
              Scenario.scroll_answer Scenario.embedding_answer Scenario.clock
              Scenario.fuel [parse_uses_render] [render_uses_parse]
              parse_uses_ghost (graph_of read) Scenario.codebase read.2 st1
              args)
    as (missing & Hwhich & _ & _ & Hhandle & Hstored).
  - apply run_eq. vm_compute. reflexivity.
  - constructor; [|constructor]. split; vm_compute; reflexivity.
  - right. vm_compute. reflexivity.
  - apply persisted_cons with (st' := st1); [|apply persisted_nil].
    unfold st1. apply run_eq. vm_compute. reflexivity.
  - vm_compute. reflexivity.
  - split; [vm_compute; reflexivity|].
    assert (missing = "ghost") as ->.
    { destruct Hwhich as [-> | ->]; [|done].
      exfalso. by vm_compute in Hhandle. }
    split; [exact Hhandle|]. apply Hstored. by left.
Defined.

Local Abbreviation getRawData_s :=
  (_getRawData Scenario.COLLECTION_NAME Scenario.no_fault
     Scenario.scroll_answer Scenario.fuel).
Local Abbreviation client_scroll_s :=
  (client_scroll Scenario.no_fault Scenario.scroll_answer).

(** A scan of the code base with a cap of two entities and no filter. Five
    pages are read, two of the three entities are kept, and all three
    relations are returned. *)
Lemma getRawData_scans_every_page_codebase :
  let scan := scanned Scenario.COLLECTION_NAME Scenario.no_fault
                Scenario.scroll_answer 8 None Scenario.codebase in
  let ps := (scan_of scan).1 in
  let st' := (scan_of scan).2 in
  length ps = 5%nat
  ∧ ∃ g,
      getRawData_s (Some (inject_Z 2)) None Scenario.codebase = (Ok g, st')
      ∧ Z.of_nat (length (entities g)) <= 2
      ∧ relations g = relationChunks (pointsOf ps)
      ∧ length (relations g) = 3%nat.
Proof.
  intros scan ps st'.
  split; [vm_compute; reflexivity|].
  assert (scan = Some (ps, st')) as Hscan by (vm_compute; reflexivity).
  destruct (getRawData_scans_every_page Scenario.COLLECTION_NAME
              Scenario.no_fault Scenario.scroll_answer Scenario.fuel
              2 None Scenario.codebase st' ps)
    as (g & Hrun & Hcap & _ & Hall).
  - lia.
  - by apply scanned_pages with (n := 8%nat).
  - vm_compute. lia.
  - exists g.
    refine (conj Hrun (conj Hcap (conj (Hall eq_refl) _))).
    rewrite (Hall eq_refl). vm_compute. reflexivity.
Defined.


Local Abbreviation getImplementationChunks_s :=
  (getImplementationChunks Scenario.COLLECTION_NAME Scenario.no_fault
     Scenario.search_answer).

(** C7 at work. The implementation of [parse]: alone with scope [minimal], together
    with [_scan] and [render], which it calls in the same file, with scope
    [logical]. *)
Lemma scope_expansion_keeps_base_parse :
  let minimalRun :=
    getImplementationChunks_s "parse" (Some minimal) None Scenario.codebase in
  let logicalRun :=
    getImplementationChunks_s "parse" (Some logical) None Scenario.codebase in
  names_of (results_of minimalRun) = ["parse"]
  ∧ names_of (results_of logicalRun) = ["parse"; "render"; "_scan"]
  ∧ ∃ results st2,
      logicalRun = (Ok results, st2)
      ∧ entityNames (results_of minimalRun) ⊆ entityNames results.
Proof.
  intros minimalRun logicalRun.
  split; [vm_compute; reflexivity|]. split; [vm_compute; reflexivity|].
  destruct (scope_expansion_keeps_base Scenario.COLLECTION_NAME
              Scenario.no_fault Scenario.search_answer "parse" None logical
              Scenario.codebase minimalRun.2 (results_of minimalRun))
    as (results & st2 & Hrun & Hsub & _).
  - unfold minimalRun. apply run_eq. vm_compute. reflexivity.
  - by left.
  - exists results, st2. exact (conj Hrun Hsub).
Defined.

Local Abbreviation searchSimilar_down :=
  (searchSimilar Scenario.COLLECTION_NAME None None None Scenario.store_down
     Scenario.search_answer Scenario.scroll_answer Scenario.embedding_answer
     Scenario.fuel Scenario.bm25_score).
Local Abbreviation getGraph_down :=
  (getGraph Scenario.COLLECTION_NAME None Scenario.store_down
     Scenario.search_answer Scenario.scroll_answer Scenario.fuel).
Local Abbreviation getRawGraph_down :=
  (getRawGraph Scenario.COLLECTION_NAME None Scenario.store_down
     Scenario.search_answer Scenario.scroll_answer Scenario.fuel).

(** C4 at work: with the store down, every search and every graph read of
    the code base comes back empty, and none fails. *)
Lemma read_failures_degrade_to_empty_down :
  (∀ q types limit mode,
     ∃ st', searchSimilar_down q types limit mode Scenario.codebase
            = (Ok [], st'))
  ∧ (∀ options,
       ∃ st', getGraph_down options Scenario.codebase = (Ok emptyGraph, st'))
  ∧ (∀ limit types,
       ∃ st', getRawGraph_down limit types Scenario.codebase
              = (Ok emptyGraph, st')).
Proof.
  destruct (read_failures_degrade_to_empty Scenario.COLLECTION_NAME None None
              None Scenario.store_down Scenario.search_answer
              Scenario.scroll_answer Scenario.embedding_answer Scenario.fuel
              Scenario.bm25_score Scenario.codebase)
    as (_ & _ & _ & _ & _ & Hdown).
  - reflexivity.
  - reflexivity.
  - unfold Scenario.fuel. lia.
  - apply Hdown. intros n c _ Hc. destruct c; try done; by eexists.
Defined.

(** The two scanners on small texts. *)
Example extractCalls_example :
  extractCalls "x = foo (a); b(c) + go_2(bar(1)) (" = ["foo"; "go_2"; "bar"].
Proof. reflexivity. Qed.

Example extractImports_example :
  extractImports "import os; from  sys import path; reimport x"
  = ["os"; "sys"; "path"; "x"].
Proof. reflexivity. Qed.


(** X1 at work: the id of the entity [foo]. *)
Lemma hashString_uint32_foo :
  ∃ id,
    hashString Scenario.digest "manual::foo::metadata" Scenario.empty
    = (Ok id, Scenario.empty)
    ∧ 0 <= id < 2 ^ 32.
Proof.
  eexists. eapply (hashString_uint32 Scenario.digest). vm_compute. reflexivity.
Defined.

(** X2 at work: a fresh server before a store that is down gives up after
    three calls. *)
Lemma connect_three_attempts_down :
  connect Scenario.store_down Scenario.fresh
  = (Throw "Failed to connect to Qdrant after multiple attempts: connect ECONNREFUSED",
     set_calls 3 Scenario.fresh).
Proof.
  exact (connect_three_attempts Scenario.store_down Scenario.fresh eq_refl).
Defined.

Local Abbreviation initialize_s :=
  (initialize Scenario.COLLECTION_NAME None Scenario.no_fault).

(** X3 at work: a fresh server creates the collection [memory] with 1536
    dimensions. *)
Lemma initialize_ensures_collection_fresh :
  let st' := (initialize_s Scenario.fresh).2 in
  initialized st' = true
  ∧ qdrant st' = {[ "memory" := emptyCollection 1536 ]}
  ∧ vectorSize st' = 1536.
Proof.
  intros st'.
  destruct (initialize_ensures_collection Scenario.COLLECTION_NAME None
              Scenario.no_fault Scenario.fresh st')
    as (c & Hc & _ & Hi & _ & _ & Hm).
  - apply run_eq. vm_compute. reflexivity.
  - injection Hc as <-. destruct Hm as [Hq Hv].
    exact (conj Hi (conj Hq Hv)).
Defined.

(** X6 at work: [foo] written into an empty collection, and read back. *)
Lemma persisted_entity_reads_back_foo :
  let st' := (persistEntity_s foo_does_X Scenario.empty).2 in
  ∃ p,
    storedUnder Scenario.COLLECTION_NAME Scenario.digest
      "manual::foo::metadata" p st'
    ∧ ∀ (maxEntities : Q) (types : option (list string)) (acc : RawData),
        (inject_Z (entityCount acc) < maxEntities)%Q →
        (actualEntityTypes types = []
         ∨ "function" ∈ actualEntityTypes types) →
        let acc' := rawPoint maxEntities types acc p in
        raw_entities acc' = (raw_entities acc ++ [foo_does_X])%list
        ∧ raw_allEntities acc' = (raw_allEntities acc ++ [foo_does_X])%list
        ∧ entityCount acc' = entityCount acc + 1
        ∧ raw_relations acc' = raw_relations acc.
Proof.
  intros st'.
  apply (persisted_entity_reads_back Scenario.COLLECTION_NAME None None None
           Scenario.digest Scenario.no_fault Scenario.embedding_answer
           Scenario.clock foo_does_X Scenario.empty st').
  apply run_eq. vm_compute. reflexivity.
Defined.

(** X7 at work: [parse uses render] written into the code base, and read
    back with the relation id as source. *)
Lemma persisted_relation_reads_back_parse :
  let st' := (persistRelation_s parse_uses_render Scenario.codebase).2 in
  ∃ p,
    storedUnder Scenario.COLLECTION_NAME Scenario.digest
      "relation::parse-uses-render::relation" p st'
    ∧ "parse-uses-render" ≠ "parse"
    ∧ ∀ (maxEntities : Q) (types : option (list string)) (acc : RawData),
        let acc' := rawPoint maxEntities types acc p in
        raw_relations acc'
        = (raw_relations acc ++
           [{| from := "parse-uses-render"; to := "render";
               relationType := "uses" |}])%list
        ∧ raw_entities acc' = raw_entities acc
        ∧ entityCount acc' = entityCount acc.
Proof.
  intros st'.
  apply (persisted_relation_reads_back Scenario.COLLECTION_NAME None None None
           Scenario.digest Scenario.no_fault Scenario.embedding_answer
           Scenario.clock parse_uses_render Scenario.codebase st').
  apply run_eq. vm_compute. reflexivity.
Defined.

Local Abbreviation addRelations_down :=
  (addRelations Scenario.COLLECTION_NAME None None None Scenario.digest
     Scenario.store_down Scenario.search_answer Scenario.scroll_answer
     Scenario.embedding_answer Scenario.clock Scenario.fuel).

(** X8 at work: with the store down, a relation between two entities of the
    code base is refused for a missing entity. *)
Lemma addRelations_store_down_codebase :
  (∀ r rest,
     addRelations_down (r :: rest) Scenario.codebase
     = (Throw ("Entity not found: " +:+ from r), set_calls 1 Scenario.codebase))
  ∧ addRelations_down [] Scenario.codebase
    = (Ok tt, set_calls 1 Scenario.codebase).
Proof.
  apply (addRelations_store_down Scenario.COLLECTION_NAME None None None
           Scenario.digest Scenario.store_down Scenario.search_answer
           Scenario.scroll_answer Scenario.embedding_answer Scenario.clock
           Scenario.fuel Scenario.codebase).
  - reflexivity.
  - reflexivity.
  - intros n c _ Hc. destruct c; try done; by eexists.
Defined.


Local Abbreviation scrollAll_s :=
  (scrollAll Scenario.COLLECTION_NAME None Scenario.no_fault
     Scenario.search_answer Scenario.scroll_answer Scenario.fuel).

(** X9 at work: the relationships view of the code base, three relations
    between three entities. *)
Lemma scrollAll_relationships_closed_codebase :
  let g := graph_of (scrollAll_s (Some (view relationships)) Scenario.codebase) in
  Forall (fun r => namedIn (entities g) (from r) ∧ namedIn (entities g) (to r))
    (relations g)
  ∧ length (relations g) = 3%nat.
Proof.
  intros g. split.
  - apply (scrollAll_relationships_closed Scenario.COLLECTION_NAME None
             Scenario.no_fault Scenario.search_answer Scenario.scroll_answer
             Scenario.fuel (view relationships) Scenario.codebase
             (scrollAll_s (Some (view relationships)) Scenario.codebase).2 g).
    + apply run_eq. vm_compute. reflexivity.
    + reflexivity.
  - vm_compute. reflexivity.
Defined.

(** X10 at work: the functions of the code base. *)
Lemma scrollAll_type_filter_codebase :
  let g := graph_of (scrollAll_s (Some functions_view) Scenario.codebase) in
  (Forall (fun e => entityType e ∈ actualEntityTypes (Some ["function"; "metadata"]))
     (entities g)
   ∧ Forall (fun e => JS.includes (entityType e) knownChunkTypes = false)
       (entities g)
   ∧ Forall (fun r => namedIn (entities g) (from r) ∨ namedIn (entities g) (to r))
       (relations g))
  ∧ map name (entities g) = ["_scan"; "render"; "parse"].
Proof.
  intros g. split.
  - apply (scrollAll_type_filter Scenario.COLLECTION_NAME None
             Scenario.no_fault Scenario.search_answer Scenario.scroll_answer
             Scenario.fuel functions_view Scenario.codebase
             (scrollAll_s (Some functions_view) Scenario.codebase).2 g).
    + apply run_eq. vm_compute. reflexivity.
    + done.
    + done.
  - vm_compute. reflexivity.
Defined.


(** Deleting works. *)
Local Abbreviation no_delete_fault :=
  (fun (n : nat) (collection : string) (s : Selector) => @None string).

(** X16 at work: the second of two entities is a string. *)
Lemma validateCreateEntitiesRequest_first_invalid_second :
  validateCreateEntitiesRequest
    {[ "entities" := JS.Arr [entityArg "parse" "function" []; JS.Str "render"] ]}
  = Throw "Invalid entity at index 1".
Proof.
  destruct (validateCreateEntitiesRequest_first_invalid
              {[ "entities" :=
                   JS.Arr [entityArg "parse" "function" []; JS.Str "render"] ]}
              [entityArg "parse" "function" []; JS.Str "render"])
    as [[[Hall _]|(i & e & Hi & He & _ & Hthrow)] _].
  - vm_compute. reflexivity.
  - exfalso. inversion Hall as [|? ? _ Hrest]. inversion Hrest as [|? ? Hbad _].
    discriminate Hbad.
  - destruct i as [|[|i]]; simpl in Hi.
    + injection Hi as <-. discriminate He.
    + exact Hthrow.
    + discriminate Hi.
Defined.

Local Abbreviation handle_get_implementation_s :=
  (handle_get_implementation Scenario.COLLECTION_NAME Scenario.no_fault
     Scenario.search_answer).

(** X17 at work: a request that names the entity in snake case and gives no
    scope. *)
Lemma get_implementation_defaults_snake :
  validateGetImplementationRequest {[ "entity_name" := JS.Str "parse" ]}
  = Ok {| gi_entityName := "parse"; gi_scope := minimal |}
  ∧ handle_get_implementation_s {[ "entity_name" := JS.Str "parse" ]}
      Scenario.codebase
    = getImplementationChunks_s "parse" (Some minimal) None Scenario.codebase.
Proof.
  apply (get_implementation_defaults Scenario.COLLECTION_NAME
           Scenario.no_fault Scenario.search_answer
           {[ "entity_name" := JS.Str "parse" ]} "parse" minimal
           Scenario.codebase).
  - right. split; vm_compute; reflexivity.
  - left. split; [vm_compute|]; reflexivity.
Defined.

Local Abbreviation deleteRelation_s :=
  (deleteRelation Scenario.COLLECTION_NAME Scenario.digest Scenario.no_fault
     no_delete_fault Scenario.matches).

(** X18 at work: a relation created in the code base, then deleted. *)
Lemma deleteRelation_undoes_persistRelation_parse :
  let st1 := (persistRelation_s parse_uses_render Scenario.codebase).2 in
  let st2 := (deleteRelation_s parse_uses_render st1).2 in
  ∃ col col2,
    qdrant Scenario.codebase !! "memory" = Some col
    ∧ qdrant st2 !! "memory" = Some col2
    ∧ c_points col2 = c_points col.
Proof.
  intros st1 st2.
  destruct (deleteRelation_undoes_persistRelation Scenario.COLLECTION_NAME
              None None None Scenario.digest Scenario.no_fault
              Scenario.embedding_answer Scenario.clock
              no_delete_fault Scenario.matches
              parse_uses_render Scenario.codebase st1 st2)
    as (c & col & col2 & id & Hc & Hid & Hcol & Hcol2 & _ & Hsame & _).
  - apply run_eq. vm_compute. reflexivity.
  - apply run_eq. vm_compute. reflexivity.
  - injection Hc as <-. exists col, col2.
    split; [exact Hcol|]. split; [exact Hcol2|].
    apply Hsame.
    specialize (Hid Scenario.empty). vm_compute in Hid. injection Hid as <-.
    vm_compute in Hcol. injection Hcol as <-.
    vm_compute. reflexivity.
Defined.

Local Abbreviation scrollAll_down :=
  (scrollAll Scenario.COLLECTION_NAME None Scenario.store_down
     Scenario.search_answer Scenario.scroll_answer Scenario.fuel).
Local Abbreviation deleteEntities_down :=
  (deleteEntities Scenario.COLLECTION_NAME None Scenario.digest
     Scenario.store_down Scenario.search_answer Scenario.scroll_answer
     Scenario.fuel no_delete_fault Scenario.matches).
Local Abbreviation deleteEntity_down :=
  (deleteEntity Scenario.COLLECTION_NAME Scenario.store_down
     no_delete_fault Scenario.matches).

(** X20 at work: the store refuses every read and accepts the deletes. *)
Lemma deleteEntities_without_graph_down :
  deleteEntities_down ["parse"; "ghost"] Scenario.codebase
  = (deleteEntity_down "parse" ;;; deleteEntity_down "ghost" ;;; ret tt)
      (set_calls 1 Scenario.codebase).
Proof.
  apply (deleteEntities_without_graph Scenario.COLLECTION_NAME None
           Scenario.digest Scenario.store_down Scenario.search_answer
           Scenario.scroll_answer Scenario.fuel no_delete_fault
           Scenario.matches ["parse"; "ghost"] Scenario.codebase
           (set_calls 1 Scenario.codebase)
           ("Failed to initialize Qdrant collection. "
            +:+ "Please check server logs for details: connect ECONNREFUSED")).
  vm_compute. reflexivity.
Defined.

Local Abbreviation addObservations_s :=
  (addObservations Scenario.COLLECTION_NAME None None None
     Scenario.digest Scenario.no_fault Scenario.search_answer
     Scenario.scroll_answer Scenario.embedding_answer Scenario.clock
     Scenario.fuel).
Local Abbreviation deleteObservations_s :=
  (deleteObservations Scenario.COLLECTION_NAME None None None
     Scenario.digest Scenario.no_fault Scenario.search_answer
     Scenario.scroll_answer Scenario.embedding_answer Scenario.clock
     Scenario.fuel).

(** X21 at work: [foo] is created with two observations, and given a
    third. *)
Lemma addObservations_appends_foo :
  let st := (persistEntity_s foo_does_X_and_Y Scenario.empty).2 in
  let st' := (addObservations_s "foo" ["does Z"] st).2 in
  ∃ p payload,
    storedUnder Scenario.COLLECTION_NAME Scenario.digest
      "manual::foo::metadata" p st'
    ∧ pt_payload p = Some payload
    ∧ p_observations payload = Some ["does X"; "does Y"; "does Z"]
    ∧ content payload = "does X. does Y. does Z".
Proof.
  intros st st'.
  pose proof (addObservations_appends Scenario.COLLECTION_NAME None None None
                Scenario.digest Scenario.no_fault Scenario.search_answer
                Scenario.scroll_answer Scenario.embedding_answer
                Scenario.clock Scenario.fuel "foo" ["does Z"] st
                (getRawGraph_s (Some (inject_Z JS.MAX_SAFE_INTEGER)) None st).2
                (graph_of (getRawGraph_s (Some (inject_Z JS.MAX_SAFE_INTEGER))
                             None st))) as H.
  assert (findEntity
            (graph_of (getRawGraph_s (Some (inject_Z JS.MAX_SAFE_INTEGER))
                         None st)) "foo"
          = Some foo_does_X_and_Y) as Hfind by (vm_compute; reflexivity).
  rewrite Hfind in H.
  destruct H as [_ H]; [vm_compute; reflexivity|].
  destruct (H st') as (p & payload & Hp & Hpay & _ & _ & _ & Hobs & Hcontent).
  - apply run_eq. vm_compute. reflexivity.
  - exists p, payload. repeat split; [exact Hp|exact Hpay|exact Hobs|].
    rewrite Hcontent. vm_compute. reflexivity.
Defined.

(** X22 at work: [foo] is created with two observations, and loses the
    first. *)
Lemma deleteObservations_removes_foo :
  let st := (persistEntity_s foo_does_X_and_Y Scenario.empty).2 in
  let st' := (deleteObservations_s "foo" ["does X"; "does W"] st).2 in
  ∃ p payload,
    storedUnder Scenario.COLLECTION_NAME Scenario.digest
      "manual::foo::metadata" p st'
    ∧ pt_payload p = Some payload
    ∧ ∃ kept, p_observations payload = Some kept
              ∧ ∀ o, o ∈ kept ↔ o ∈ ["does X"; "does Y"]
                                 ∧ o ∉ ["does X"; "does W"].
Proof.
  intros st st'.
  pose proof (deleteObservations_removes Scenario.COLLECTION_NAME None None
                None Scenario.digest Scenario.no_fault
                Scenario.search_answer Scenario.scroll_answer
                Scenario.embedding_answer Scenario.clock Scenario.fuel "foo"
                ["does X"; "does W"] st
                (getRawGraph_s (Some (inject_Z JS.MAX_SAFE_INTEGER)) None st).2
                (graph_of (getRawGraph_s (Some (inject_Z JS.MAX_SAFE_INTEGER))
                             None st))) as H.
  assert (findEntity
            (graph_of (getRawGraph_s (Some (inject_Z JS.MAX_SAFE_INTEGER))
                         None st)) "foo"
          = Some foo_does_X_and_Y) as Hfind by (vm_compute; reflexivity).
  rewrite Hfind in H.
  destruct (H ltac:(vm_compute; reflexivity) st')
    as (p & payload & kept & Hp & Hpay & Hobs & _ & Hkept & _).
  - apply run_eq. vm_compute. reflexivity.
  - exists p, payload. split; [exact Hp|]. split; [exact Hpay|].
    exists kept. split; [exact Hobs|exact Hkept].
Defined.

Local Abbreviation getEntitySpecificGraph_s :=
  (getEntitySpecificGraph Scenario.COLLECTION_NAME Scenario.no_fault
     Scenario.search_answer Scenario.scroll_answer Scenario.fuel
     (list (string * nat)) Scenario.tally).

(** X23 at work: the code base has no entity [ghost]. *)
Lemma entity_graph_errors_ghost :
  getEntitySpecificGraph_s "ghost" None None Scenario.codebase
  = (Throw "Entity 'ghost' not found", set_calls 1 Scenario.codebase).
Proof.
  destruct (entity_graph_errors Scenario.COLLECTION_NAME Scenario.no_fault
              Scenario.search_answer Scenario.scroll_answer Scenario.fuel
              (list (string * nat)) Scenario.tally "ghost" None None
              Scenario.codebase eq_refl eq_refl) as [H _].
  apply (H (default {| cfg_size := None; cfg_dense_size := None;
                       c_points := ∅ |}
              (qdrant Scenario.codebase !! "memory"))).
  - vm_compute. reflexivity.
  - reflexivity.
  - vm_compute. reflexivity.
Defined.

(** X24 at work: a relation created in the code base. *)
Lemma created_relation_not_in_entity_graph_parse :
  let st' := (persistRelation_s parse_uses_render Scenario.codebase).2 in
  ∃ p,
    storedUnder Scenario.COLLECTION_NAME Scenario.digest
      "relation::parse-uses-render::relation" p st'
    ∧ relationOfChunk p = None.
Proof.
  intros st'.
  destruct (created_relation_not_in_entity_graph Scenario.COLLECTION_NAME
              None None None Scenario.digest Scenario.no_fault
              Scenario.embedding_answer Scenario.clock parse_uses_render
              Scenario.codebase st')
    as (p & Hp & _ & Hnone & _).
  - apply run_eq. vm_compute. reflexivity.
  - exists p. split; [exact Hp|exact Hnone].
Defined.

(** X25 at work: the summary around [parse] in the code base. *)
Lemma smart_view_is_bounded_parse :
  ∃ s st',
    getEntitySpecificGraph_s "parse" None None Scenario.codebase
    = (Ok (SmartView _ s), st')
    ∧ length (smart_entities _ s) = 3%nat
    ∧ length (smart_relations _ s) = 3%nat
    ∧ (incoming _ s ≤ total_connections _ s)%nat
    ∧ (outgoing _ s ≤ total_connections _ s)%nat.
Proof.
  destruct (getEntitySpecificGraph_s "parse" None None Scenario.codebase)
    as [[view|e|] st'] eqn:Hrun.
  - pose proof (smart_view_is_bounded Scenario.COLLECTION_NAME
                  Scenario.no_fault Scenario.search_answer
                  Scenario.scroll_answer Scenario.fuel (list (string * nat))
                  Scenario.tally "parse" None None Scenario.codebase st' view
                  Hrun) as H.
    destruct view as [s|g].
    + destruct H as (_ & _ & _ & Hin & Hout).
      exists s, st'. split; [reflexivity|].
      vm_compute in Hrun. injection Hrun as <- <-.
      repeat split; [exact Hin|exact Hout].
    + by destruct H as [H _].
  - vm_compute in Hrun. discriminate Hrun.
  - vm_compute in Hrun. discriminate Hrun.
Defined.


(** A store that reads the cursors that are numbers or strings, and takes
    any other for none. *)
Local Abbreviation cursor_scroll_answer_s :=
  (fun (c : Collection) (r : CursorScrollRequest) =>
     Scenario.scroll_answer c
       {| r_limit := cs_limit r; r_offset := usable_offset (cs_offset r);
          r_filter := cs_filter r |}).
Local Abbreviation getMetadataChunks_s :=
  (getMetadataChunks Scenario.COLLECTION_NAME None Scenario.no_fault 51
     (fun _ _ _ => None) cursor_scroll_answer_s).

(** X26 at work: two of the three metadata chunks of the code base are asked
    for; the store is scrolled once. *)
Lemma getMetadataChunks_bounded_codebase :
  ∃ chunks st',
    getMetadataChunks_s (Some 2%Q) Scenario.codebase = (Ok chunks, st')
    ∧ length chunks = 2%nat
    ∧ (n_calls st' ≤ 56)%nat.
Proof.
  destruct (getMetadataChunks_s (Some 2%Q) Scenario.codebase)
    as [[chunks|e|] st'] eqn:Hrun.
  - destruct (getMetadataChunks_bounded Scenario.COLLECTION_NAME None
                Scenario.no_fault 51 (fun _ _ _ => None)
                cursor_scroll_answer_s (Some 2%Q) Scenario.codebase st'
                (Ok chunks)) as (_ & Hcalls & _).
    + lia.
    + exact Hrun.
    + exists chunks, st'. split; [reflexivity|]. split; [|exact Hcalls].
      vm_compute in Hrun. by injection Hrun as <- <-.
  - vm_compute in Hrun. discriminate Hrun.
  - vm_compute in Hrun. discriminate Hrun.
Defined.

End Runs.
